(** * ar4.py: account-based PDF text extraction

    A shallow embedding of the text core of [src/ar4.py]: the block
    segmentation by [re.split], the three field extractors
    ([extract_patient_name], [extract_date_of_service],
    [extract_cpt_codes]), the module-level block loop, the
    [drop_duplicates] step and the outcome the script shows, together with
    the properties the specification states about them.

    A text is a [list ascii], a character being a code point below
    U+0100.  On these the classes of characters ([\d], [\s], [\w], [.],
    the white space of [strip] and [split]) are Python's, the letters and
    numbers of Latin-1 and its two white-space characters above ASCII
    included; a text with a character from U+0100 on is outside the
    model.  The case of a letter is changed for the ASCII letters alone:
    the script changes the case of texts matched by classes of ASCII
    characters only.

    The regular expressions of the source are values of a small syntax of
    patterns, run by a backtracking matcher that follows the priorities of
    Python's [re] (greedy and lazy repetition, ordered alternatives,
    look-ahead, word boundaries, one capturing group); [search],
    [findall] and [split] are the loops of CPython over this matcher, the
    split on a pattern that matches the empty string being that of Python
    3.7 and later. *)

From Stdlib Require Import List Ascii Bool Arith Lia.
From Stdlib Require String.
Import String.StringSyntax.
From Stdlib Require Import Sorting.Sorted.
Import ListNotations.

Open Scope list_scope.
Open Scope bool_scope.

(** ** Characters and strings *)

(** A Python [str]. *)
Definition str := list ascii.

(** A string literal of the source. *)
Definition py (s : String.string) : str := String.list_ascii_of_string s.
Arguments py s%_string_scope.

Definition code (a : ascii) : nat := nat_of_ascii a.

(** [lo <= a <= hi], a range [lo-hi] of a character class. *)
Definition in_range (lo hi a : ascii) : bool :=
  (code lo <=? code a) && (code a <=? code hi).

(** Membership of a character in an explicit list of characters. *)
Definition one_of (cs : str) (a : ascii) : bool :=
  existsb (Ascii.eqb a) cs.

Definition newline : ascii := ascii_of_nat 10.

(** [\d] *)
Definition is_digit (a : ascii) : bool := in_range "0" "9" a.

Definition is_upper (a : ascii) : bool := in_range "A" "Z" a.
Definition is_lower (a : ascii) : bool := in_range "a" "z" a.
Definition is_alpha (a : ascii) : bool := is_upper a || is_lower a.

(** [\s], [str.isspace] and the white space of [str.strip] and
    [str.split]: tab, line feed, vertical tab, form feed, carriage
    return, the four separators 28..31, the space, the next-line control
    133 and the no-break space 160. *)
Definition is_space (a : ascii) : bool :=
  ((9 <=? code a) && (code a <=? 13)) ||
  ((28 <=? code a) && (code a <=? 32)) ||
  (code a =? 133) || (code a =? 160).

(** The letters and numbers above the ASCII ones that Python counts as
    alphanumeric: the ordinal indicators 170 and 186, the superscripts
    178, 179 and 185, the micro sign 181, the fractions 188..190 and the
    letters 192..214, 216..246 and 248..255. *)
Definition is_latin1_alnum (a : ascii) : bool :=
  existsb (Nat.eqb (code a)) [170; 178; 179; 181; 185; 186; 188; 189; 190]
  || ((192 <=? code a) && (code a <=? 214))
  || ((216 <=? code a) && (code a <=? 246))
  || ((248 <=? code a) && (code a <=? 255)).

(** [\w]: a letter, a number or the underscore. *)
Definition is_word (a : ascii) : bool :=
  is_alpha a || is_digit a || Ascii.eqb a "_" || is_latin1_alnum a.

(** [.] without DOTALL: anything but a line feed. *)
Definition is_dot (a : ascii) : bool := negb (Ascii.eqb a newline).

(** The two cases of an ASCII letter. *)
Definition to_upper (a : ascii) : ascii :=
  if is_lower a then ascii_of_nat (code a - 32) else a.
Definition to_lower (a : ascii) : ascii :=
  if is_upper a then ascii_of_nat (code a + 32) else a.

(** [str.upper], on a text of ASCII characters. *)
Definition upper (s : str) : str := map to_upper s.

(** Equality of strings. *)
Fixpoint str_eqb (s t : str) : bool :=
  match s, t with
  | [], [] => true
  | a :: s', b :: t' => Ascii.eqb a b && str_eqb s' t'
  | _, _ => false
  end.

(** [x in xs] for a set or list of strings. *)
Definition str_in (x : str) (xs : list str) : bool := existsb (str_eqb x) xs.

(** Lexicographic order on strings by code point, Python's [<] on [str]. *)
Fixpoint str_ltb (s t : str) : bool :=
  match s, t with
  | [], [] => false
  | [], _ :: _ => true
  | _ :: _, [] => false
  | a :: s', b :: t' =>
      if code a <? code b then true
      else if code b <? code a then false
      else str_ltb s' t'
  end.

(** [str.lstrip], [str.rstrip], [str.strip] with no argument. *)
Fixpoint lstrip (s : str) : str :=
  match s with
  | a :: s' => if is_space a then lstrip s' else s
  | [] => []
  end.
Definition rstrip (s : str) : str := rev (lstrip (rev s)).
Definition strip (s : str) : str := rstrip (lstrip s).

(** [str.split()] with no argument: the maximal runs of non-space
    characters.  [cur] is the token being read, reversed. *)
Fixpoint split_ws_aux (cur : str) (s : str) : list str :=
  match s with
  | [] => match cur with [] => [] | _ => [rev cur] end
  | a :: s' =>
      if is_space a
      then match cur with
           | [] => split_ws_aux [] s'
           | _ => rev cur :: split_ws_aux [] s'
           end
      else split_ws_aux (a :: cur) s'
  end.
Definition split_ws (s : str) : list str := split_ws_aux [] s.

(** [str.title], on a text of ASCII characters: a cased character is upper-cased when the character
    before it is not cased, and lower-cased otherwise.  [prev_cased] is
    the flag [previous_is_cased] of CPython's implementation. *)
Fixpoint title_aux (prev_cased : bool) (s : str) : str :=
  match s with
  | [] => []
  | a :: s' =>
      (if prev_cased then to_lower a else to_upper a)
        :: title_aux (is_alpha a) s'
  end.
Definition title (s : str) : str := title_aux false s.

(** [sep.join(xs)] *)
Fixpoint join (sep : str) (xs : list str) : str :=
  match xs with
  | [] => []
  | [x] => x
  | x :: xs' => x ++ sep ++ join sep xs'
  end.

(** [max(xs, key=len)]: the first element of maximal length; [None] stands
    for the [ValueError] on an empty list. *)
Fixpoint max_by_len_from (best : str) (xs : list str) : str :=
  match xs with
  | [] => best
  | x :: xs' =>
      if length best <? length x then max_by_len_from x xs'
      else max_by_len_from best xs'
  end.
Definition max_by_len (xs : list str) : option str :=
  match xs with
  | [] => None
  | x :: xs' => Some (max_by_len_from x xs')
  end.

(** [sorted(set(xs))]: the distinct elements in ascending order.  A set
    has no order of its own; sorting distinct strings gives one result
    whatever the iteration order, here obtained by ordered insertion. *)
Fixpoint insert_sorted (x : str) (xs : list str) : list str :=
  match xs with
  | [] => [x]
  | y :: ys =>
      if str_ltb x y then x :: xs
      else if str_eqb x y then xs
      else y :: insert_sorted x ys
  end.
Definition sorted_set (xs : list str) : list str :=
  fold_right insert_sorted [] xs.

Definition is_empty (s : str) : bool :=
  match s with [] => true | _ => false end.

(** ** Regular expressions

    The fragment of Python's [re] syntax the source uses.  A character
    class, a literal character and [.] are all [Chr] with the predicate
    that decides the character. *)
Inductive regex : Type :=
| Eps : regex                        (* the empty pattern *)
| Chr : (ascii -> bool) -> regex     (* one character of a class *)
| Seq : regex -> regex -> regex      (* r1 r2 *)
| Alt : regex -> regex -> regex      (* r1 | r2, r1 tried first *)
| Star : bool -> regex -> regex      (* r* when [true], r*? when [false] *)
| Group : regex -> regex             (* ( r ), the capturing group 1 *)
| Look : regex -> regex              (* (?= r ) *)
| WordB : regex                      (* \b *)
| Bol : regex                        (* ^ *)
| Eol : regex.                       (* $ *)

(** A literal string. *)
Fixpoint Lit (s : str) : regex :=
  match s with
  | [] => Eps
  | a :: s' => Seq (Chr (Ascii.eqb a)) (Lit s')
  end.

(** [r{n}] *)
Fixpoint Rep (n : nat) (r : regex) : regex :=
  match n with
  | 0 => Eps
  | S n' => Seq r (Rep n' r)
  end.

(** [r?], greedy: the non-empty alternative is tried first. *)
Definition Opt (r : regex) : regex := Alt r Eps.

(** [r+], greedy. *)
Definition Plus (r : regex) : regex := Seq r (Star true r).

(** [r{n,}], greedy. *)
Definition RepAtLeast (n : nat) (r : regex) : regex := Seq (Rep n r) (Star true r).

(** [r{n,n+1}], greedy. *)
Definition RepUpTo1 (n : nat) (r : regex) : regex := Seq (Rep n r) (Opt r).

(** A class under [re.IGNORECASE]: a character is in the class when one
    of its case variants is.  For a class of ASCII letters and digits and
    a character below U+0100 the variants are the two cases of an ASCII
    letter; from U+0100 on, Python gives the letters i, s and k four more
    variants (U+0130, U+0131, U+017F, U+212A), which a text of the model
    cannot hold. *)
Definition ignorecase (c : ascii -> bool) (a : ascii) : bool :=
  c a || c (to_upper a) || c (to_lower a).

(** The state of a match attempt: the character before the current
    position (none at the start of the string), the text from the current
    position on, the text consumed since the attempt began (reversed), and
    the text of group 1 when it has been closed. *)
Record mstate : Type := MState {
  m_prev : option ascii;
  m_rest : str;
  m_acc : str;
  m_grp : option str
}.

Definition advance (a : ascii) (st : mstate) : mstate :=
  MState (Some a) (tl (m_rest st)) (a :: m_acc st) (m_grp st).

Definition word_opt (o : option ascii) : bool :=
  match o with Some a => is_word a | None => false end.

(** [\b]: exactly one of the two neighbours is a word character. *)
Definition at_boundary (st : mstate) : bool :=
  xorb (word_opt (m_prev st)) (word_opt (hd_error (m_rest st))).

(** [$] without MULTILINE: at the end, or before a final line feed. *)
Definition at_end (st : mstate) : bool :=
  match m_rest st with
  | [] => true
  | [a] => Ascii.eqb a newline
  | _ => false
  end.

Definition at_start (st : mstate) : bool :=
  match m_prev st with None => true | Some _ => false end.

(** Closing group 1 at [st'], opened at [st]: the text consumed between
    the two states. *)
Definition close_group (st st' : mstate) : mstate :=
  MState (m_prev st') (m_rest st') (m_acc st')
         (Some (rev (firstn (length (m_acc st') - length (m_acc st)) (m_acc st')))).

Definition progressed (st st' : mstate) : bool :=
  length (m_rest st') <? length (m_rest st).

Definition or_else {A} (x y : option A) : option A :=
  match x with Some _ => x | None => y end.

(** A repetition of [body]: at most [n] more iterations, each of which
    must consume something; the greedy one tries a further iteration
    before it leaves the loop, the lazy one after. *)
Fixpoint star_loop (body : (mstate -> option mstate) -> mstate -> option mstate)
    (greedy : bool) (k : mstate -> option mstate) (n : nat) (st : mstate)
  : option mstate :=
  match n with
  | 0 => k st
  | S n' =>
      let more :=
        body (fun st' => if progressed st st' then star_loop body greedy k n' st'
                         else None) st in
      if greedy then or_else more (k st) else or_else (k st) more
  end.

(** The backtracking matcher, in continuation-passing style: [matchk r k
    st] matches [r] at [st] and hands every state [r] can end in to the
    continuation [k], in the order Python's engine tries them; the first
    one [k] accepts is the result.  A repetition runs at most once per
    remaining character. *)
Fixpoint matchk (r : regex) (k : mstate -> option mstate) (st : mstate)
  : option mstate :=
  match r with
  | Eps => k st
  | Chr c =>
      match m_rest st with
      | a :: _ => if c a then k (advance a st) else None
      | [] => None
      end
  | Seq r1 r2 => matchk r1 (matchk r2 k) st
  | Alt r1 r2 => or_else (matchk r1 k st) (matchk r2 k st)
  | Star greedy r1 => star_loop (matchk r1) greedy k (length (m_rest st)) st
  | Group r1 => matchk r1 (fun st' => k (close_group st st')) st
  | Look r1 =>
      match matchk r1 (fun st' => Some st') st with
      | Some _ => k st
      | None => None
      end
  | WordB => if at_boundary st then k st else None
  | Bol => if at_start st then k st else None
  | Eol => if at_end st then k st else None
  end.

(** The result of a successful match: the text before it (from where the
    search began), the matched text [group(0)], group 1, and the state at
    its end. *)
Record rmatch : Type := RMatch {
  before : str;
  group0 : str;
  group1 : option str;
  m_end : mstate
}.

(** The last test of an attempt: with [must_advance] set, an empty match
    is refused (and the engine backtracks). *)
Definition accept (must_advance : bool) (st : mstate) : option mstate :=
  if must_advance && is_empty (m_acc st) then None else Some st.

(** One match attempt at the position with previous character [p] and
    remaining text [s]. *)
Definition match_here (r : regex) (must_advance : bool) (p : option ascii) (s : str)
  : option mstate :=
  matchk r (accept must_advance) (MState p s [] None).

(** [sre_search]: attempts at the start position (there alone with
    [must_advance]), then one character further each time, up to and
    including the end of the text. *)
Fixpoint scan (r : regex) (must_advance : bool) (p : option ascii) (s : str)
  : option (str * mstate) :=
  match match_here r must_advance p s with
  | Some st => Some ([], st)
  | None =>
      match s with
      | [] => None
      | a :: s' =>
          match scan r false (Some a) s' with
          | Some (pre, st) => Some (a :: pre, st)
          | None => None
          end
      end
  end.

Definition to_rmatch (x : str * mstate) : rmatch :=
  RMatch (fst x) (rev (m_acc (snd x))) (m_grp (snd x)) (snd x).

(** [re.search(r, s)] and [pattern.search(s)]. *)
Definition re_search (r : regex) (s : str) : option rmatch :=
  option_map to_rmatch (scan r false None s).

(** The loop shared by [findall] and [split]: search from the current
    position, then go on from the end of the match with [must_advance]
    set when the match was empty.  [fuel] bounds the number of matches. *)
Fixpoint matches_from (fuel : nat) (r : regex) (must_advance : bool)
    (p : option ascii) (s : str) : list rmatch :=
  match fuel with
  | 0 => []
  | S fuel' =>
      match scan r must_advance p s with
      | None => []
      | Some x =>
          let st := snd x in
          to_rmatch x ::
            matches_from fuel' r (is_empty (m_acc st)) (m_prev st) (m_rest st)
      end
  end.

(** Each match but the first that begins where the search starts is
    non-empty or lies further on, so a text of [n] characters has at most
    [2 n + 1] matches. *)
Definition all_matches (r : regex) (s : str) : list rmatch :=
  matches_from (2 * length s + 2) r false None s.

(** [re.findall(r, s)] for a pattern without capturing group. *)
Definition re_findall (r : regex) (s : str) : list str :=
  map group0 (all_matches r s).

(** [re.split(r, s)] for a pattern without capturing group: the texts
    between the matches, and the text after the last one. *)
Fixpoint split_pieces (ms : list rmatch) (final : str) : list str :=
  match ms with
  | [] => [final]
  | x :: ms' => before x :: split_pieces ms' final
  end.

Definition tail_after (ms : list rmatch) (s : str) : str :=
  match rev ms with
  | [] => s
  | x :: _ => m_rest (m_end x)
  end.

Definition re_split (r : regex) (s : str) : list str :=
  let ms := all_matches r s in
  split_pieces ms (tail_after ms s).

(** [r1 r2 ... rn] *)
Fixpoint Cat (rs : list regex) : regex :=
  match rs with
  | [] => Eps
  | [r] => r
  | r :: rs' => Seq r (Cat rs')
  end.

(** ** The program *)

Definition digit : regex := Chr is_digit.        (* \d *)
Definition space : regex := Chr is_space.        (* \s *)
Definition dot : regex := Chr is_dot.            (* . *)
Definition chr (a : ascii) : regex := Chr (Ascii.eqb a).

(** [Account:\s*\d{4}], the account marker: the pattern inside the
    look-ahead of [re.split], and the head of the pattern of
    [extract_date_of_service]. *)
Definition marker_re : regex :=
  Cat [Lit (py "Account:"); Star true space; Rep 4 digit].

(** [r"(?=Account:\s*\d{4})"], the pattern of [re.split]. *)
Definition boundary_pattern : regex := Look marker_re.

(** [account_pattern = re.compile(r"Account:\s*(\d{4,5})")] *)
Definition account_pattern : regex :=
  Cat [Lit (py "Account:"); Star true space; Group (RepUpTo1 4 digit)].

(** [date_pattern = re.compile(r"\b\d{2}/\d{2}/\d{4}\b")] *)
Definition date_pattern : regex :=
  Cat [WordB; Rep 2 digit; chr "/"; Rep 2 digit; chr "/"; Rep 4 digit; WordB].

(** [cpt_pattern = re.compile(r"\b\d{5}(?:-[A-Z0-9]{2})?\b", re.IGNORECASE)];
    on characters below U+0100 the class of the modifier is that of the
    ASCII letters and digits. *)
Definition cpt_pattern : regex :=
  Cat [WordB; Rep 5 digit;
       Opt (Seq (chr "-")
                (Rep 2 (Chr (ignorecase (fun a => is_upper a || is_digit a)))));
       WordB].

(** The module-level [ignore_words]; [extract_patient_name] binds a local
    variable of the same name and so never reads this one. *)
Definition ignore_words : list str :=
  [py "SECONDARY"; py "PRIMARY"; py "DOL"; py "PAY"; py "INSURANCE"; py "PPO";
   py "PLAN"; py "TOTALS"; py "BALANCE"; py "OVERPD"; py "GENESICARE";
   py "YES"; py "NO"; py "FLORIDA"; py "USA"].

(** The [ignore_words] assigned in the body of [extract_patient_name]. *)
Definition local_ignore_words : list str :=
  [py "SECONDARY"; py "PRIMARY"; py "DOL"; py "PAY"; py "INSURANCE"; py "PPO";
   py "PLAN"; py "TOTALS"; py "BALANCE"; py "OVERPD"; py "GENESISC";
   py "GENESICARE"; py "FLORIDA"; py "USA"; py "NOT"; py "USE"; py "BCBS";
   py "FBU"].

(** [r"\b[A-Z ,.'\-]{3,}\b"] *)
Definition upper_name_class (a : ascii) : bool :=
  is_upper a || one_of (py " ,.'-") a.
Definition upper_name_re : regex :=
  Cat [WordB; RepAtLeast 3 (Chr upper_name_class); WordB].

(** [r"[A-Z][a-z]+(?: [A-Z][a-z]+)*, [A-Z][a-z]+(?: [A-Z]\.?)?"] *)
Definition cap_word : regex := Seq (Chr is_upper) (Plus (Chr is_lower)).
Definition mixed_name_re : regex :=
  Cat [cap_word; Star true (Seq (chr " ") cap_word); Lit (py ", "); cap_word;
       Opt (Cat [chr " "; Chr is_upper; Opt (chr ".")])].

(** The filter of [clean_upper]:
    [not any(w in ignore_words for w in n.split()) and len(n.split()) >= 2]. *)
Definition keep_upper (ignored : list str) (n : str) : bool :=
  negb (existsb (fun w => str_in w ignored) (split_ws n))
  && (2 <=? length (split_ws n)).

(** The filter of [mixed_clean]:
    [not any(w.upper() in ignore_words for w in m.split())]. *)
Definition keep_mixed (ignored : list str) (m : str) : bool :=
  negb (existsb (fun w => str_in (upper w) ignored) (split_ws m)).

Definition clean_upper_of (ignored : list str) (block : str) : list str :=
  map strip (filter (keep_upper ignored) (re_findall upper_name_re block)).

Definition mixed_clean_of (ignored : list str) (block : str) : list str :=
  filter (keep_mixed ignored) (re_findall mixed_name_re block).

(** [extract_patient_name(block)].  [if clean_upper:] is the case
    [Some] of [max_by_len], which is [None] on the empty list only. *)
Definition extract_patient_name (block : str) : str :=
  let ignore_words := local_ignore_words in
  let clean_upper := clean_upper_of ignore_words block in
  match max_by_len clean_upper with
  | Some n => title n
  | None =>
      let mixed_clean := mixed_clean_of ignore_words block in
      match max_by_len mixed_clean with
      | Some m => strip m
      | None => []
      end
  end.

(** The pattern of the search in [extract_date_of_service]: [Account:],
    [\s*], [\d{4}], a lazy [.*?], a line feed, and group 1 around a
    greedy run of [.]. *)
Definition account_line_re : regex :=
  Cat [marker_re; Star false dot; chr newline; Group (Star true dot)].

(** [m.group(1)] for a group that took part in the match. *)
Definition group_1 (m : rmatch) : str :=
  match group1 m with Some g => g | None => [] end.

(** The first half of [extract_date_of_service]: the date on the line
    after the account line, when there is one. *)
Definition date_after_account_line (block : str) : option str :=
  match re_search account_line_re block with
  | Some account_line_match =>
      let possible_line := group_1 account_line_match in
      match re_search date_pattern possible_line with
      | Some date_match => Some (group0 date_match)
      | None => None
      end
  | None => None
  end.

(** [extract_date_of_service(block)] *)
Definition extract_date_of_service (block : str) : str :=
  match date_after_account_line block with
  | Some d => d
  | None =>
      match re_findall date_pattern block with
      | d :: _ => d
      | [] => []
      end
  end.

(** [extract_cpt_codes(block)] *)
Definition extract_cpt_codes (block : str) : str :=
  let cpt_codes := re_findall cpt_pattern block in
  match cpt_codes with
  | [] => []
  | _ => join (py ", ") (sorted_set cpt_codes)
  end.

(** One entry of [records]: the dict with the keys "Account Number",
    "Patient Name", "Date of Service" and "CPT Codes". *)
Record record : Type := Record_ {
  account_number : str;
  patient_name : str;
  date_of_service : str;
  cpt_codes : str
}.

(** [not s.strip()] *)
Definition is_blank (s : str) : bool := is_empty (strip s).

(** The body of [for block in blocks:] for one block: [None] where the
    source reaches a [continue], the appended record otherwise. *)
Definition parse_block (block : str) : option record :=
  if is_blank block then None
  else
    match re_search account_pattern block with
    | None => None
    | Some acc_match =>
        let account_no := group_1 acc_match in
        let patient_name := extract_patient_name block in
        let date_of_service := extract_date_of_service block in
        let cpt_joined := extract_cpt_codes block in
        if is_empty cpt_joined then None
        else Some (Record_ account_no patient_name date_of_service cpt_joined)
    end.

(** The loop over [blocks], threading the list [records]. *)
Definition loop_step (records : list record) (block : str) : list record :=
  match parse_block block with
  | Some r => records ++ [r]
  | None => records
  end.

Definition parse_blocks (blocks : list str) : list record :=
  fold_left loop_step blocks [].

(** [df.drop_duplicates(subset=["Account Number"])] with pandas' default
    [keep="first"]: a row is dropped when an earlier row has its account
    number.  [seen] holds the account numbers of the rows read so far.
    On a frame without rows pandas returns at once, before it looks for
    the column, so the empty list of records gives the empty table. *)
Fixpoint drop_duplicates_seen (seen : list str) (rows : list record) : list record :=
  match rows with
  | [] => []
  | r :: rows' =>
      if str_in (account_number r) seen
      then drop_duplicates_seen seen rows'
      else r :: drop_duplicates_seen (account_number r :: seen) rows'
  end.
Definition drop_duplicates (rows : list record) : list record :=
  drop_duplicates_seen [] rows.

(** What the script shows: the error "No text found in PDF." followed by
    [st.stop()], the warning "No valid account data extracted." over an
    empty table, or the table. *)
Inductive outcome : Type :=
| NoTextFound : outcome
| NoValidData : list record -> outcome
| Extracted : list record -> outcome.

(** [df.empty] *)
Definition is_empty_table (df : list record) : bool :=
  match df with [] => true | _ => false end.

(** The segmentation: [blocks = re.split(r"(?=Account:\s*\d{4})", full_text)]. *)
Definition blocks_of (full_text : str) : list str :=
  re_split boundary_pattern full_text.

(** The table [df] after [drop_duplicates] and [reset_index]. *)
Definition table_of (full_text : str) : list record :=
  drop_duplicates (parse_blocks (blocks_of full_text)).

(** The script from [full_text] on. *)
Definition run (full_text : str) : outcome :=
  if is_blank full_text then NoTextFound
  else
    let df := table_of full_text in
    if is_empty_table df then NoValidData df else Extracted df.


(** ** The claim on the patient name, as worded

    The specification words the first tier without the [strip] of the
    source: it takes the longest of the runs that pass the two filters and
    returns it in title case.  [claimed_extract_patient_name] follows these
    words; it is compared with [extract_patient_name] below. *)
Definition claimed_extract_patient_name (block : str) : str :=
  let survivors :=
    filter (keep_upper local_ignore_words) (re_findall upper_name_re block) in
  match max_by_len survivors with
  | Some n => title n
  | None =>
      match max_by_len (mixed_clean_of local_ignore_words block) with
      | Some m => strip m
      | None => []
      end
  end.

(** ** The shape of a CPT code, and the split on a separator *)

(** [s.startswith(prefix)] *)
Fixpoint starts_with (prefix s : str) : bool :=
  match prefix, s with
  | [], _ => true
  | a :: prefix', b :: s' => Ascii.eqb a b && starts_with prefix' s'
  | _ :: _, [] => false
  end.

(** [needle in s] *)
Fixpoint contains (needle s : str) : bool :=
  starts_with needle s
  || match s with [] => false | _ :: s' => contains needle s' end.

Definition is_alnum (a : ascii) : bool := is_upper a || is_lower a || is_digit a.

(** [^\d{5}(-[A-Za-z0-9]{2})?$], the pattern the specification gives for
    one code of a record. *)
Definition cpt_shape_re : regex :=
  Cat [Bol; Rep 5 digit; Opt (Group (Seq (chr "-") (Rep 2 (Chr is_alnum)))); Eol].

(** [re.match(r, s) is not None] for that pattern. *)
Definition matches_cpt_shape (s : str) : bool :=
  match match_here cpt_shape_re false None s with
  | Some _ => true
  | None => false
  end.

(** [s.split(sep)] for a separator that is not empty: [s] is cut at the
    occurrences of [sep], read from the left; [skip] counts the characters
    of an occurrence still to pass, [cur] is the piece being read,
    reversed. *)
Fixpoint split_on_aux (sep : str) (skip : nat) (cur : str) (s : str) : list str :=
  match s with
  | [] => [rev cur]
  | a :: s' =>
      match skip with
      | S skip' => split_on_aux sep skip' cur s'
      | 0 =>
          if starts_with sep s
          then rev cur :: split_on_aux sep (length sep - 1) [] s'
          else split_on_aux sep 0 (a :: cur) s'
      end
  end.
Definition split_on (sep s : str) : list str := split_on_aux sep 0 [] s.

(** Python's [<] on strings, as a relation. *)
Definition str_lt (s t : str) : Prop := str_ltb s t = true.

(** * The vocabulary of the properties

    The relations and auxiliary functions in which the lemmas and the
    properties below are stated. *)

(** ** Records and rows *)

(** The records one block adds to [records]: one or none. *)
Definition record_of (block : str) : list record :=
  match parse_block block with Some r => [r] | None => [] end.

(** The column "Account Number" of a table. *)
Definition keys (rows : list record) : list str := map account_number rows.

(** [l1] is [l2] with some elements left out, the others in their order. *)
Inductive subseq {A : Type} : list A -> list A -> Prop :=
| subseq_nil : subseq [] []
| subseq_skip x l1 l2 : subseq l1 l2 -> subseq l1 (x :: l2)
| subseq_keep x l1 l2 : subseq l1 l2 -> subseq (x :: l1) (x :: l2).

(** ** What a pattern matches *)

(** The character before the position reached after reading [w] from a
    position whose previous character is [p]. *)
Definition last_of (p : option ascii) (w : str) : option ascii :=
  fold_left (fun _ a => Some a) w p.

(** [Matches r p w nxt]: the pattern [r] matches the text [w] when the
    character before [w] is [p] and the text after it is [nxt].  The
    matcher finds one of these texts, chosen by its priorities. *)
Inductive Matches : regex -> option ascii -> str -> str -> Prop :=
| MEps p nxt : Matches Eps p [] nxt
| MChr (c : ascii -> bool) a p nxt : c a = true -> Matches (Chr c) p [a] nxt
| MSeq r1 r2 p w1 w2 nxt :
    Matches r1 p w1 (w2 ++ nxt) -> Matches r2 (last_of p w1) w2 nxt ->
    Matches (Seq r1 r2) p (w1 ++ w2) nxt
| MAltL r1 r2 p w nxt : Matches r1 p w nxt -> Matches (Alt r1 r2) p w nxt
| MAltR r1 r2 p w nxt : Matches r2 p w nxt -> Matches (Alt r1 r2) p w nxt
| MStar0 g r p nxt : Matches (Star g r) p [] nxt
| MStarS g r p w1 w2 nxt :
    w1 <> [] ->
    Matches r p w1 (w2 ++ nxt) -> Matches (Star g r) (last_of p w1) w2 nxt ->
    Matches (Star g r) p (w1 ++ w2) nxt
| MGroup r p w nxt : Matches r p w nxt -> Matches (Group r) p w nxt
| MLook r p w nxt : Matches r p w nxt -> Matches (Look r) p [] (w ++ nxt)
| MWordB p nxt :
    xorb (word_opt p) (word_opt (hd_error nxt)) = true -> Matches WordB p [] nxt
| MBol nxt : Matches Bol None [] nxt
| MEol p nxt : nxt = [] \/ nxt = [newline] -> Matches Eol p [] nxt.

(** [reach st w st']: [st'] is [st] after reading [w]. *)
Record reach (st : mstate) (w : str) (st' : mstate) : Prop := Reach {
  reach_prev : m_prev st' = last_of (m_prev st) w;
  reach_rest : m_rest st = w ++ m_rest st';
  reach_acc : m_acc st' = rev w ++ m_acc st
}.

(** The state after reading [w], the text [t] remaining. *)
Definition after (st : mstate) (w t : str) : mstate :=
  MState (last_of (m_prev st) w) t (rev w ++ m_acc st) (m_grp st).

(** A continuation that fails wherever the next character is in the class [c]. *)
Definition fails_on (c : ascii -> bool) (k : mstate -> option mstate) : Prop :=
  forall st a s, m_rest st = a :: s -> c a = true -> k st = None.

(** [t] does not begin with a character of the class [c]. *)
Definition stops (c : ascii -> bool) (t : str) : Prop :=
  match t with [] => True | a :: _ => c a = false end.

(** A pattern made of characters, sequences and anchors: it has one way
    to match. *)
Fixpoint simple (r : regex) : bool :=
  match r with
  | Eps | Chr _ | WordB | Bol | Eol => true
  | Seq r1 r2 => simple r1 && simple r2
  | _ => false
  end.

(** ** Searches *)

(** The flag [must_advance] at an attempt of a search that began with the
    flag [ma] and has passed [pre]: it holds at the first place only. *)
Definition ma_at (ma : bool) (pre : str) : bool := ma && is_empty pre.

(** The number of matches the loop of [findall] and [split] can still
    find in [s]. *)
Definition bound (ma : bool) (s : str) : nat :=
  2 * length s + (if ma then 1 else 2).

(** The matches from a position on, the fuel being what the text allows. *)
Definition matches_at (r : regex) (ma : bool) (p : option ascii) (s : str)
  : list rmatch :=
  matches_from (bound ma s) r ma p s.

(** The pieces of a split from a position on. *)
Definition split_from (r : regex) (ma : bool) (p : option ascii) (s : str) : list str :=
  let ms := matches_at r ma p s in split_pieces ms (tail_after ms s).

(** The result of a search, the text passed before the match put back. *)
Definition prepend (pre : str) (x : str * mstate) : str * mstate :=
  (pre ++ fst x, snd x).

(** The pattern [r] matches at a place: some text that begins there is
    matched, a non-empty one when [ma] is set. *)
Definition matches_here (r : regex) (ma : bool) (p : option ascii) (t : str) : Prop :=
  exists w nxt, t = w ++ nxt /\ Matches r p w nxt /\ (ma = true -> w <> []).

(** [tiling r ma p s ws]: the text [s] is cut in a gap, a match, a gap, a
    match and so on, [ws] being the matches in their order.  The pattern
    matches at no place of a gap, the place where the search begins being
    excused from an empty match when [ma] is set, as it is after an empty
    match; so the matches do not overlap, each is at the leftmost place
    where one could be found, and none is left out. *)
Inductive tiling (r : regex) : bool -> option ascii -> str -> list str -> Prop :=
| tiling_end ma p s :
    (forall pre t, s = pre ++ t ->
                   ~ matches_here r (ma_at ma pre) (last_of p pre) t) ->
    tiling r ma p s []
| tiling_match ma p gap w rest ws :
    (forall pre1 t1, gap = pre1 ++ t1 -> t1 <> [] ->
       ~ matches_here r (ma_at ma pre1) (last_of p pre1) (t1 ++ w ++ rest)) ->
    Matches r (last_of p gap) w rest ->
    (ma_at ma gap = true -> w <> []) ->
    tiling r (is_empty w) (last_of p (gap ++ w)) rest ws ->
    tiling r ma p (gap ++ w ++ rest) (w :: ws).

(** ** Markers and blocks *)

(** [t] begins with an account marker: [Account:], white space if any,
    and four digits. *)
Definition marker (t : str) : Prop :=
  exists ws ds rest,
    t = py "Account:" ++ ws ++ ds ++ rest
    /\ forallb is_space ws = true
    /\ length ds = 4 /\ forallb is_digit ds = true.

(** The blocks after the first, each seen with the text that follows it:
    a block begins with a marker and no marker begins further inside it. *)
Fixpoint good_blocks (bs : list str) : Prop :=
  match bs with
  | [] => True
  | b :: bs' =>
      b <> [] /\ marker (b ++ concat bs')
      /\ (forall pre t, b = pre ++ t -> pre <> [] -> t <> [] ->
                        ~ marker (t ++ concat bs'))
      /\ good_blocks bs'
  end.

(** The digits [account_pattern] captures at a marker: five when there
    are five, four when the fifth character is no digit. *)
Definition account_digits (ds rest : str) : Prop :=
  forallb is_digit ds = true
  /\ (length ds = 5 \/ (length ds = 4 /\ stops is_digit rest)).

(** [block] has a marker whose digits are followed, sooner or later, by a
    line feed. *)
Definition has_account_line (block : str) : Prop :=
  exists pre ws ds rest,
    block = pre ++ py "Account:" ++ ws ++ ds ++ rest
    /\ forallb is_space ws = true /\ length ds = 4 /\ forallb is_digit ds = true
    /\ In newline rest.

(** ** Names *)

(** [m] is the first of the longest strings of [xs]. *)
Definition first_longest (m : str) (xs : list str) : Prop :=
  exists l1 l2, xs = l1 ++ m :: l2
                /\ (forall x, In x l1 -> length x < length m)
                /\ (forall x, In x l2 -> length x <= length m).

(** The test of the ignore list in the first tier of
    [extract_patient_name], as a proposition. *)
Definition no_ignored_token (ignored : list str) (n : str) : Prop :=
  forall w, In w (split_ws n) -> ~ In w ignored.

(** The test of the ignore list in the second tier. *)
Definition no_ignored_upper_token (ignored : list str) (m : str) : Prop :=
  forall w, In w (split_ws m) -> ~ In (upper w) ignored.

(** ** Codes and dates *)

(** The texts [cpt_pattern] matches: five digits, or five digits, a
    hyphen and two letters or digits. *)
Definition cpt_text (w : str) : Prop :=
  exists ds, length ds = 5 /\ forallb is_digit ds = true
             /\ (w = ds
                 \/ exists x y, w = ds ++ ["-"%char; x; y]
                                /\ is_alnum x = true /\ is_alnum y = true).

(** The text after the five digits of an account number leaves them
    standing as a word: it is empty or begins with a character that is
    no letter, no digit and no underscore. *)
Definition ends_word (rest : str) : Prop :=
  match rest with [] => True | a :: _ => is_word a = false end.

(** The character after the five digits is no hyphen. *)
Definition no_hyphen (rest : str) : Prop :=
  match rest with [] => True | a :: _ => a <> "-"%char end.

(** The first date of a text: the match of [date_pattern.search]. *)
Definition first_date (t : str) : option str :=
  option_map group0 (re_search date_pattern t).

(** The texts [date_pattern] matches: two digits, a slash, two digits, a
    slash and four digits. *)
Definition date_text (w : str) : Prop :=
  exists m d y,
    w = m ++ "/"%char :: d ++ "/"%char :: y
    /\ length m = 2 /\ length d = 2 /\ length y = 4
    /\ forallb is_digit (m ++ d ++ y) = true.


(** ** The text of the pages *)

(** The body of [for page in pdf.pages:].  [page.extract_text()] gives
    the text of the page or [None]; [if txt:] lets neither [None] nor the
    empty text through, and a text that passes is appended to [full_text]
    with a line feed after it. *)
Definition add_page (full_text : str) (txt : option str) : str :=
  match txt with
  | Some t => if is_empty t then full_text else full_text ++ t ++ [newline]
  | None => full_text
  end.

(** [full_text] after the loop over the pages. *)
Definition read_pages (pages : list (option str)) : str :=
  fold_left add_page pages [].

(** A page that has no text, or white space only. *)
Definition blank_page (txt : option str) : Prop :=
  match txt with Some t => forallb is_space t = true | None => True end.

(** ** More vocabulary *)

(** [s] neither begins nor ends with white space. *)
Definition trimmed (s : str) : Prop :=
  stops is_space s /\ stops is_space (rev s).

(** The characters a patient name is made of: letters, the space, the
    comma, the period, the apostrophe and the hyphen. *)
Definition name_char (a : ascii) : bool :=
  is_alpha a || one_of (py " ,.'-") a.

(** Every character class of the pattern [r] lies within [P]. *)
Fixpoint classes_in (P : ascii -> Prop) (r : regex) : Prop :=
  match r with
  | Chr c => forall a, c a = true -> P a
  | Seq r1 r2 | Alt r1 r2 => classes_in P r1 /\ classes_in P r2
  | Star _ r1 | Group r1 => classes_in P r1
  | Eps | Look _ | WordB | Bol | Eol => True
  end.

(** Two characters that are the same letter in either case, or the same
    character. *)
Definition same_letter (a b : ascii) : Prop :=
  is_space a = is_space b /\ to_upper a = to_upper b.

(** [w] stands in [block] as a whole word: the character before it and
    the character after it, where there is one, are no word characters. *)
Definition whole_word_in (block w : str) : Prop :=
  exists pre post,
    block = pre ++ w ++ post
    /\ word_opt (last_of None pre) = false
    /\ word_opt (hd_error post) = false.

(** The pattern ends with [\b]. *)
Fixpoint ends_in_boundary (r : regex) : bool :=
  match r with
  | WordB => true
  | Seq _ r2 => ends_in_boundary r2
  | _ => false
  end.

(** [block] holds no letter, no digit and no underscore. *)
Definition wordless (block : str) : bool :=
  forallb (fun a => negb (is_word a)) block.

(** The text after five digits goes on with a modifier: a hyphen, two
    letters or digits, and then the end of the text or a character that
    is no word character. *)
Definition modifier_follows (rest : str) : Prop :=
  exists x y rest',
    rest = "-"%char :: x :: y :: rest'
    /\ is_alnum x = true /\ is_alnum y = true /\ ends_word rest'.

(** Three characters above ASCII: the no-break space U+00A0, the letter
    U+00E9 and the fraction U+00BD. *)
Definition nbsp : ascii := ascii_of_nat 160.
Definition e_acute : ascii := ascii_of_nat 233.
Definition one_half : ascii := ascii_of_nat 189.
(** ** Strings: equality and order *)

Lemma str_eqb_refl (s : str) : str_eqb s s = true.
Proof.
  induction s as [|a s IH]; simpl; [reflexivity|].
  now rewrite Ascii.eqb_refl.
Qed.

Lemma str_eqb_eq (s t : str) : str_eqb s t = true <-> s = t.
Proof.
  split.
  - revert t; induction s as [|a s IH]; intros [|b t] H; simpl in H;
      try discriminate; [reflexivity|].
    apply andb_true_iff in H as [Hab Hst].
    apply Ascii.eqb_eq in Hab. apply IH in Hst. now subst.
  - intros ->. apply str_eqb_refl.
Qed.

Lemma str_eqb_neq (s t : str) : str_eqb s t = false <-> s <> t.
Proof.
  rewrite <- str_eqb_eq. destruct (str_eqb s t); split; congruence.
Qed.

Lemma str_in_In (x : str) (xs : list str) : str_in x xs = true <-> In x xs.
Proof.
  unfold str_in. rewrite existsb_exists. split.
  - intros [y [Hy Heq]]. apply str_eqb_eq in Heq. now subst.
  - intros H. exists x. split; [assumption | apply str_eqb_refl].
Qed.

Lemma str_in_not_In (x : str) (xs : list str) : str_in x xs = false <-> ~ In x xs.
Proof.
  rewrite <- str_in_In. destruct (str_in x xs); split; congruence.
Qed.

(** ** Character classes *)

Lemma code_inj (a b : ascii) : code a = code b -> a = b.
Proof.
  unfold code. intros H.
  rewrite <- (ascii_nat_embedding a), <- (ascii_nat_embedding b). now rewrite H.
Qed.

Lemma in_range_iff (lo hi a : ascii) :
  in_range lo hi a = true <-> code lo <= code a <= code hi.
Proof.
  unfold in_range. rewrite andb_true_iff, !Nat.leb_le. tauto.
Qed.

Lemma is_digit_iff (a : ascii) : is_digit a = true <-> 48 <= code a <= 57.
Proof. unfold is_digit. now rewrite in_range_iff. Qed.

Lemma is_upper_iff (a : ascii) : is_upper a = true <-> 65 <= code a <= 90.
Proof. unfold is_upper. now rewrite in_range_iff. Qed.

Lemma is_lower_iff (a : ascii) : is_lower a = true <-> 97 <= code a <= 122.
Proof. unfold is_lower. now rewrite in_range_iff. Qed.

Lemma is_space_iff (a : ascii) :
  is_space a = true <->
  9 <= code a <= 13 \/ 28 <= code a <= 32 \/ code a = 133 \/ code a = 160.
Proof.
  unfold is_space.
  rewrite !orb_true_iff, !andb_true_iff, !Nat.leb_le, !Nat.eqb_eq. tauto.
Qed.

Lemma eqb_code (a b : ascii) : Ascii.eqb a b = true <-> code a = code b.
Proof.
  rewrite Ascii.eqb_eq. split; [now intros -> | apply code_inj].
Qed.

Lemma latin1_alnum_code (a : ascii) : is_latin1_alnum a = true -> 170 <= code a.
Proof.
  unfold is_latin1_alnum. cbn [existsb].
  rewrite !orb_true_iff, !andb_true_iff, !Nat.leb_le, !Nat.eqb_eq. lia.
Qed.

Lemma is_word_iff (a : ascii) :
  is_word a = true <->
  65 <= code a <= 90 \/ 97 <= code a <= 122 \/ 48 <= code a <= 57 \/ code a = 95
  \/ (170 <= code a /\ is_latin1_alnum a = true).
Proof.
  unfold is_word, is_alpha.
  rewrite !orb_true_iff, is_upper_iff, is_lower_iff, is_digit_iff, eqb_code.
  change (code "_") with 95. assert (H := latin1_alnum_code a). tauto.
Qed.

Lemma not_true_false (b : bool) : b <> true -> b = false.
Proof. now destruct b. Qed.

Lemma space_not_digit (a : ascii) : is_space a = true -> is_digit a = false.
Proof.
  intros H. apply not_true_false. rewrite is_digit_iff.
  apply is_space_iff in H. lia.
Qed.

Lemma space_not_word (a : ascii) : is_space a = true -> is_word a = false.
Proof.
  intros H. apply not_true_false. rewrite is_word_iff.
  apply is_space_iff in H. lia.
Qed.

Lemma digit_is_word (a : ascii) : is_digit a = true -> is_word a = true.
Proof. intros H. apply is_word_iff. apply is_digit_iff in H. lia. Qed.

Lemma digit_not_space (a : ascii) : is_digit a = true -> is_space a = false.
Proof.
  intros H. apply not_true_false. rewrite is_space_iff.
  apply is_digit_iff in H. lia.
Qed.

(** ** The block loop *)

Lemma fold_loop_step (blocks : list str) (records : list record) :
  fold_left loop_step blocks records = records ++ flat_map record_of blocks.
Proof.
  revert records; induction blocks as [|b bs IH]; intros records; simpl.
  - now rewrite app_nil_r.
  - rewrite IH. unfold loop_step, record_of.
    destruct (parse_block b); simpl; [now rewrite <- app_assoc | reflexivity].
Qed.

(** The loop appends, block after block, the record of each block that
    has one. *)
Lemma parse_blocks_flat_map (blocks : list str) :
  parse_blocks blocks = flat_map record_of blocks.
Proof. unfold parse_blocks. now rewrite fold_loop_step. Qed.

Lemma parse_blocks_app (bs1 bs2 : list str) :
  parse_blocks (bs1 ++ bs2) = parse_blocks bs1 ++ parse_blocks bs2.
Proof. rewrite !parse_blocks_flat_map. apply flat_map_app. Qed.

(** ** [drop_duplicates] *)

Arguments str_in : simpl never.

Lemma str_in_ext (x : str) (l1 l2 : list str) :
  (In x l1 <-> In x l2) -> str_in x l1 = str_in x l2.
Proof.
  intros H. destruct (str_in x l2) eqn:E.
  - apply str_in_In, H, str_in_In, E.
  - apply str_in_not_In. apply str_in_not_In in E. tauto.
Qed.

Lemma drop_duplicates_seen_snoc (rows : list record) (r : record) :
  forall seen,
    drop_duplicates_seen seen (rows ++ [r]) =
    if str_in (account_number r) (keys rows ++ seen)
    then drop_duplicates_seen seen rows
    else drop_duplicates_seen seen rows ++ [r].
Proof.
  induction rows as [|x rows IH]; intros seen; simpl.
  - destruct (str_in (account_number r) seen); reflexivity.
  - destruct (str_in (account_number x) seen) eqn:Hx.
    + rewrite IH.
      rewrite (str_in_ext (account_number r) (account_number x :: keys rows ++ seen)
                 (keys rows ++ seen)); [reflexivity|].
      apply str_in_In in Hx. simpl. rewrite !in_app_iff. split; [|tauto].
      intros [E|E]; [rewrite <- E; tauto | tauto].
    + rewrite IH.
      rewrite (str_in_ext (account_number r) (keys rows ++ account_number x :: seen)
                 (account_number x :: keys rows ++ seen)).
      * destruct (str_in (account_number r) _); reflexivity.
      * simpl. rewrite !in_app_iff. simpl. tauto.
Qed.

(** Reading the rows in order, a row is kept exactly when its account
    number has not occurred among the rows before it. *)
Lemma drop_duplicates_snoc (rows : list record) (r : record) :
  drop_duplicates (rows ++ [r]) =
  if str_in (account_number r) (keys rows)
  then drop_duplicates rows
  else drop_duplicates rows ++ [r].
Proof.
  unfold drop_duplicates. rewrite drop_duplicates_seen_snoc.
  now rewrite app_nil_r.
Qed.

Lemma drop_duplicates_seen_In (rows : list record) :
  forall seen r, In r (drop_duplicates_seen seen rows) ->
                 In r rows /\ ~ In (account_number r) seen.
Proof.
  induction rows as [|x rows IH]; intros seen r H; simpl in H; [contradiction|].
  destruct (str_in (account_number x) seen) eqn:Hx.
  - apply IH in H as [H1 H2]. split; [now right | assumption].
  - destruct H as [<-|H].
    + split; [now left | now apply str_in_not_In].
    + apply IH in H as [H1 H2]. split; [now right|].
      intros H3. apply H2. now right.
Qed.

Lemma drop_duplicates_seen_NoDup (rows : list record) :
  forall seen, NoDup (keys (drop_duplicates_seen seen rows)).
Proof.
  induction rows as [|x rows IH]; intros seen; simpl; [constructor|].
  destruct (str_in (account_number x) seen) eqn:Hx; [apply IH|].
  simpl. constructor; [|apply IH].
  intros H. apply in_map_iff in H as [r [Hr1 Hr2]].
  apply drop_duplicates_seen_In in Hr2 as [_ Hr2]. apply Hr2. now left.
Qed.

(** The first row with a given account number is kept, whatever follows it. *)
Lemma drop_duplicates_seen_first (l1 : list record) :
  forall seen r l2,
    ~ In (account_number r) (keys l1 ++ seen) ->
    In r (drop_duplicates_seen seen (l1 ++ r :: l2)).
Proof.
  induction l1 as [|x l1 IH]; intros seen r l2 H; simpl.
  - simpl in H. apply str_in_not_In in H. rewrite H. now left.
  - destruct (str_in (account_number x) seen) eqn:Hx.
    + apply IH. intros H1. apply H. simpl. now right.
    + right. apply IH. intros H1. apply H. simpl.
      apply in_app_or in H1 as [H1|[H1|H1]];
        [right; apply in_or_app; now left | now left
        | right; apply in_or_app; now right].
Qed.

(** A kept row is the first of the rows with its account number. *)
Lemma drop_duplicates_seen_is_first (rows : list record) :
  forall seen r, In r (drop_duplicates_seen seen rows) ->
    exists l1 l2, rows = l1 ++ r :: l2 /\ ~ In (account_number r) (keys l1).
Proof.
  induction rows as [|x rows IH]; intros seen r H; simpl in H; [contradiction|].
  destruct (str_in (account_number x) seen) eqn:Hx.
  - destruct (IH _ _ H) as [l1 [l2 [E Hn]]].
    exists (x :: l1), l2. split; [now rewrite E|].
    simpl. intros [E1|E1]; [|contradiction].
    apply drop_duplicates_seen_In in H as [_ H].
    apply str_in_In in Hx. rewrite E1 in Hx. contradiction.
  - destruct H as [<-|H].
    + exists [], rows. split; [reflexivity | intros []].
    + destruct (IH _ _ H) as [l1 [l2 [E Hn]]].
      exists (x :: l1), l2. split; [now rewrite E|].
      simpl. intros [E1|E1]; [|contradiction].
      apply drop_duplicates_seen_In in H as [_ H]. apply H. now left.
Qed.

(** The rows kept are in the order of the rows read. *)
Lemma drop_duplicates_seen_subseq (rows : list record) :
  forall seen, subseq (drop_duplicates_seen seen rows) rows.
Proof.
  induction rows as [|x rows IH]; intros seen; simpl; [constructor|].
  destruct (str_in (account_number x) seen); constructor; apply IH.
Qed.

Lemma first_occurrence_unique (rows l1 l2 l1' l2' : list record) (r r' : record) :
  rows = l1 ++ r :: l2 -> rows = l1' ++ r' :: l2' ->
  account_number r = account_number r' ->
  ~ In (account_number r) (keys l1) -> ~ In (account_number r') (keys l1') ->
  l1 = l1' /\ r = r'.
Proof.
  intros E E'. subst rows. revert l1' E'.
  induction l1 as [|x l1 IH]; intros [|x' l1'] E' Hk H1 H2; simpl in *.
  - injection E' as -> _. now split.
  - injection E' as -> _. exfalso. apply H2. left. now symmetry.
  - injection E' as -> _. exfalso. apply H1. now left.
  - injection E' as -> E'.
    destruct (IH l1' E' Hk) as [-> ->]; [tauto | tauto | now split].
Qed.

(** ** The order on strings and [sorted(set(...))] *)

Lemma str_ltb_irrefl (s : str) : str_ltb s s = false.
Proof.
  induction s as [|a s IH]; simpl; [reflexivity|].
  now rewrite Nat.ltb_irrefl.
Qed.

Lemma str_ltb_trans (s t u : str) :
  str_ltb s t = true -> str_ltb t u = true -> str_ltb s u = true.
Proof.
  revert t u. induction s as [|a s IH]; intros [|b t] [|c u]; simpl;
    try congruence.
  destruct (code a <? code b) eqn:Eab, (code b <? code a) eqn:Eba,
           (code b <? code c) eqn:Ebc, (code c <? code b) eqn:Ecb,
           (code a <? code c) eqn:Eac, (code c <? code a) eqn:Eca;
    try congruence;
    repeat match goal with
           | H : (_ <? _) = true |- _ => apply Nat.ltb_lt in H
           | H : (_ <? _) = false |- _ => apply Nat.ltb_ge in H
           end; try lia.
  apply IH.
Qed.

Lemma str_ltb_total (s t : str) :
  str_ltb s t = false -> str_eqb s t = false -> str_ltb t s = true.
Proof.
  revert t. induction s as [|a s IH]; intros [|b t]; simpl; try congruence.
  destruct (code a <? code b) eqn:Eab; [discriminate|].
  destruct (code b <? code a) eqn:Eba; [reflexivity|].
  apply Nat.ltb_ge in Eab, Eba.
  assert (E : a = b) by (apply code_inj; lia). subst b.
  rewrite Ascii.eqb_refl. simpl. apply IH.
Qed.

Lemma str_lt_neq (s t : str) : str_lt s t -> s <> t.
Proof. unfold str_lt. intros H ->. now rewrite str_ltb_irrefl in H. Qed.

Lemma In_insert_sorted (x y : str) (xs : list str) :
  In y (insert_sorted x xs) <-> y = x \/ In y xs.
Proof.
  induction xs as [|z xs IH]; simpl; [intuition congruence|].
  destruct (str_ltb x z); simpl; [intuition congruence|].
  destruct (str_eqb x z) eqn:E; simpl.
  - apply str_eqb_eq in E. subst z. intuition congruence.
  - rewrite IH. intuition congruence.
Qed.

Lemma insert_sorted_sorted (x : str) (xs : list str) :
  StronglySorted str_lt xs -> StronglySorted str_lt (insert_sorted x xs).
Proof.
  induction xs as [|z xs IH]; intros H; simpl.
  - constructor; constructor.
  - inversion H as [|? ? Hs Hall]; subst.
    destruct (str_ltb x z) eqn:E1.
    + constructor; [assumption|]. constructor; [exact E1|].
      rewrite Forall_forall in *. intros y Hy.
      eapply str_ltb_trans; [exact E1 | now apply Hall].
    + destruct (str_eqb x z) eqn:E2; [assumption|].
      constructor; [now apply IH|].
      rewrite Forall_forall in *. intros y Hy.
      apply In_insert_sorted in Hy as [->|Hy]; [|now apply Hall].
      now apply str_ltb_total.
Qed.

Lemma In_sorted_set (x : str) (xs : list str) : In x (sorted_set xs) <-> In x xs.
Proof.
  induction xs as [|z xs IH]; simpl; [tauto|].
  rewrite In_insert_sorted, IH. intuition congruence.
Qed.

Lemma sorted_set_sorted (xs : list str) : StronglySorted str_lt (sorted_set xs).
Proof.
  induction xs as [|z xs IH]; simpl; [constructor|].
  now apply insert_sorted_sorted.
Qed.

Lemma sorted_NoDup (xs : list str) : StronglySorted str_lt xs -> NoDup xs.
Proof.
  induction 1 as [|x xs Hs IH Hall]; constructor; [|assumption].
  intros Hin. rewrite Forall_forall in Hall. apply Hall in Hin.
  now apply str_lt_neq in Hin.
Qed.

(** Two ascending lists without repetition that have the same elements
    are one list: the result of [sorted(set(...))] does not depend on the
    order in which the set gives its elements. *)
Lemma sorted_unique (xs ys : list str) :
  StronglySorted str_lt xs -> StronglySorted str_lt ys ->
  (forall x, In x xs <-> In x ys) -> xs = ys.
Proof.
  intros Hx. revert ys. induction Hx as [|x xs Hs IH Hall]; intros ys Hy Heq.
  - destruct ys as [|y ys]; [reflexivity|]. exfalso. apply (Heq y). now left.
  - destruct Hy as [|y ys Hys Hally].
    + exfalso. apply (Heq x). now left.
    + rewrite Forall_forall in Hall, Hally.
      assert (E : x = y).
      { destruct (proj1 (Heq x) (or_introl eq_refl)) as [E|Hxy]; [now symmetry|].
        destruct (proj2 (Heq y) (or_introl eq_refl)) as [E|Hyx]; [assumption|].
        apply Hally in Hxy. apply Hall in Hyx. unfold str_lt in *.
        assert (F := str_ltb_trans _ _ _ Hxy Hyx).
        now rewrite str_ltb_irrefl in F. }
      subst y. f_equal. apply IH; [assumption|].
      intros z. split; intros Hz.
      * destruct (proj1 (Heq z) (or_intror Hz)) as [E|Hz']; [|assumption].
        subst z. apply Hall in Hz. now apply str_lt_neq in Hz.
      * destruct (proj2 (Heq z) (or_intror Hz)) as [E|Hz']; [|assumption].
        subst z. apply Hally in Hz. now apply str_lt_neq in Hz.
Qed.

(** ** Joining and splitting *)

Lemma split_on_aux_piece (x : str) :
  forall cur rest,
    ~ In ","%char x ->
    split_on_aux (py ", ") 0 cur (x ++ rest) =
    split_on_aux (py ", ") 0 (rev x ++ cur) rest.
Proof.
  induction x as [|a x IH]; intros cur rest Hx; [reflexivity|].
  simpl app.
  assert (Ha : Ascii.eqb "," a = false).
  { apply not_true_false. intros E. apply Ascii.eqb_eq in E. apply Hx. now left. }
  cbn [split_on_aux py String.list_ascii_of_string starts_with]. rewrite Ha. simpl andb.
  cbv iota. rewrite IH by (intros H; apply Hx; now right).
  now rewrite <- app_assoc.
Qed.

(** Splitting the joined codes on the separator gives the codes back,
    when no code holds a comma. *)
Lemma split_on_join (xs : list str) :
  xs <> [] -> Forall (fun x => ~ In ","%char x) xs ->
  split_on (py ", ") (join (py ", ") xs) = xs.
Proof.
  unfold split_on. induction xs as [|x xs IH]; intros Hne Hall; [contradiction|].
  inversion Hall as [|? ? Hx Hxs]; subst.
  destruct xs as [|y xs].
  - simpl. rewrite <- (app_nil_r x) at 1. rewrite split_on_aux_piece by assumption.
    simpl. now rewrite app_nil_r, rev_involutive.
  - cbn [join]. rewrite split_on_aux_piece by assumption.
    rewrite app_nil_r.
    cbn [app py String.list_ascii_of_string split_on_aux starts_with length Nat.sub].
    rewrite !Ascii.eqb_refl. cbn [andb]. rewrite rev_involutive. f_equal.
    apply IH; [discriminate | assumption].
Qed.

Lemma join_nonempty (sep x : str) (xs : list str) :
  x <> [] -> join sep (x :: xs) <> [].
Proof.
  intros Hx. destruct xs; simpl; [assumption|].
  destruct x; [contradiction | discriminate].
Qed.

(** ** The longest candidate *)

Lemma max_by_len_from_spec (xs : list str) :
  forall best,
    (max_by_len_from best xs = best
     /\ forall x, In x xs -> length x <= length best)
    \/ (length best < length (max_by_len_from best xs)
        /\ first_longest (max_by_len_from best xs) xs).
Proof.
  induction xs as [|x xs IH]; intros best; simpl.
  - left. split; [reflexivity | intros x []].
  - destruct (length best <? length x) eqn:E.
    + apply Nat.ltb_lt in E. right.
      destruct (IH x) as [[H1 H2]|[H1 [l1 [l2 [H2 [H3 H4]]]]]].
      * rewrite H1. split; [assumption|].
        exists [], xs. split; [reflexivity|]. split; [intros y []|assumption].
      * split; [lia|]. exists (x :: l1), l2. split; [simpl; now rewrite <- H2|].
        split; [|assumption]. intros y [<-|Hy]; [assumption | now apply H3].
    + apply Nat.ltb_ge in E.
      destruct (IH best) as [[H1 H2]|[H1 [l1 [l2 [H2 [H3 H4]]]]]].
      * left. split; [assumption|]. intros y [<-|Hy]; [assumption | now apply H2].
      * right. split; [assumption|]. exists (x :: l1), l2.
        split; [simpl; now rewrite <- H2|]. split; [|assumption].
        intros y [<-|Hy]; [lia | now apply H3].
Qed.

(** [max(xs, key=len)] is the first of the longest strings of [xs]. *)
Lemma max_by_len_spec (xs : list str) (m : str) :
  max_by_len xs = Some m -> first_longest m xs.
Proof.
  destruct xs as [|x xs]; simpl; [discriminate|]. intros H. injection H as <-.
  destruct (max_by_len_from_spec xs x) as [[H1 H2]|[H1 [l1 [l2 [H2 [H3 H4]]]]]].
  - rewrite H1. exists [], xs. split; [reflexivity|]. split; [intros y []|assumption].
  - exists (x :: l1), l2. split; [simpl; now rewrite <- H2|]. split; [|assumption].
    intros y [<-|Hy]; [assumption | now apply H3].
Qed.

Lemma max_by_len_None (xs : list str) : max_by_len xs = None <-> xs = [].
Proof. destruct xs; simpl; split; congruence. Qed.

Lemma existsb_false_iff {A} (f : A -> bool) (l : list A) :
  existsb f l = false <-> forall x, In x l -> f x = false.
Proof.
  induction l as [|a l IH]; simpl.
  - split; [intros _ x [] | reflexivity].
  - rewrite orb_false_iff, IH. split.
    + intros [H1 H2] x [<-|Hx]; auto.
    + intros H. split; auto.
Qed.

Lemma keep_upper_iff (ignored : list str) (n : str) :
  keep_upper ignored n = true <->
  no_ignored_token ignored n /\ 2 <= length (split_ws n).
Proof.
  unfold keep_upper, no_ignored_token.
  rewrite andb_true_iff, negb_true_iff, existsb_false_iff, Nat.leb_le.
  split; intros [H1 H2]; (split; [|assumption]); intros w Hw.
  - apply str_in_not_In. now apply H1.
  - apply str_in_not_In. now apply H1.
Qed.

Lemma keep_mixed_iff (ignored : list str) (m : str) :
  keep_mixed ignored m = true <-> no_ignored_upper_token ignored m.
Proof.
  unfold keep_mixed, no_ignored_upper_token.
  rewrite negb_true_iff, existsb_false_iff.
  split; intros H w Hw; apply str_in_not_In; now apply H.
Qed.

Lemma clean_upper_of_In (ignored : list str) (block n : str) :
  In n (clean_upper_of ignored block) <->
  exists run, In run (re_findall upper_name_re block)
              /\ no_ignored_token ignored run
              /\ 2 <= length (split_ws run)
              /\ n = strip run.
Proof.
  unfold clean_upper_of. rewrite in_map_iff. split.
  - intros [run [E H]]. apply filter_In in H as [H1 H2].
    apply keep_upper_iff in H2 as [H2 H3]. exists run. auto.
  - intros [run [H1 [H2 [H3 E]]]]. exists run. split; [now symmetry|].
    apply filter_In. split; [assumption|]. now apply keep_upper_iff.
Qed.

Lemma mixed_clean_of_In (ignored : list str) (block m : str) :
  In m (mixed_clean_of ignored block) <->
  In m (re_findall mixed_name_re block) /\ no_ignored_upper_token ignored m.
Proof.
  unfold mixed_clean_of. rewrite filter_In. now rewrite keep_mixed_iff.
Qed.

(** ** The states of the matcher *)

Arguments last_of : simpl never.

Lemma last_of_nil (p : option ascii) : last_of p [] = p.
Proof. reflexivity. Qed.

Lemma last_of_cons (p : option ascii) (a : ascii) (w : str) :
  last_of p (a :: w) = last_of (Some a) w.
Proof. reflexivity. Qed.

Lemma last_of_app (p : option ascii) (w1 w2 : str) :
  last_of p (w1 ++ w2) = last_of (last_of p w1) w2.
Proof. unfold last_of. apply fold_left_app. Qed.

Lemma reach_refl (st : mstate) : reach st [] st.
Proof. now constructor. Qed.

Lemma reach_advance (st : mstate) (a : ascii) (s : str) :
  m_rest st = a :: s -> reach st [a] (advance a st).
Proof. intros H. constructor; simpl; [reflexivity | now rewrite H | reflexivity]. Qed.

Lemma reach_trans (st st1 st2 : mstate) (w1 w2 : str) :
  reach st w1 st1 -> reach st1 w2 st2 -> reach st (w1 ++ w2) st2.
Proof.
  intros [P1 R1 A1] [P2 R2 A2]. constructor.
  - now rewrite last_of_app, <- P1.
  - now rewrite R1, R2, app_assoc.
  - now rewrite A2, A1, rev_app_distr, app_assoc.
Qed.

Lemma reach_close_group (st0 st st' : mstate) (w : str) :
  reach st w st' -> reach st w (close_group st0 st').
Proof. intros [P R A]. now constructor. Qed.

Lemma reach_length (st st' : mstate) (w : str) :
  reach st w st' -> length (m_rest st) = length w + length (m_rest st').
Proof. intros [_ R _]. now rewrite R, length_app. Qed.

Lemma reach_progressed (st st' : mstate) (w : str) :
  reach st w st' -> progressed st st' = true -> w <> [].
Proof.
  intros H Hp. apply reach_length in H. unfold progressed in Hp.
  apply Nat.ltb_lt in Hp. intros ->. simpl in H. lia.
Qed.

(** ** The equations of the matcher *)

Lemma matchk_Star (g : bool) (r : regex) (k : mstate -> option mstate) (st : mstate) :
  matchk (Star g r) k st = star_loop (matchk r) g k (length (m_rest st)) st.
Proof. reflexivity. Qed.

Lemma matchk_Seq (r1 r2 : regex) (k : mstate -> option mstate) (st : mstate) :
  matchk (Seq r1 r2) k st = matchk r1 (matchk r2 k) st.
Proof. reflexivity. Qed.

Lemma matchk_Group (r : regex) (k : mstate -> option mstate) (st : mstate) :
  matchk (Group r) k st = matchk r (fun st' => k (close_group st st')) st.
Proof. reflexivity. Qed.

Lemma matchk_Alt (r1 r2 : regex) (k : mstate -> option mstate) (st : mstate) :
  matchk (Alt r1 r2) k st = or_else (matchk r1 k st) (matchk r2 k st).
Proof. reflexivity. Qed.

Lemma matchk_Bol (k : mstate -> option mstate) (st : mstate) :
  matchk Bol k st = if at_start st then k st else None.
Proof. reflexivity. Qed.

Lemma matchk_Eol (k : mstate -> option mstate) (st : mstate) :
  matchk Eol k st = if at_end st then k st else None.
Proof. reflexivity. Qed.

Lemma matchk_Eps (k : mstate -> option mstate) (st : mstate) :
  matchk Eps k st = k st.
Proof. reflexivity. Qed.

Lemma matchk_WordB (k : mstate -> option mstate) (st : mstate) :
  matchk WordB k st = if at_boundary st then k st else None.
Proof. reflexivity. Qed.

Ltac split3 := split; [|split].

Lemma or_else_None_r {A} (x : option A) : or_else x None = x.
Proof. now destruct x. Qed.

Lemma or_else_Some {A} (x y : option A) (v : A) :
  or_else x y = Some v -> x = Some v \/ y = Some v.
Proof. destruct x; simpl; intros H; [now left | now right]. Qed.

Section Soundness.

Variable body : (mstate -> option mstate) -> mstate -> option mstate.
Variable r : regex.
Hypothesis body_sound :
  forall k st res, body k st = Some res ->
    exists w st', reach st w st' /\ Matches r (m_prev st) w (m_rest st')
                  /\ k st' = Some res.

Lemma star_loop_sound (g : bool) (k : mstate -> option mstate) (n : nat) :
  forall st res, star_loop body g k n st = Some res ->
    exists w st', reach st w st' /\ Matches (Star g r) (m_prev st) w (m_rest st')
                  /\ k st' = Some res.
Proof.
  induction n as [|n IH]; intros st res H; simpl in H.
  - exists [], st. split3; [apply reach_refl | constructor | assumption].
  - assert (Hcases :
      body (fun st' => if progressed st st' then star_loop body g k n st' else None) st
        = Some res \/ k st = Some res).
    { destruct g; apply or_else_Some in H; tauto. }
    destruct Hcases as [Hmore|Hk].
    + apply body_sound in Hmore as [w1 [st1 [R1 [M1 K1]]]].
      destruct (progressed st st1) eqn:Hp; [|discriminate].
      apply IH in K1 as [w2 [st2 [R2 [M2 K2]]]].
      exists (w1 ++ w2), st2. split3.
      * eapply reach_trans; eassumption.
      * apply MStarS.
        -- eapply reach_progressed; eassumption.
        -- now rewrite <- (reach_rest _ _ _ R2).
        -- now rewrite <- (reach_prev _ _ _ R1).
      * assumption.
    + exists [], st. split3; [apply reach_refl | constructor | assumption].
Qed.

End Soundness.

(** Soundness of the matcher: a result comes from a text the pattern
    matches, followed by the continuation. *)
Lemma matchk_sound (r : regex) :
  forall k st res, matchk r k st = Some res ->
    exists w st', reach st w st' /\ Matches r (m_prev st) w (m_rest st')
                  /\ k st' = Some res.
Proof.
  induction r as [|c|r1 IH1 r2 IH2|r1 IH1 r2 IH2|g r1 IH1|r1 IH1|r1 IH1| | |];
    intros k st res H; simpl in H.
  - exists [], st. split3; [apply reach_refl | constructor | assumption].
  - destruct (m_rest st) as [|a s] eqn:E; [discriminate|].
    destruct (c a) eqn:Hc; [|discriminate].
    exists [a], (advance a st). split3;
      [eapply reach_advance; eassumption | now constructor | assumption].
  - apply IH1 in H as [w1 [st1 [R1 [M1 K1]]]].
    apply IH2 in K1 as [w2 [st2 [R2 [M2 K2]]]].
    exists (w1 ++ w2), st2. split3.
    + eapply reach_trans; eassumption.
    + constructor; [now rewrite <- (reach_rest _ _ _ R2) | now rewrite <- (reach_prev _ _ _ R1)].
    + assumption.
  - apply or_else_Some in H as [H|H].
    + apply IH1 in H as [w [st' [R [M K]]]]. exists w, st'. auto using MAltL.
    + apply IH2 in H as [w [st' [R [M K]]]]. exists w, st'. auto using MAltR.
  - eapply star_loop_sound; eassumption.
  - apply IH1 in H as [w [st' [R [M K]]]].
    exists w, (close_group st st'). split3.
    + now apply reach_close_group.
    + now constructor.
    + assumption.
  - destruct (matchk r1 (fun st' => Some st') st) as [st1|] eqn:E; [|discriminate].
    apply IH1 in E as [w [st' [R [M K]]]].
    exists [], st. split3; [apply reach_refl | | assumption].
    rewrite (reach_rest _ _ _ R). now constructor.
  - destruct (at_boundary st) eqn:E; [|discriminate].
    exists [], st. split3; [apply reach_refl | now constructor | assumption].
  - destruct (at_start st) eqn:E; [|discriminate].
    exists [], st. split3; [apply reach_refl | | assumption].
    unfold at_start in E. destruct (m_prev st); [discriminate | constructor].
  - destruct (at_end st) eqn:E; [|discriminate].
    exists [], st. split3; [apply reach_refl | | assumption].
    constructor. unfold at_end in E.
    destruct (m_rest st) as [|a [|b s]]; [now left | | discriminate].
    right. apply Ascii.eqb_eq in E. now subst.
Qed.

(** ** The repetition does not depend on its fuel *)

Lemma star_loop_ext (body : (mstate -> option mstate) -> mstate -> option mstate)
    (g : bool) (k k' : mstate -> option mstate) :
  (forall k1 k2 st, (forall st', k1 st' = k2 st') -> body k1 st = body k2 st) ->
  (forall st, k st = k' st) ->
  forall n st, star_loop body g k n st = star_loop body g k' n st.
Proof.
  intros Hbody Hk. induction n as [|n IH]; intros st; simpl; [apply Hk|].
  rewrite Hk. erewrite Hbody; [reflexivity|].
  intros st'. simpl. destruct (progressed st st'); [apply IH | reflexivity].
Qed.

(** The matcher reads its continuation at states only. *)
Lemma matchk_ext (r : regex) :
  forall k k' st, (forall st', k st' = k' st') -> matchk r k st = matchk r k' st.
Proof.
  induction r as [|c|r1 IH1 r2 IH2|r1 IH1 r2 IH2|g r1 IH1|r1 IH1|r1 IH1| | |];
    intros k k' st H; simpl; try (rewrite H; reflexivity).
  - destruct (m_rest st) as [|a s]; [reflexivity|]. now rewrite H.
  - apply IH1. intros st'. now apply IH2.
  - now rewrite (IH1 k k' st H), (IH2 k k' st H).
  - now apply star_loop_ext.
  - apply IH1. intros st'. apply H.
Qed.

(** Nothing matches before a continuation that always fails. *)
Lemma matchk_fail (r : regex) :
  forall st, matchk r (fun _ => None) st = None.
Proof.
  induction r as [|c|r1 IH1 r2 IH2|r1 IH1 r2 IH2|g r1 IH1|r1 IH1|r1 IH1| | |];
    intros st; simpl; try reflexivity.
  - destruct (m_rest st) as [|a s]; [reflexivity|]. now destruct (c a).
  - rewrite (matchk_ext r1 _ (fun _ => None)); [apply IH1 | apply IH2].
  - now rewrite IH1, IH2.
  - generalize (length (m_rest st)). intros n. revert st.
    induction n as [|n IHn]; intros st; simpl; [reflexivity|].
    rewrite (matchk_ext r1 _ (fun _ => None)).
    + rewrite IH1. now destruct g.
    + intros st'. destruct (progressed st st'); [apply IHn | reflexivity].
  - apply IH1.
  - now destruct (matchk r1 (fun st' => Some st') st).
  - now destruct (at_boundary st).
  - now destruct (at_start st).
  - now destruct (at_end st).
Qed.

Lemma star_loop_fuel (r : regex) (g : bool) (k : mstate -> option mstate) (n : nat) :
  forall st, length (m_rest st) <= n ->
    star_loop (matchk r) g k n st
    = star_loop (matchk r) g k (length (m_rest st)) st.
Proof.
  induction n as [n IH] using lt_wf_ind. intros st Hn.
  destruct n as [|n].
  - now replace (length (m_rest st)) with 0 by lia.
  - destruct (length (m_rest st)) as [|l] eqn:El.
    + simpl. rewrite (matchk_ext r _ (fun _ => None)).
      * rewrite matchk_fail. destruct g; [reflexivity | apply or_else_None_r].
      * intros st'. unfold progressed. rewrite El. reflexivity.
    + simpl. rewrite (matchk_ext r _
        (fun st' => if progressed st st' then star_loop (matchk r) g k l st'
                    else None)); [reflexivity|].
      intros st'. destruct (progressed st st') eqn:Ep; [|reflexivity].
      unfold progressed in Ep. apply Nat.ltb_lt in Ep. rewrite El in Ep.
      rewrite (IH n) by lia. symmetry. destruct (Nat.eq_dec l n) as [->|Hne].
      * apply (IH n); lia.
      * apply (IH l); lia.
Qed.

(** The repetition as Python runs it, without fuel: one more iteration,
    which must consume something, and the repetition again; the greedy
    one before leaving, the lazy one after. *)
Lemma matchk_Star_unfold (g : bool) (r : regex) (k : mstate -> option mstate)
    (st : mstate) :
  matchk (Star g r) k st =
  let more :=
    matchk r (fun st' => if progressed st st' then matchk (Star g r) k st'
                         else None) st in
  if g then or_else more (k st) else or_else (k st) more.
Proof.
  cbn [matchk]. cbv zeta. destruct (length (m_rest st)) as [|l] eqn:El.
  - simpl. rewrite (matchk_ext r _ (fun _ => None)).
    + rewrite matchk_fail. destruct g; [reflexivity | now rewrite or_else_None_r].
    + intros st'. unfold progressed. rewrite El. reflexivity.
  - simpl. erewrite (matchk_ext r); [reflexivity|].
    intros st'. simpl. destruct (progressed st st') eqn:Ep; [|reflexivity].
    unfold progressed in Ep. apply Nat.ltb_lt in Ep. rewrite El in Ep.
    apply star_loop_fuel. lia.
Qed.

(** ** Completeness of the matcher *)

Lemma reach_rest_inv (st st1 : mstate) (w1 w2 nxt : str) :
  m_rest st = (w1 ++ w2) ++ nxt -> reach st w1 st1 -> m_rest st1 = w2 ++ nxt.
Proof.
  intros H [_ R _]. rewrite R, <- app_assoc in H. now apply app_inv_head in H.
Qed.

Lemma reach_nonempty_progressed (st st' : mstate) (w : str) :
  reach st w st' -> w <> [] -> progressed st st' = true.
Proof.
  intros R Hw. apply reach_length in R. unfold progressed. apply Nat.ltb_lt.
  destruct w; [contradiction | simpl in R; lia].
Qed.

Lemma or_else_not_None_l {A} (x y : option A) : x <> None -> or_else x y <> None.
Proof. destruct x; simpl; congruence. Qed.

Lemma or_else_not_None_r {A} (x y : option A) : y <> None -> or_else x y <> None.
Proof. destruct x; simpl; congruence. Qed.

(** Where the pattern matches a text after which the continuation
    accepts, the matcher finds a result: it tries, in its order, every way
    the pattern has to match. *)
Lemma matchk_complete (r : regex) (p : option ascii) (w nxt : str) :
  Matches r p w nxt ->
  forall k st,
    m_prev st = p -> m_rest st = w ++ nxt ->
    (forall st', reach st w st' -> k st' <> None) ->
    matchk r k st <> None.
Proof.
  induction 1 as [p nxt|c a p nxt Hc|r1 r2 p w1 w2 nxt _ IH1 _ IH2
                 |r1 r2 p w nxt _ IH|r1 r2 p w nxt _ IH
                 |g r p nxt|g r p w1 w2 nxt Hw _ IH1 _ IH2
                 |r p w nxt _ IH|r p w nxt _ IH|p nxt Hb|nxt|p nxt He];
    intros k st Hp Hr Hk.
  - apply Hk, reach_refl.
  - simpl. simpl in Hr. rewrite Hr, Hc. apply Hk. now apply reach_advance with (s := nxt).
  - rewrite matchk_Seq. apply IH1; [assumption|now rewrite <- app_assoc in Hr|].
    intros st1 R1. apply IH2.
    + now rewrite (reach_prev _ _ _ R1), Hp.
    + now apply reach_rest_inv with (st := st) (w1 := w1).
    + intros st2 R2. apply Hk. now apply reach_trans with (st1 := st1).
  - rewrite matchk_Alt. apply or_else_not_None_l. now apply IH.
  - rewrite matchk_Alt. apply or_else_not_None_r. now apply IH.
  - rewrite matchk_Star_unfold. cbv zeta.
    assert (H0 : k st <> None) by apply Hk, reach_refl.
    destruct g; [now apply or_else_not_None_r | now apply or_else_not_None_l].
  - rewrite matchk_Star_unfold. cbv zeta.
    assert (Hm : matchk r
                   (fun st' => if progressed st st' then matchk (Star g r) k st'
                               else None) st <> None).
    { apply IH1; [assumption|now rewrite <- app_assoc in Hr|].
      intros st1 R1. rewrite (reach_nonempty_progressed _ _ _ R1 Hw).
      apply IH2.
      - now rewrite (reach_prev _ _ _ R1), Hp.
      - now apply reach_rest_inv with (st := st) (w1 := w1).
      - intros st2 R2. apply Hk. now apply reach_trans with (st1 := st1). }
    destruct g; [now apply or_else_not_None_l | now apply or_else_not_None_r].
  - rewrite matchk_Group. apply IH; [assumption..|].
    intros st' R. apply Hk. now apply reach_close_group.
  - simpl in Hr. cbn [matchk].
    destruct (matchk r (fun st' => Some st') st) eqn:E.
    + apply Hk, reach_refl.
    + exfalso. revert E. apply IH; [assumption..|]. discriminate.
  - simpl in Hr. cbn [matchk]. unfold at_boundary. rewrite Hp, Hr, Hb.
    apply Hk, reach_refl.
  - cbn [matchk]. unfold at_start. rewrite Hp. apply Hk, reach_refl.
  - simpl in Hr. cbn [matchk]. unfold at_end. rewrite Hr.
    destruct He as [->| ->]; [apply Hk, reach_refl|].
    rewrite Ascii.eqb_refl. apply Hk, reach_refl.
Qed.

(** ** Searching *)

Lemma match_here_sound (r : regex) (ma : bool) (p : option ascii) (s : str) (st : mstate) :
  match_here r ma p s = Some st ->
  exists w, s = w ++ m_rest st /\ m_acc st = rev w /\ m_prev st = last_of p w
            /\ Matches r p w (m_rest st) /\ (ma = true -> w <> []).
Proof.
  unfold match_here. intros H.
  apply matchk_sound in H as [w [st' [[P R A] [M K]]]]. simpl in *.
  unfold accept in K.
  destruct (ma && is_empty (m_acc st')) eqn:E; [discriminate|].
  injection K as <-. exists w. rewrite app_nil_r in A.
  repeat split; try assumption.
  intros -> ->. rewrite A in E. discriminate.
Qed.

(** A search that succeeds stops at the first position, from the left,
    where an attempt succeeds. *)
Lemma scan_Some (r : regex) (s : str) :
  forall ma p pre st,
    scan r ma p s = Some (pre, st) ->
    (exists t, s = pre ++ t
               /\ match_here r (ma_at ma pre) (last_of p pre) t = Some st)
    /\ (forall pre1 t1, s = pre1 ++ t1 -> length pre1 < length pre ->
          match_here r (ma_at ma pre1) (last_of p pre1) t1 = None).
Proof.
  induction s as [|a s IH]; intros ma p pre st H; simpl in H.
  - destruct (match_here r ma p []) as [st0|] eqn:E; [|discriminate].
    injection H as <- <-. split.
    + exists []. split; [reflexivity|]. unfold ma_at. simpl.
      now rewrite andb_true_r.
    + intros pre1 t1 _ Hl. simpl in Hl. lia.
  - destruct (match_here r ma p (a :: s)) as [st0|] eqn:E.
    + injection H as <- <-. split.
      * exists (a :: s). split; [reflexivity|]. unfold ma_at. simpl.
        now rewrite andb_true_r.
      * intros pre1 t1 _ Hl. simpl in Hl. lia.
    + destruct (scan r false (Some a) s) as [[pre' st']|] eqn:E'; [|discriminate].
      injection H as <- <-.
      destruct (IH _ _ _ _ E') as [[t [Ht Hm]] Hfirst]. split.
      * exists t. split; [now rewrite Ht|]. unfold ma_at. simpl.
        rewrite andb_false_r. rewrite last_of_cons. exact Hm.
      * intros [|b pre1] t1 Hs Hl.
        -- simpl in Hs. subst t1. unfold ma_at. simpl.
           now rewrite andb_true_r.
        -- simpl in Hs. injection Hs as <- Hs. simpl in Hl.
           unfold ma_at. simpl. rewrite andb_false_r, last_of_cons.
           apply (Hfirst pre1 t1 Hs). lia.
Qed.

(** A search that fails has failed at every position. *)
Lemma scan_None (r : regex) (s : str) :
  forall ma p, scan r ma p s = None ->
    forall pre t, s = pre ++ t ->
      match_here r (ma_at ma pre) (last_of p pre) t = None.
Proof.
  induction s as [|a s IH]; intros ma p H pre t Hs; simpl in H.
  - destruct (match_here r ma p []) eqn:E; [discriminate|].
    destruct pre; [|discriminate]. simpl in Hs. subst t.
    unfold ma_at. simpl. now rewrite andb_true_r.
  - destruct (match_here r ma p (a :: s)) eqn:E; [discriminate|].
    destruct (scan r false (Some a) s) as [[pre' st']|] eqn:E'; [discriminate|].
    destruct pre as [|b pre].
    + simpl in Hs. subst t. unfold ma_at. simpl. now rewrite andb_true_r.
    + simpl in Hs. injection Hs as <- Hs.
      unfold ma_at. simpl. rewrite andb_false_r, last_of_cons.
      exact (IH _ _ E' pre t Hs).
Qed.

(** The text around the match a search found. *)
Lemma scan_decompose (r : regex) (s : str) (ma : bool) (p : option ascii)
    (pre : str) (st : mstate) :
  scan r ma p s = Some (pre, st) ->
  s = pre ++ rev (m_acc st) ++ m_rest st
  /\ m_prev st = last_of p (pre ++ rev (m_acc st))
  /\ Matches r (last_of p pre) (rev (m_acc st)) (m_rest st)
  /\ (ma = true -> pre = [] -> m_acc st <> []).
Proof.
  intros H. apply scan_Some in H as [[t [Ht Hm]] _].
  apply match_here_sound in Hm as [w [Hw [Ha [Hp [HM Hma]]]]].
  rewrite Ha, rev_involutive. repeat split.
  - now rewrite Ht, Hw.
  - now rewrite last_of_app.
  - assumption.
  - intros -> -> E. apply Hma; [reflexivity|].
    apply (f_equal (@rev ascii)) in E.
    now rewrite rev_involutive in E.
Qed.

Lemma scan_bound (r : regex) (s : str) (ma : bool) (p : option ascii)
    (pre : str) (st : mstate) :
  scan r ma p s = Some (pre, st) ->
  bound (is_empty (m_acc st)) (m_rest st) < bound ma s.
Proof.
  intros H. apply scan_decompose in H as [Hs [_ [_ Hma]]].
  unfold bound. apply (f_equal (@length ascii)) in Hs.
  rewrite !length_app, length_rev in Hs.
  destruct (m_acc st) as [|a acc] eqn:Ea; simpl in *.
  - destruct pre as [|b pre]; simpl in *.
    + destruct ma; [exfalso; now apply Hma | lia].
    + destruct ma; lia.
  - destruct ma; lia.
Qed.

(** With enough fuel the loop does not depend on the fuel. *)
Lemma matches_from_enough (r : regex) (n1 : nat) :
  forall n2 ma p s, bound ma s <= n1 -> bound ma s <= n2 ->
    matches_from n1 r ma p s = matches_from n2 r ma p s.
Proof.
  induction n1 as [|n1 IH]; intros n2 ma p s H1 H2.
  - unfold bound in H1. destruct ma; lia.
  - destruct n2 as [|n2]; [unfold bound in H2; destruct ma; lia|].
    simpl. destruct (scan r ma p s) as [[pre st]|] eqn:E; [|reflexivity].
    simpl. f_equal. apply scan_bound in E. apply IH; lia.
Qed.

Lemma matches_at_eq (r : regex) (ma : bool) (p : option ascii) (s : str) :
  matches_at r ma p s =
  match scan r ma p s with
  | None => []
  | Some x =>
      to_rmatch x ::
        matches_at r (is_empty (m_acc (snd x))) (m_prev (snd x)) (m_rest (snd x))
  end.
Proof.
  unfold matches_at at 1.
  assert (Hb : bound ma s = S (pred (bound ma s))) by (unfold bound; destruct ma; lia).
  rewrite Hb. simpl. destruct (scan r ma p s) as [[pre st]|] eqn:E; [|reflexivity].
  simpl. f_equal. unfold matches_at. apply scan_bound in E.
  apply matches_from_enough; lia.
Qed.

Lemma all_matches_eq (r : regex) (s : str) :
  all_matches r s = matches_at r false None s.
Proof.
  unfold all_matches, matches_at, bound. f_equal.
Qed.

(** Induction on the loop of [findall] and [split]. *)
Lemma matches_at_ind (r : regex) (P : bool -> option ascii -> str -> Prop) :
  (forall ma p s,
      (forall pre st, scan r ma p s = Some (pre, st) ->
                      P (is_empty (m_acc st)) (m_prev st) (m_rest st)) ->
      P ma p s) ->
  forall ma p s, P ma p s.
Proof.
  intros Hstep ma p s.
  remember (bound ma s) as n eqn:Hn.
  revert ma p s Hn. induction n as [n IH] using lt_wf_ind.
  intros ma p s Hn. apply Hstep. intros pre st E.
  apply (IH (bound (is_empty (m_acc st)) (m_rest st)));
    [subst n; eapply scan_bound; eassumption | reflexivity].
Qed.

(** ** The matches of a search and of [findall] *)

Lemma matches_at_Matches (r : regex) :
  forall ma p s m, In m (matches_at r ma p s) ->
    exists pre, Matches r (last_of p pre) (group0 m) (m_rest (m_end m))
                /\ exists post, s = pre ++ group0 m ++ m_rest (m_end m)
                                /\ post = m_rest (m_end m).
Proof.
  apply (matches_at_ind r
           (fun ma p s => forall m, In m (matches_at r ma p s) ->
              exists pre, Matches r (last_of p pre) (group0 m) (m_rest (m_end m))
                          /\ exists post, s = pre ++ group0 m ++ m_rest (m_end m)
                                          /\ post = m_rest (m_end m))).
  intros ma p s IH m Hm. rewrite matches_at_eq in Hm.
  destruct (scan r ma p s) as [[pre st]|] eqn:E; [|contradiction].
  destruct (scan_decompose _ _ _ _ _ _ E) as [Hs [Hp [HM _]]].
  destruct Hm as [<-|Hm].
  - exists pre. simpl. split; [assumption|]. eexists. split; [exact Hs | reflexivity].
  - destruct (IH pre st eq_refl m Hm) as [pre' [HM' [post [Hs' Hpost]]]].
    simpl in Hm. exists (pre ++ rev (m_acc st) ++ pre'). split.
    + rewrite !app_assoc, last_of_app. now rewrite <- Hp.
    + exists post. split; [|assumption].
      rewrite Hs. rewrite Hs' at 1. now rewrite <- !app_assoc.
Qed.

(** Each string of [re.findall(r, s)] is a text of [s] that [r] matches
    where it stands. *)
Lemma re_findall_Matches (r : regex) (s w : str) :
  In w (re_findall r s) ->
  exists pre post, s = pre ++ w ++ post /\ Matches r (last_of None pre) w post.
Proof.
  unfold re_findall. rewrite all_matches_eq, in_map_iff.
  intros [m [<- Hm]]. apply matches_at_Matches in Hm as [pre [HM [post [Hs Hp]]]].
  exists pre, (m_rest (m_end m)). auto.
Qed.

(** [findall] begins with the match of [search]. *)
Lemma re_findall_head (r : regex) (s : str) :
  match re_search r s with
  | Some m => exists ws, re_findall r s = group0 m :: ws
  | None => re_findall r s = []
  end.
Proof.
  unfold re_findall, re_search. rewrite all_matches_eq, matches_at_eq.
  destruct (scan r false None s) as [x|]; simpl; [|reflexivity].
  eexists. reflexivity.
Qed.

(** An attempt succeeds exactly where the pattern matches. *)
Lemma match_here_iff (r : regex) (ma : bool) (p : option ascii) (t : str) :
  match_here r ma p t <> None <-> matches_here r ma p t.
Proof.
  split.
  - intros H. destruct (match_here r ma p t) as [st|] eqn:E; [|contradiction].
    apply match_here_sound in E as [w [Hs [_ [_ [HM Hma]]]]].
    exists w, (m_rest st). auto.
  - intros [w [nxt [-> [HM Hma]]]]. unfold match_here.
    apply (matchk_complete r p w nxt HM); [reflexivity..|].
    intros st' [_ _ A]. simpl in A. unfold accept.
    destruct ma; [|discriminate]. simpl.
    destruct (m_acc st') eqn:E; [|discriminate].
    exfalso. apply Hma; [reflexivity|]. rewrite app_nil_r in A.
    apply (f_equal (@rev ascii)) in A. now rewrite rev_involutive in A.
Qed.

Lemma match_here_None_iff (r : regex) (ma : bool) (p : option ascii) (t : str) :
  match_here r ma p t = None <-> ~ matches_here r ma p t.
Proof.
  rewrite <- match_here_iff. destruct (match_here r ma p t) as [st|]; split.
  - discriminate.
  - intros H. exfalso. apply H. discriminate.
  - intros _ H. now apply H.
  - reflexivity.
Qed.

Lemma is_empty_rev (s : str) : is_empty (rev s) = is_empty s.
Proof.
  destruct s as [|a s]; [reflexivity|]. simpl.
  now destruct (rev s).
Qed.

Lemma matches_at_tiling (r : regex) :
  forall ma p s, tiling r ma p s (map group0 (matches_at r ma p s)).
Proof.
  apply (matches_at_ind r
           (fun ma p s => tiling r ma p s (map group0 (matches_at r ma p s)))).
  intros ma p s IH. rewrite matches_at_eq.
  destruct (scan r ma p s) as [[pre st]|] eqn:E.
  - destruct (scan_Some _ _ _ _ _ _ E) as [[t [Hs Hm]] Hfirst].
    destruct (scan_decompose _ _ _ _ _ _ E) as [Hd [Hp [HM Hma]]].
    specialize (IH pre st eq_refl). cbn [map to_rmatch group0 snd fst].
    rewrite Hd at 1. apply tiling_match.
    + intros pre1 t1 Hg Ht1. apply match_here_None_iff. apply Hfirst.
      * rewrite Hd, Hg, <- app_assoc. reflexivity.
      * rewrite Hg, length_app. destruct t1; [contradiction | simpl; lia].
    + exact HM.
    + intros Hg Hw. unfold ma_at in Hg. apply andb_true_iff in Hg as [-> Hg].
      destruct pre; [|discriminate].
      apply (Hma eq_refl eq_refl). apply (f_equal (@rev ascii)) in Hw.
      now rewrite rev_involutive in Hw.
    + rewrite is_empty_rev, <- Hp. exact IH.
  - simpl. apply tiling_end. intros pre t Hs.
    apply match_here_None_iff. now apply (scan_None _ _ _ _ E).
Qed.

(** [re.findall] returns all the matches of the pattern that do not
    overlap, from the left. *)
Lemma re_findall_tiling (r : regex) (s : str) :
  tiling r false None s (re_findall r s).
Proof.
  unfold re_findall. rewrite all_matches_eq. apply matches_at_tiling.
Qed.

(** ** Running the matcher on a known text *)

Lemma after_nil (st : mstate) : after st [] (m_rest st) = st.
Proof. now destruct st. Qed.

Lemma after_advance (st : mstate) (a : ascii) (w t : str) :
  m_rest st = a :: w ++ t ->
  after (advance a st) w t = after st (a :: w) t.
Proof.
  intros H. unfold after, advance. simpl.
  rewrite last_of_cons. f_equal. now rewrite <- app_assoc.
Qed.

Lemma advance_after (st : mstate) (a : ascii) (t : str) :
  m_rest st = a :: t -> advance a st = after st [a] t.
Proof. intros H. unfold after, advance. simpl. now rewrite H. Qed.

Lemma after_after (st : mstate) (w1 w2 t1 t2 : str) :
  after (after st w1 t1) w2 t2 = after st (w1 ++ w2) t2.
Proof.
  unfold after. simpl. rewrite last_of_app, rev_app_distr, app_assoc. reflexivity.
Qed.

(** A literal reads itself. *)
Lemma matchk_Lit (s : str) :
  forall k st t, m_rest st = s ++ t -> matchk (Lit s) k st = k (after st s t).
Proof.
  induction s as [|a s IH]; intros k st t H; simpl in *.
  - now rewrite <- H, after_nil.
  - rewrite H, Ascii.eqb_refl. rewrite (IH k (advance a st) t).
    + now rewrite after_advance.
    + simpl. now rewrite H.
Qed.

Lemma star_loop_Chr_stop (c : ascii -> bool) (g : bool) (k : mstate -> option mstate)
    (n : nat) (st : mstate) :
  stops c (m_rest st) -> star_loop (matchk (Chr c)) g k n st = k st.
Proof.
  intros H. destruct n as [|n]; [reflexivity|]. simpl.
  destruct (m_rest st) as [|a s]; simpl in H.
  - destruct g; simpl; [reflexivity | apply or_else_None_r].
  - rewrite H. destruct g; simpl; [reflexivity | apply or_else_None_r].
Qed.

Lemma star_Chr_step (c : ascii -> bool) (g : bool) (k : mstate -> option mstate)
    (st : mstate) (a : ascii) (s : str) :
  m_rest st = a :: s -> c a = true ->
  matchk (Star g (Chr c)) k st =
  let more := matchk (Star g (Chr c)) k (advance a st) in
  if g then or_else more (k st) else or_else (k st) more.
Proof.
  intros H Hc. rewrite !matchk_Star. rewrite H.
  cbn [length star_loop matchk]. rewrite H, Hc.
  unfold progressed. cbn [advance m_rest]. rewrite H. cbn [tl length].
  rewrite (proj2 (Nat.ltb_lt _ _)) by lia. reflexivity.
Qed.

(** A run of one class, greedy or lazy, before a continuation that fails
    inside the run: the whole run is read. *)
Lemma star_Chr_exclusive (c : ascii -> bool) (g : bool) (k : mstate -> option mstate)
    (ws : str) :
  fails_on c k ->
  forall st t, m_rest st = ws ++ t -> forallb c ws = true -> stops c t ->
    matchk (Star g (Chr c)) k st = k (after st ws t).
Proof.
  intros Hk. induction ws as [|b ws IH]; intros st t H Hall Hstop.
  - simpl in H. rewrite matchk_Star, star_loop_Chr_stop; [|now rewrite H].
    now rewrite <- H, after_nil.
  - simpl in H, Hall. apply andb_true_iff in Hall as [Hb Hall].
    rewrite (star_Chr_step c g k st b (ws ++ t) H Hb). cbv zeta.
    rewrite (Hk st b (ws ++ t) H Hb).
    rewrite (IH (advance b st) t); [|simpl; now rewrite H|assumption|assumption].
    rewrite after_advance by assumption.
    destruct g; simpl; [apply or_else_None_r | reflexivity].
Qed.

(** A greedy run of one class: when the continuation accepts after the
    whole run, that is the result. *)
Lemma star_Chr_greedy_first (c : ascii -> bool) (k : mstate -> option mstate)
    (ws : str) :
  forall st t x, m_rest st = ws ++ t -> forallb c ws = true -> stops c t ->
    k (after st ws t) = Some x ->
    matchk (Star true (Chr c)) k st = Some x.
Proof.
  induction ws as [|b ws IH]; intros st t x H Hall Hstop Hx.
  - simpl in H. rewrite matchk_Star, star_loop_Chr_stop; [|now rewrite H].
    now rewrite <- H, after_nil in Hx.
  - simpl in H, Hall. apply andb_true_iff in Hall as [Hb Hall].
    rewrite (star_Chr_step c true k st b (ws ++ t) H Hb). cbv zeta.
    rewrite (IH (advance b st) t x); [reflexivity|simpl; now rewrite H|assumption|assumption|].
    now rewrite after_advance.
Qed.

Lemma matchk_Chr (c : ascii -> bool) (k : mstate -> option mstate) (st : mstate)
    (a : ascii) (t : str) :
  m_rest st = a :: t ->
  matchk (Chr c) k st = if c a then k (after st [a] t) else None.
Proof.
  intros H. simpl. rewrite H. destruct (c a); [|reflexivity].
  now rewrite advance_after with (t := t).
Qed.

Lemma matchk_Chr_nil (c : ascii -> bool) (k : mstate -> option mstate) (st : mstate) :
  m_rest st = [] -> matchk (Chr c) k st = None.
Proof. intros H. simpl. now rewrite H. Qed.

(** [c{n}] reads [n] characters of the class. *)
Lemma matchk_Rep_Chr (c : ascii -> bool) (n : nat) :
  forall k st ds t,
    m_rest st = ds ++ t -> length ds = n -> forallb c ds = true ->
    matchk (Rep n (Chr c)) k st = k (after st ds t).
Proof.
  induction n as [|n IH]; intros k st ds t H Hl Hall.
  - destruct ds; [|discriminate]. simpl in *. now rewrite <- H, after_nil.
  - destruct ds as [|d ds]; [discriminate|]. simpl in H, Hl, Hall.
    apply andb_true_iff in Hall as [Hd Hall].
    cbn [Rep]. rewrite matchk_Seq, matchk_Chr with (a := d) (t := ds ++ t) by assumption.
    rewrite Hd. rewrite IH with (ds := ds) (t := t); [|reflexivity|lia|assumption].
    now rewrite after_after.
Qed.

Lemma matchk_Rep_Chr_fail (c : ascii -> bool) (n : nat) (k : mstate -> option mstate)
    (st : mstate) :
  stops c (m_rest st) -> matchk (Rep (S n) (Chr c)) k st = None.
Proof.
  intros H. cbn [Rep]. rewrite matchk_Seq. simpl.
  destruct (m_rest st) as [|a s]; [reflexivity|]. simpl in H. now rewrite H.
Qed.

Lemma fails_on_Rep (c c' : ascii -> bool) (n : nat) (k : mstate -> option mstate) :
  (forall a, c a = true -> c' a = false) ->
  fails_on c (matchk (Rep (S n) (Chr c')) k).
Proof.
  intros Hd st a s H Hc. apply matchk_Rep_Chr_fail. rewrite H. simpl. auto.
Qed.

(** ** What the patterns of the source match *)

Ltac minv H := inversion H; subst; clear H.

Lemma Matches_Eps_inv (p : option ascii) (w nxt : str) :
  Matches Eps p w nxt -> w = [].
Proof. intros H. now minv H. Qed.

Lemma Matches_Chr_inv (c : ascii -> bool) (p : option ascii) (w nxt : str) :
  Matches (Chr c) p w nxt -> exists a, w = [a] /\ c a = true.
Proof. intros H. minv H. eauto. Qed.

Lemma Matches_Seq_inv (r1 r2 : regex) (p : option ascii) (w nxt : str) :
  Matches (Seq r1 r2) p w nxt ->
  exists w1 w2, w = w1 ++ w2 /\ Matches r1 p w1 (w2 ++ nxt)
                /\ Matches r2 (last_of p w1) w2 nxt.
Proof. intros H. minv H. eauto. Qed.

Lemma Matches_Alt_inv (r1 r2 : regex) (p : option ascii) (w nxt : str) :
  Matches (Alt r1 r2) p w nxt -> Matches r1 p w nxt \/ Matches r2 p w nxt.
Proof. intros H. minv H; auto. Qed.

Lemma Matches_Group_inv (r : regex) (p : option ascii) (w nxt : str) :
  Matches (Group r) p w nxt -> Matches r p w nxt.
Proof. intros H. now minv H. Qed.

Lemma Matches_Look_inv (r : regex) (p : option ascii) (w nxt : str) :
  Matches (Look r) p w nxt ->
  w = [] /\ exists w' nxt', nxt = w' ++ nxt' /\ Matches r p w' nxt'.
Proof. intros H. minv H. eauto. Qed.

Lemma Matches_WordB_inv (p : option ascii) (w nxt : str) :
  Matches WordB p w nxt ->
  w = [] /\ xorb (word_opt p) (word_opt (hd_error nxt)) = true.
Proof. intros H. minv H. auto. Qed.

Lemma Matches_Lit (s : str) :
  forall p w nxt, Matches (Lit s) p w nxt -> w = s.
Proof.
  induction s as [|a s IH]; intros p w nxt H; cbn [Lit] in H.
  - now apply Matches_Eps_inv in H.
  - apply Matches_Seq_inv in H as [w1 [w2 [-> [H1 H2]]]].
    apply Matches_Chr_inv in H1 as [b [-> Hb]]. apply IH in H2 as ->.
    apply Ascii.eqb_eq in Hb. now subst.
Qed.

Lemma Matches_Rep_Chr (c : ascii -> bool) (n : nat) :
  forall p w nxt, Matches (Rep n (Chr c)) p w nxt ->
                  length w = n /\ forallb c w = true.
Proof.
  induction n as [|n IH]; intros p w nxt H; cbn [Rep] in H.
  - apply Matches_Eps_inv in H as ->. now split.
  - apply Matches_Seq_inv in H as [w1 [w2 [-> [H1 H2]]]].
    apply Matches_Chr_inv in H1 as [b [-> Hb]]. apply IH in H2 as [Hl Hall].
    simpl. split; [now rewrite Hl|]. apply andb_true_iff. now split.
Qed.

Lemma Matches_Star_Chr (c : ascii -> bool) (g : bool) (p : option ascii) (w nxt : str) :
  Matches (Star g (Chr c)) p w nxt -> forallb c w = true.
Proof.
  intros H. remember (Star g (Chr c)) as r eqn:Hr.
  induction H; try discriminate; [reflexivity|].
  injection Hr as -> ->. rewrite forallb_app.
  apply andb_true_iff. split; [|now apply IHMatches2].
  match goal with H : Matches (Chr _) _ _ _ |- _ =>
    apply Matches_Chr_inv in H as [b [-> Hb]] end.
  simpl. now rewrite andb_true_r.
Qed.

(** ** The account marker *)

Lemma Matches_marker_re (p : option ascii) (w nxt : str) :
  Matches marker_re p w nxt ->
  exists ws ds, w = py "Account:" ++ ws ++ ds
                /\ forallb is_space ws = true
                /\ length ds = 4 /\ forallb is_digit ds = true.
Proof.
  unfold marker_re, space, digit. cbn [Cat]. intros H.
  apply Matches_Seq_inv in H as [w1 [w' [-> [H1 H]]]].
  apply Matches_Seq_inv in H as [w2 [w3 [-> [H2 H3]]]].
  apply Matches_Lit in H1 as ->. apply Matches_Star_Chr in H2.
  apply Matches_Rep_Chr in H3 as [Hl Hd].
  exists w2, w3. auto.
Qed.

Lemma stops_digits_after_space (ds t : str) :
  length ds = 4 -> forallb is_digit ds = true -> stops is_space (ds ++ t).
Proof.
  intros Hl Hd. destruct ds as [|d ds]; [discriminate|]. simpl in *.
  apply andb_true_iff in Hd as [Hd _]. now apply digit_not_space.
Qed.

(** On a text that begins with a marker, the marker pattern reads the
    marker and nothing else does. *)
Lemma matchk_marker_re (k : mstate -> option mstate) (st : mstate) (ws ds rest : str) :
  m_rest st = py "Account:" ++ ws ++ ds ++ rest ->
  forallb is_space ws = true -> length ds = 4 -> forallb is_digit ds = true ->
  matchk marker_re k st = k (after st (py "Account:" ++ ws ++ ds) rest).
Proof.
  intros H Hws Hl Hd. unfold marker_re, space, digit. cbn [Cat].
  rewrite matchk_Seq. rewrite matchk_Lit with (t := ws ++ ds ++ rest) by assumption.
  rewrite matchk_Seq.
  rewrite star_Chr_exclusive with (ws := ws) (t := ds ++ rest);
    [|apply fails_on_Rep, space_not_digit|reflexivity|assumption
     |now apply stops_digits_after_space].
  rewrite matchk_Rep_Chr with (ds := ds) (t := rest);
    [|reflexivity|assumption|assumption].
  now rewrite !after_after.
Qed.

Lemma marker_app (t u : str) : marker t -> marker (t ++ u).
Proof.
  intros [ws [ds [rest [-> H]]]]. exists ws, ds, (rest ++ u).
  split; [now rewrite <- !app_assoc | assumption].
Qed.

(** The look-ahead of the split succeeds exactly where a marker begins,
    and reads nothing. *)
Lemma boundary_here_marker (p : option ascii) (t : str) :
  marker t -> match_here boundary_pattern false p t = Some (MState p t [] None).
Proof.
  intros [ws [ds [rest [-> [Hws [Hl Hd]]]]]].
  unfold match_here, boundary_pattern. cbn [matchk].
  rewrite matchk_marker_re with (ws := ws) (ds := ds) (rest := rest);
    [reflexivity|reflexivity|assumption..].
Qed.

Lemma boundary_here_Some (ma : bool) (p : option ascii) (t : str) (st : mstate) :
  match_here boundary_pattern ma p t = Some st ->
  ma = false /\ st = MState p t [] None /\ marker t.
Proof.
  unfold match_here, boundary_pattern. cbn [matchk]. intros H.
  destruct (matchk marker_re (fun st' => Some st') (MState p t [] None))
    as [st1|] eqn:E; [|discriminate].
  unfold accept in H. simpl in H. rewrite andb_true_r in H.
  destruct ma; [discriminate|]. injection H as <-.
  split; [reflexivity|]. split; [reflexivity|].
  apply matchk_sound in E as [w [st' [[_ R _] [M _]]]]. simpl in R, M.
  apply Matches_marker_re in M as [ws [ds [-> HH]]].
  exists ws, ds, (m_rest st'). split; [now rewrite R, <- !app_assoc | assumption].
Qed.

Lemma boundary_here_None (ma : bool) (p : option ascii) (t : str) :
  ~ marker t -> match_here boundary_pattern ma p t = None.
Proof.
  intros H. destruct (match_here boundary_pattern ma p t) eqn:E; [|reflexivity].
  apply boundary_here_Some in E as [_ [_ E]]. contradiction.
Qed.

(** ** [re.split] *)

Lemma tail_after_cons (x : rmatch) (ms : list rmatch) (s : str) :
  tail_after (x :: ms) s = tail_after ms (m_rest (m_end x)).
Proof.
  unfold tail_after. simpl. destruct (rev ms) as [|y l] eqn:E; reflexivity.
Qed.

Lemma split_from_eq (r : regex) (ma : bool) (p : option ascii) (s : str) :
  split_from r ma p s =
  match scan r ma p s with
  | None => [s]
  | Some x =>
      fst x :: split_from r (is_empty (m_acc (snd x))) (m_prev (snd x)) (m_rest (snd x))
  end.
Proof.
  unfold split_from at 1. cbv zeta. rewrite matches_at_eq.
  destruct (scan r ma p s) as [x|]; [|reflexivity].
  rewrite tail_after_cons. reflexivity.
Qed.

Lemma re_split_eq (r : regex) (s : str) : re_split r s = split_from r false None s.
Proof. unfold re_split, split_from. now rewrite all_matches_eq. Qed.

(** ** The segmentation *)

Lemma marker_nonempty (t : str) : marker t -> t <> [].
Proof. intros [ws [ds [rest [-> _]]]]. discriminate. Qed.

Lemma marker_head (t : str) : marker t -> exists t', t = "A"%char :: t'.
Proof. intros [ws [ds [rest [-> _]]]]. eexists. reflexivity. Qed.

Lemma ma_at_false_r (ma : bool) (pre : str) : pre <> [] -> ma_at ma pre = false.
Proof. intros H. unfold ma_at. destruct pre; [contradiction|]. apply andb_false_r. Qed.

Lemma boundary_None_not_marker (p : option ascii) (t : str) :
  match_here boundary_pattern false p t = None -> ~ marker t.
Proof.
  intros H Hm. now rewrite (boundary_here_marker p t Hm) in H.
Qed.

Lemma split_boundary_inv (ma : bool) (p : option ascii) (s : str) :
  exists b0 bs,
    split_from boundary_pattern ma p s = b0 :: bs
    /\ b0 ++ concat bs = s
    /\ (forall pre t, b0 = pre ++ t -> t <> [] -> ma_at ma pre = false ->
                      ~ marker (t ++ concat bs))
    /\ (ma = true -> s <> [] -> b0 <> [])
    /\ good_blocks bs.
Proof.
  revert ma p s. apply matches_at_ind with (r := boundary_pattern). intros ma p s IH.
  rewrite split_from_eq.
  destruct (scan boundary_pattern ma p s) as [[pre st]|] eqn:E.
  - destruct (scan_Some _ _ _ _ _ _ E) as [[t [Hs Hm]] Hfirst].
    apply boundary_here_Some in Hm as [Hma [Hst Hmark]].
    destruct (IH _ _ eq_refl) as [b1 [bs' [Hsplit [Hcat [Hin [Hne Hgood]]]]]].
    rewrite Hst in Hsplit, Hcat, Hne, Hin. simpl in Hsplit, Hcat, Hne, Hin.
    exists pre, (b1 :: bs'). simpl. rewrite Hst. simpl. rewrite Hsplit.
    split; [reflexivity|]. split; [now rewrite Hcat|]. split; [|split].
    + intros pre1 t1 Hp Ht1 Hma1. rewrite Hcat.
      apply (boundary_None_not_marker (last_of p pre1)).
      rewrite <- Hma1. apply Hfirst.
      * now rewrite Hs, Hp, <- app_assoc.
      * rewrite Hp, length_app. destruct t1; [contradiction|simpl; lia].
    + intros -> _ ->. unfold ma_at in Hma. discriminate.
    + split; [|split; [|split]].
      * apply Hne; [reflexivity|]. now apply marker_nonempty.
      * now rewrite Hcat.
      * intros pre1 t1 Hp Hpre1 Ht1. apply (Hin pre1 t1 Hp Ht1).
        now destruct pre1.
      * assumption.
  - exists s, []. simpl. rewrite app_nil_r.
    split; [reflexivity|]. split; [reflexivity|]. split; [|split].
    + intros pre t Hs Ht Hma. rewrite app_nil_r.
      apply (boundary_None_not_marker (last_of p pre)).
      rewrite <- Hma. now apply (scan_None _ _ _ _ E).
    + auto.
    + exact I.
Qed.

Lemma not_marker_nil : ~ marker [].
Proof. intros H. now apply marker_nonempty in H. Qed.

(** No marker begins inside the text of a marker. *)
Lemma no_marker_inside_marker (b l ws ds : str) :
  b <> [] -> forallb is_space ws = true -> forallb is_digit ds = true ->
  b ++ "A"%char :: l = py "Account:" ++ ws ++ ds -> False.
Proof.
  intros Hb Hws Hds H. cbn in H.
  destruct b as [|b1 b]; [contradiction|].
  injection H as _ H.
  do 7 (destruct b as [|? b]; [discriminate | injection H as _ H]).
  assert (Hin : In "A"%char (ws ++ ds)) by (rewrite <- H; apply in_elt).
  apply in_app_or in Hin as [Hin|Hin].
  - rewrite forallb_forall in Hws. apply Hws in Hin. discriminate.
  - rewrite forallb_forall in Hds. apply Hds in Hin. discriminate.
Qed.

(** A block that begins a marker and ends where the next marker begins,
    or with the text, holds the whole of its marker. *)
Lemma marker_fit (b u : str) :
  b <> [] -> marker (b ++ u) -> u = [] \/ marker u -> marker b.
Proof.
  intros Hb [ws [ds [rest [H [Hws [Hl Hds]]]]]] Hu.
  rewrite !app_assoc in H. apply app_eq_app in H as [l [[H1 H2]|[H1 H2]]].
  - exists ws, ds, l. rewrite H1, <- !app_assoc. auto.
  - destruct l as [|c l].
    + exists ws, ds, []. rewrite app_nil_r in *.
      rewrite <- H1, <- !app_assoc. auto.
    + exfalso. destruct Hu as [Hu|Hu]; [subst u; discriminate|].
      apply marker_head in Hu as [u' Hu]. rewrite Hu in H2. injection H2 as <- _.
      rewrite <- app_assoc in H1. symmetry in H1.
      exact (no_marker_inside_marker b l ws ds Hb Hws Hds H1).
Qed.

Lemma good_blocks_markers (bs : list str) : good_blocks bs -> Forall marker bs.
Proof.
  induction bs as [|b bs IH]; intros H; [constructor|].
  destruct H as [Hb [Hm [_ Hg]]]. constructor; [|now apply IH].
  apply (marker_fit b (concat bs) Hb Hm).
  destruct bs as [|b' bs']; [now left|]. right.
  simpl in Hg. tauto.
Qed.

Lemma good_blocks_inside (bs : list str) :
  good_blocks bs ->
  forall b, In b bs -> forall pre t, b = pre ++ t -> pre <> [] -> ~ marker t.
Proof.
  induction bs as [|b0 bs IH]; intros H b Hin pre t Hb Hpre Hm; [contradiction|].
  destruct H as [_ [_ [Hi Hg]]]. destruct Hin as [<-|Hin].
  - apply (Hi pre t Hb Hpre); [now apply marker_nonempty | now apply marker_app].
  - exact (IH Hg b Hin pre t Hb Hpre Hm).
Qed.

(** Every place of the text where a marker begins is the start of a block. *)
Lemma good_blocks_boundary (bs : list str) :
  good_blocks bs ->
  forall pre t, concat bs = pre ++ t -> marker t ->
    exists bs1 bs2, bs = bs1 ++ bs2 /\ concat bs1 = pre /\ concat bs2 = t.
Proof.
  induction bs as [|b bs IH]; intros H pre t Hc Hm.
  - simpl in Hc. symmetry in Hc. apply app_eq_nil in Hc as [_ ->].
    now apply not_marker_nil in Hm.
  - destruct H as [Hb [_ [Hi Hg]]]. simpl in Hc.
    apply app_eq_app in Hc as [l [[H1 H2]|[H1 H2]]].
    + destruct pre as [|a pre].
      * exists [], (b :: bs). simpl. simpl in H1. subst. auto.
      * destruct l as [|c l].
        -- exists [b], bs. simpl. rewrite !app_nil_r in *. subst. auto.
        -- exfalso. apply (Hi (a :: pre) (c :: l) H1); [discriminate..|].
           now rewrite <- H2.
    + destruct (IH Hg l t H2 Hm) as [bs1 [bs2 [E [E1 E2]]]].
      exists (b :: bs1), bs2. simpl. subst. auto.
Qed.

(** The blocks of the segmentation. *)
Lemma blocks_of_inv (full_text : str) :
  exists first rest_blocks,
    blocks_of full_text = first :: rest_blocks
    /\ first ++ concat rest_blocks = full_text
    /\ (forall pre t, first = pre ++ t -> t <> [] -> ~ marker (t ++ concat rest_blocks))
    /\ good_blocks rest_blocks.
Proof.
  unfold blocks_of. rewrite re_split_eq.
  destruct (split_boundary_inv false None full_text)
    as [b0 [bs [H1 [H2 [H3 [_ H4]]]]]].
  exists b0, bs. repeat split; try assumption.
  intros pre t Hp Ht. now apply (H3 pre t Hp Ht).
Qed.

(** ** The account number *)

Lemma close_group_after (st : mstate) (w t : str) :
  close_group st (after st w t) =
  MState (last_of (m_prev st) w) t (rev w ++ m_acc st) (Some w).
Proof.
  unfold close_group, after. simpl. f_equal. f_equal.
  rewrite length_app, Nat.add_sub.
  rewrite firstn_app, firstn_all, Nat.sub_diag. simpl.
  now rewrite app_nil_r, rev_involutive.
Qed.

Lemma fails_on_account_digits (k : mstate -> option mstate) :
  fails_on is_space (matchk (Group (RepUpTo1 4 digit)) k).
Proof.
  intros st a s H Hc. rewrite matchk_Group. unfold RepUpTo1. rewrite matchk_Seq.
  apply matchk_Rep_Chr_fail. rewrite H. simpl. now apply space_not_digit.
Qed.

Lemma stops_digits (ds t : str) :
  ds <> [] -> forallb is_digit ds = true -> stops is_space (ds ++ t).
Proof.
  intros Hl Hd. destruct ds as [|d ds]; [contradiction|]. simpl in *.
  apply andb_true_iff in Hd as [Hd _]. now apply digit_not_space.
Qed.

Lemma account_group (st : mstate) (ds rest : str) :
  m_rest st = ds ++ rest -> account_digits ds rest ->
  matchk (Group (RepUpTo1 4 digit)) (accept false) st =
  Some (MState (last_of (m_prev st) ds) rest (rev ds ++ m_acc st) (Some ds)).
Proof.
  intros H [Hd Hl]. rewrite matchk_Group. unfold RepUpTo1, Opt, digit.
  rewrite matchk_Seq.
  destruct Hl as [Hl|[Hl Hstop]].
  - destruct ds as [|d1 [|d2 [|d3 [|d4 [|d5 [|? ?]]]]]]; try discriminate.
    assert (Hd4 : forallb is_digit [d1; d2; d3; d4] = true /\ is_digit d5 = true).
    { simpl in Hd. simpl. rewrite !andb_true_iff in *. tauto. }
    destruct Hd4 as [Hd4 Hd5].
    rewrite matchk_Rep_Chr with (ds := [d1; d2; d3; d4]) (t := d5 :: rest);
      [|exact H|reflexivity|exact Hd4].
    rewrite matchk_Alt, matchk_Chr with (a := d5) (t := rest) by reflexivity.
    rewrite Hd5, after_after. cbn [app].
    rewrite close_group_after. reflexivity.
  - rewrite matchk_Rep_Chr with (ds := ds) (t := rest); [|exact H|exact Hl|exact Hd].
    rewrite matchk_Alt.
    assert (E : matchk (Chr is_digit)
                  (fun st' => accept false (close_group st st')) (after st ds rest) = None).
    { simpl. destruct rest as [|a rest]; [reflexivity|]. simpl in Hstop. now rewrite Hstop. }
    rewrite E. cbn [or_else matchk]. rewrite close_group_after. reflexivity.
Qed.

(** [account_pattern] at a marker. *)
Lemma account_here (p : option ascii) (ws ds rest : str) :
  forallb is_space ws = true -> ds <> [] -> account_digits ds rest ->
  exists st,
    match_here account_pattern false p (py "Account:" ++ ws ++ ds ++ rest) = Some st
    /\ m_grp st = Some ds /\ m_rest st = rest
    /\ rev (m_acc st) = py "Account:" ++ ws ++ ds.
Proof.
  intros Hws Hne Hds. unfold match_here, account_pattern, space. cbn [Cat].
  rewrite matchk_Seq. rewrite matchk_Lit with (t := ws ++ ds ++ rest); [|reflexivity].
  rewrite matchk_Seq.
  rewrite star_Chr_exclusive with (ws := ws) (t := ds ++ rest);
    [|apply fails_on_account_digits|reflexivity|assumption
     |apply stops_digits; [assumption|apply Hds]].
  rewrite after_after.
  rewrite account_group with (ds := ds) (rest := rest); [|reflexivity|assumption].
  eexists. split; [reflexivity|]. cbn [m_grp m_rest m_acc after]. repeat split.
  rewrite app_nil_r, <- rev_app_distr, rev_involutive. now rewrite <- app_assoc.
Qed.

Lemma scan_first (r : regex) (ma : bool) (p : option ascii) (s : str) (st : mstate) :
  match_here r ma p s = Some st -> scan r ma p s = Some ([], st).
Proof. intros H. destruct s; simpl; now rewrite H. Qed.

(** The account number read in a block that begins with a marker. *)
Lemma account_number_at_marker (ws ds rest : str) :
  forallb is_space ws = true -> ds <> [] -> account_digits ds rest ->
  option_map group_1 (re_search account_pattern (py "Account:" ++ ws ++ ds ++ rest))
  = Some ds.
Proof.
  intros Hws Hne Hds.
  destruct (account_here None ws ds rest Hws Hne Hds) as [st [H [Hg _]]].
  unfold re_search. rewrite (scan_first _ _ _ _ _ H). simpl.
  unfold group_1. simpl. now rewrite Hg.
Qed.

(** ** Texts without [Account:] *)

Lemma starts_with_app (prefix t : str) : starts_with prefix (prefix ++ t) = true.
Proof.
  induction prefix as [|a prefix IH]; simpl; [reflexivity|].
  now rewrite Ascii.eqb_refl.
Qed.

Lemma contains_app (needle pre t : str) : contains needle (pre ++ needle ++ t) = true.
Proof.
  induction pre as [|a pre IH].
  - simpl app. assert (E := starts_with_app needle t).
    destruct (needle ++ t); simpl; now rewrite E.
  - simpl. rewrite IH. apply orb_true_r.
Qed.

Lemma no_account_no_marker (s : str) :
  contains (py "Account:") s = false ->
  forall pre t, s = pre ++ t -> ~ marker t.
Proof.
  intros H pre t -> [ws [ds [rest [-> _]]]].
  now rewrite contains_app in H.
Qed.

Lemma Matches_account_pattern (p : option ascii) (w nxt : str) :
  Matches account_pattern p w nxt -> exists w', w = py "Account:" ++ w'.
Proof.
  unfold account_pattern. cbn [Cat]. intros H.
  apply Matches_Seq_inv in H as [w1 [w2 [-> [H1 _]]]].
  apply Matches_Lit in H1 as ->. now exists w2.
Qed.

Lemma no_account_no_match (s : str) :
  contains (py "Account:") s = false -> re_search account_pattern s = None.
Proof.
  intros H. unfold re_search.
  destruct (scan account_pattern false None s) as [[pre st]|] eqn:E; [|reflexivity].
  apply scan_decompose in E as [Hs [_ [M _]]].
  apply Matches_account_pattern in M as [w' Hw].
  rewrite Hs, Hw, <- app_assoc, contains_app in H. discriminate.
Qed.

Lemma no_marker_one_block (s : str) :
  (forall pre t, s = pre ++ t -> ~ marker t) -> blocks_of s = [s].
Proof.
  intros H. unfold blocks_of. rewrite re_split_eq, split_from_eq.
  destruct (scan boundary_pattern false None s) as [[pre st]|] eqn:E; [|reflexivity].
  destruct (scan_Some _ _ _ _ _ _ E) as [[t [Hs Hm]] _].
  apply boundary_here_Some in Hm as [_ [_ Hm]]. now apply H in Hs.
Qed.

Lemma no_account_table (s : str) :
  contains (py "Account:") s = false -> table_of s = [].
Proof.
  intros H. unfold table_of.
  rewrite no_marker_one_block by now apply no_account_no_marker.
  unfold parse_blocks. simpl. unfold loop_step, parse_block.
  rewrite no_account_no_match by assumption.
  now destruct (is_blank s).
Qed.

(** ** Blank texts *)

Lemma lstrip_nil_iff (s : str) : lstrip s = [] <-> forallb is_space s = true.
Proof.
  induction s as [|a s IH]; simpl; [tauto|].
  destruct (is_space a); simpl; [exact IH | split; discriminate].
Qed.

Lemma lstrip_spaces (s : str) :
  forallb is_space (lstrip s) = true -> forallb is_space s = true.
Proof.
  induction s as [|a s IH]; simpl; [auto|].
  destruct (is_space a) eqn:E; simpl; [exact IH|]. now rewrite E.
Qed.

Lemma forallb_rev {A} (f : A -> bool) (l : list A) :
  forallb f (rev l) = forallb f l.
Proof.
  induction l as [|a l IH]; simpl; [reflexivity|].
  rewrite forallb_app, IH. simpl. rewrite andb_true_r. apply andb_comm.
Qed.

(** A text is blank when it holds white space only. *)
Lemma is_blank_iff (s : str) : is_blank s = true <-> forallb is_space s = true.
Proof.
  unfold is_blank, strip, rstrip. split.
  - intros H. destruct (rev (lstrip (rev (lstrip s)))) eqn:E; [|discriminate].
    apply (f_equal (@rev ascii)) in E. rewrite rev_involutive in E. simpl in E.
    apply lstrip_nil_iff in E. rewrite forallb_rev in E. now apply lstrip_spaces.
  - intros H. apply lstrip_nil_iff in H. rewrite H. reflexivity.
Qed.

Lemma account_match_not_blank (block : str) (m : rmatch) :
  re_search account_pattern block = Some m -> is_blank block = false.
Proof.
  unfold re_search. intros H.
  destruct (scan account_pattern false None block) as [[pre st]|] eqn:E; [|discriminate].
  apply scan_decompose in E as [Hs [_ [M _]]].
  apply Matches_account_pattern in M as [w' Hw].
  apply not_true_false. rewrite is_blank_iff, Hs, Hw, forallb_app.
  intros E. apply andb_true_iff in E as [_ E]. discriminate E.
Qed.

Lemma marker_five_digits (ws ds rest : str) :
  forallb is_space ws = true -> length ds = 5 -> forallb is_digit ds = true ->
  marker (py "Account:" ++ ws ++ ds ++ rest).
Proof.
  intros Hws Hl Hd.
  destruct ds as [|d1 [|d2 [|d3 [|d4 [|d5 [|? ?]]]]]]; try discriminate.
  exists ws, [d1; d2; d3; d4], (d5 :: rest).
  split; [reflexivity|]. split; [assumption|]. split; [reflexivity|].
  simpl in *. rewrite !andb_true_iff in *. tauto.
Qed.

(** Every place of the text where a marker begins is the start of a
    block, the first block left aside. *)
Lemma blocks_of_boundary (full_text pre t : str) :
  full_text = pre ++ t -> marker t ->
  exists bs1 bs2, blocks_of full_text = bs1 ++ bs2 /\ bs1 <> []
                  /\ concat bs1 = pre /\ concat bs2 = t.
Proof.
  intros Hs Hm.
  destruct (blocks_of_inv full_text) as [b0 [bs [Hb [Hc [H0 Hg]]]]].
  rewrite Hs in Hc. apply app_eq_app in Hc as [l [[H1 H2]|[H1 H2]]].
  - destruct l as [|c l].
    + exists [b0], bs. rewrite Hb. simpl. rewrite app_nil_r in *.
      repeat split; [discriminate | now symmetry | now symmetry].
    + exfalso. apply (H0 pre (c :: l) H1); [discriminate|]. now rewrite <- H2.
  - destruct (good_blocks_boundary bs Hg l t H2 Hm) as [bs1 [bs2 [E [E1 E2]]]].
    exists (b0 :: bs1), bs2. rewrite Hb, E. simpl. rewrite E1.
    repeat split; [discriminate | now symmetry | assumption].
Qed.

(** ** CPT codes *)

Lemma ignorecase_alnum (a : ascii) :
  ignorecase (fun a => is_upper a || is_digit a) a = true -> is_alnum a = true.
Proof.
  unfold ignorecase, is_alnum, to_upper, to_lower.
  destruct (is_lower a) eqn:El, (is_upper a) eqn:Eu; simpl;
    try reflexivity; try (rewrite orb_true_r; reflexivity).
  rewrite Eu. simpl. now rewrite !orb_diag.
Qed.

Lemma Matches_cpt_pattern (p : option ascii) (w nxt : str) :
  Matches cpt_pattern p w nxt -> cpt_text w.
Proof.
  unfold cpt_pattern, Opt, chr, digit. cbn [Cat]. intros H.
  apply Matches_Seq_inv in H as [w0 [wa [-> [H0 H]]]].
  apply Matches_WordB_inv in H0 as [-> _].
  apply Matches_Seq_inv in H as [ds [wb [-> [H1 H]]]].
  apply Matches_Rep_Chr in H1 as [Hl Hd].
  apply Matches_Seq_inv in H as [wo [wc [-> [H2 H3]]]].
  apply Matches_WordB_inv in H3 as [-> _].
  exists ds. split; [assumption|]. split; [assumption|].
  simpl. rewrite app_nil_r.
  apply Matches_Alt_inv in H2 as [H2|H2].
  - right. apply Matches_Seq_inv in H2 as [w1 [w2 [-> [H4 H5]]]].
    apply Matches_Chr_inv in H4 as [h [-> Hh]]. apply Ascii.eqb_eq in Hh. subst h.
    cbn [Rep] in H5.
    apply Matches_Seq_inv in H5 as [wx [wd [-> [Hx H5]]]].
    apply Matches_Seq_inv in H5 as [wy [we [-> [Hy H5]]]].
    apply Matches_Eps_inv in H5 as ->.
    apply Matches_Chr_inv in Hx as [x [-> Hx]].
    apply Matches_Chr_inv in Hy as [y [-> Hy]].
    exists x, y. split; [reflexivity|]. split; now apply ignorecase_alnum.
  - left. apply Matches_Eps_inv in H2 as ->. now rewrite app_nil_r.
Qed.

Lemma cpt_text_nonempty (w : str) : cpt_text w -> w <> [].
Proof.
  intros [ds [Hl [_ [->|[x [y [-> _]]]]]]]; destruct ds; discriminate.
Qed.

Lemma digit_not_comma (ds : str) : forallb is_digit ds = true -> ~ In ","%char ds.
Proof.
  intros H Hin. rewrite forallb_forall in H. apply H in Hin. discriminate.
Qed.

Lemma cpt_text_no_comma (w : str) : cpt_text w -> ~ In ","%char w.
Proof.
  intros [ds [Hl [Hd [->|[x [y [-> [Hx Hy]]]]]]]] Hin.
  - now apply digit_not_comma in Hin.
  - apply in_app_or in Hin as [Hin|Hin]; [now apply digit_not_comma in Hin|].
    destruct Hin as [E|[E|[E|[]]]]; try discriminate; subst; discriminate.
Qed.

(** A text of that kind matches the pattern of the specification. *)
Lemma cpt_text_shape (w : str) : cpt_text w -> matches_cpt_shape w = true.
Proof.
  intros [ds [Hl [Hd Hw]]]. unfold matches_cpt_shape, match_here, cpt_shape_re.
  unfold Opt, chr, digit. cbn [Cat]. rewrite matchk_Seq, matchk_Bol.
  cbn [at_start m_prev]. rewrite matchk_Seq.
  destruct Hw as [->|[x [y [-> [Hx Hy]]]]].
  - rewrite matchk_Rep_Chr with (ds := ds) (t := []);
      [|simpl; now rewrite app_nil_r|assumption|assumption].
    rewrite matchk_Seq, matchk_Alt, matchk_Group, matchk_Seq.
    rewrite matchk_Chr_nil by reflexivity. reflexivity.
  - rewrite matchk_Rep_Chr with (ds := ds) (t := ["-"%char; x; y]);
      [|reflexivity|assumption|assumption].
    rewrite matchk_Seq, matchk_Alt, matchk_Group, matchk_Seq.
    rewrite matchk_Chr with (a := "-"%char) (t := [x; y]) by reflexivity.
    rewrite Ascii.eqb_refl.
    rewrite matchk_Rep_Chr with (ds := [x; y]) (t := []);
      [|reflexivity|reflexivity|simpl; now rewrite Hx, Hy].
    reflexivity.
Qed.

(** ** The records of the table *)

Lemma parse_block_Some (block : str) (r : record) :
  parse_block block = Some r ->
  exists m, re_search account_pattern block = Some m
            /\ extract_cpt_codes block <> []
            /\ r = Record_ (group_1 m) (extract_patient_name block)
                     (extract_date_of_service block) (extract_cpt_codes block).
Proof.
  unfold parse_block. destruct (is_blank block); [discriminate|].
  destruct (re_search account_pattern block) as [m|]; [|discriminate].
  destruct (extract_cpt_codes block) eqn:E; simpl; [discriminate|].
  intros H. injection H as <-. exists m. repeat split. discriminate.
Qed.

(** Every record of the table is the record of a block of the text. *)
Lemma table_of_In (full_text : str) (r : record) :
  In r (table_of full_text) ->
  exists block, In block (blocks_of full_text) /\ parse_block block = Some r.
Proof.
  unfold table_of, drop_duplicates. intros H.
  apply drop_duplicates_seen_In in H as [H _].
  rewrite parse_blocks_flat_map in H. apply in_flat_map in H as [b [Hb Hr]].
  exists b. split; [assumption|]. unfold record_of in Hr.
  destruct (parse_block b); [|contradiction].
  destruct Hr as [->|[]]. reflexivity.
Qed.

Lemma re_findall_cpt_text (block c : str) :
  In c (re_findall cpt_pattern block) -> cpt_text c.
Proof.
  intros H. apply re_findall_Matches in H as [pre [post [_ H]]].
  now apply Matches_cpt_pattern in H.
Qed.

Lemma extract_cpt_codes_eq (block : str) :
  extract_cpt_codes block = join (py ", ") (sorted_set (re_findall cpt_pattern block)).
Proof.
  unfold extract_cpt_codes. now destruct (re_findall cpt_pattern block).
Qed.

Lemma sorted_set_nil (xs : list str) : sorted_set xs = [] -> xs = [].
Proof.
  intros H. destruct xs as [|x xs]; [reflexivity|].
  assert (Hin : In x (sorted_set (x :: xs))) by (apply In_sorted_set; now left).
  rewrite H in Hin. contradiction.
Qed.

(** The joined codes are empty exactly when no code is found. *)
Lemma extract_cpt_codes_nil (block : str) :
  extract_cpt_codes block = [] <-> re_findall cpt_pattern block = [].
Proof.
  split.
  - rewrite extract_cpt_codes_eq. intros H.
    destruct (sorted_set (re_findall cpt_pattern block)) as [|c cs] eqn:E.
    + now apply sorted_set_nil.
    + exfalso. revert H. apply join_nonempty. apply cpt_text_nonempty.
      apply re_findall_cpt_text with (block := block). apply In_sorted_set.
      rewrite E. now left.
  - intros H. unfold extract_cpt_codes. now rewrite H.
Qed.

(** ** Searching past a prefix *)

Lemma ma_at_nil (ma : bool) : ma_at ma [] = ma.
Proof. unfold ma_at. simpl. apply andb_true_r. Qed.

Lemma ma_at_cons (ma : bool) (a : ascii) (pre : str) : ma_at ma (a :: pre) = false.
Proof. unfold ma_at. simpl. apply andb_false_r. Qed.

(** A search goes past a prefix in which every attempt fails. *)
Lemma scan_skip (r : regex) (t : str) (pre : str) :
  forall ma p,
    (forall pre1 a pre2, pre = pre1 ++ a :: pre2 ->
       match_here r (ma_at ma pre1) (last_of p pre1) (a :: pre2 ++ t) = None) ->
    scan r ma p (pre ++ t) =
    option_map (prepend pre) (scan r (ma_at ma pre) (last_of p pre) t).
Proof.
  induction pre as [|a pre IH]; intros ma p H.
  - rewrite ma_at_nil, last_of_nil. simpl.
    destruct (scan r ma p t) as [[x st]|]; reflexivity.
  - simpl app. cbn [scan].
    assert (H0 := H [] a pre eq_refl). rewrite ma_at_nil, last_of_nil in H0.
    rewrite H0. rewrite (IH false (Some a)).
    + rewrite ma_at_cons, last_of_cons.
      replace (ma_at false pre) with false by (unfold ma_at; reflexivity).
      destruct (scan r false (last_of (Some a) pre) t) as [[x st]|]; reflexivity.
    + intros pre1 b pre2 E.
      assert (H1 := H (a :: pre1) b pre2). rewrite ma_at_cons, last_of_cons in H1.
      replace (ma_at false pre1) with false by (unfold ma_at; reflexivity).
      apply H1. simpl. now rewrite E.
Qed.

(** ** A CPT code at the account number *)

(** No CPT code begins where no digit stands. *)
Lemma cpt_here_stop (ma : bool) (p : option ascii) (t : str) :
  stops is_digit t -> match_here cpt_pattern ma p t = None.
Proof.
  intros H. unfold match_here, cpt_pattern, digit. cbn [Cat].
  rewrite matchk_Seq, matchk_WordB.
  destruct (at_boundary _); [|reflexivity].
  rewrite matchk_Seq. now apply matchk_Rep_Chr_fail.
Qed.

Lemma scan_cpt_skip (pre t : str) (ma : bool) (p : option ascii) :
  forallb (fun a => negb (is_digit a)) pre = true ->
  scan cpt_pattern ma p (pre ++ t) =
  option_map (prepend pre) (scan cpt_pattern (ma_at ma pre) (last_of p pre) t).
Proof.
  intros H. apply scan_skip. intros pre1 a pre2 E. apply cpt_here_stop.
  simpl. rewrite forallb_forall in H. apply negb_true_iff, H.
  rewrite E. apply in_elt.
Qed.

Lemma last_of_spaces (ws : str) :
  forall p, word_opt p = false -> forallb is_space ws = true ->
            word_opt (last_of p ws) = false.
Proof.
  induction ws as [|a ws IH]; intros p Hp H; [assumption|].
  simpl in H. apply andb_true_iff in H as [Ha H].
  rewrite last_of_cons. apply IH; [|assumption]. simpl. now apply space_not_word.
Qed.

(** Five digits standing as a word begin a CPT code; they are the code
    when no hyphen follows. *)
Lemma cpt_here_digits (ma : bool) (p : option ascii) (ds rest : str) :
  word_opt p = false -> length ds = 5 -> forallb is_digit ds = true ->
  ends_word rest ->
  match_here cpt_pattern ma p (ds ++ rest) <> None
  /\ (no_hyphen rest ->
      match_here cpt_pattern ma p (ds ++ rest)
      = Some (MState (last_of p ds) rest (rev ds) None)).
Proof.
  intros Hp Hl Hd Hrest.
  destruct ds as [|d1 [|d2 [|d3 [|d4 [|d5 [|? ?]]]]]]; try discriminate.
  assert (Hd' := Hd). simpl in Hd'. rewrite !andb_true_iff in Hd'.
  destruct Hd' as [H1 [H2 [H3 [H4 [H5 _]]]]].
  unfold match_here, cpt_pattern, digit, Opt, chr. cbn [Cat].
  rewrite matchk_Seq, matchk_WordB.
  assert (B0 : at_boundary (MState p ([d1; d2; d3; d4; d5] ++ rest) [] None) = true).
  { unfold at_boundary. simpl. rewrite Hp, (digit_is_word _ H1). reflexivity. }
  rewrite B0, matchk_Seq.
  rewrite matchk_Rep_Chr with (ds := [d1; d2; d3; d4; d5]) (t := rest);
    [|reflexivity|reflexivity|assumption].
  rewrite matchk_Seq, matchk_Alt, matchk_Eps, matchk_WordB.
  assert (B1 : at_boundary
                 (after (MState p ([d1; d2; d3; d4; d5] ++ rest) [] None)
                    [d1; d2; d3; d4; d5] rest) = true).
  { unfold at_boundary, after, last_of. simpl.
    rewrite (digit_is_word _ H5). destruct rest as [|a rest]; [reflexivity|].
    simpl in Hrest. simpl. now rewrite Hrest. }
  rewrite B1.
  assert (A : accept ma (after (MState p ([d1; d2; d3; d4; d5] ++ rest) [] None)
                           [d1; d2; d3; d4; d5] rest)
              = Some (MState (last_of p [d1; d2; d3; d4; d5]) rest
                        (rev [d1; d2; d3; d4; d5]) None)).
  { unfold accept. simpl. now rewrite andb_false_r. }
  rewrite A. split.
  - destruct (matchk _ _ _); discriminate.
  - intros Hh. rewrite matchk_Seq.
    assert (E : forall k st, m_rest st = rest ->
                  matchk (Chr (Ascii.eqb "-")) k st = None).
    { intros k st Hst. destruct rest as [|a rest]; [now apply matchk_Chr_nil|].
      rewrite matchk_Chr with (a := a) (t := rest) by assumption.
      simpl in Hh. destruct (Ascii.eqb "-" a) eqn:Ea; [|reflexivity].
      apply Ascii.eqb_eq in Ea. now subst a. }
    rewrite E by reflexivity. reflexivity.
Qed.

Lemma account_prefix_no_digit (ws : str) :
  forallb is_space ws = true ->
  forallb (fun a => negb (is_digit a)) (py "Account:" ++ ws) = true.
Proof.
  intros H. rewrite forallb_app. apply andb_true_iff. split; [reflexivity|].
  apply forallb_forall. intros a Ha. rewrite forallb_forall in H.
  apply negb_true_iff, space_not_digit. now apply H.
Qed.

Lemma account_prefix_last (ws : str) :
  forallb is_space ws = true ->
  word_opt (last_of None (py "Account:" ++ ws)) = false.
Proof.
  intros H. rewrite last_of_app. now apply last_of_spaces.
Qed.

(** In a block that begins with a marker of five digits standing as a
    word, the search for a CPT code stops at these digits. *)
Lemma cpt_search_at_account (ws ds rest : str) :
  forallb is_space ws = true -> length ds = 5 -> forallb is_digit ds = true ->
  ends_word rest ->
  (exists m, re_search cpt_pattern (py "Account:" ++ ws ++ ds ++ rest) = Some m)
  /\ (no_hyphen rest ->
      exists m, re_search cpt_pattern (py "Account:" ++ ws ++ ds ++ rest) = Some m
                /\ group0 m = ds).
Proof.
  intros Hws Hl Hd Hrest. unfold re_search.
  rewrite app_assoc, scan_cpt_skip by now apply account_prefix_no_digit.
  destruct (cpt_here_digits (ma_at false (py "Account:" ++ ws))
              (last_of None (py "Account:" ++ ws)) ds rest
              (account_prefix_last ws Hws) Hl Hd Hrest) as [Hsome Hexact].
  split.
  - destruct (match_here cpt_pattern (ma_at false (py "Account:" ++ ws))
                (last_of None (py "Account:" ++ ws)) (ds ++ rest)) as [st|] eqn:E;
      [|contradiction].
    rewrite (scan_first _ _ _ _ _ E). simpl. eexists. reflexivity.
  - intros Hh. rewrite (scan_first _ _ _ _ _ (Hexact Hh)). simpl.
    eexists. split; [reflexivity|]. simpl. apply rev_involutive.
Qed.

Lemma parse_block_intro (block : str) (m : rmatch) :
  re_search account_pattern block = Some m ->
  extract_cpt_codes block <> [] ->
  parse_block block =
  Some (Record_ (group_1 m) (extract_patient_name block)
          (extract_date_of_service block) (extract_cpt_codes block)).
Proof.
  intros Hm Hc. unfold parse_block.
  rewrite (account_match_not_blank block m Hm), Hm.
  destruct (extract_cpt_codes block); [contradiction | reflexivity].
Qed.

Lemma sorted_set_cpt_text (block : str) :
  Forall cpt_text (sorted_set (re_findall cpt_pattern block)).
Proof.
  apply Forall_forall. intros c Hc.
  apply re_findall_cpt_text with (block := block). now apply In_sorted_set.
Qed.

(** Splitting the result of [extract_cpt_codes] gives the codes back. *)
Lemma extract_cpt_codes_split (block : str) :
  extract_cpt_codes block <> [] ->
  sorted_set (re_findall cpt_pattern block) <> []
  /\ split_on (py ", ") (extract_cpt_codes block)
     = sorted_set (re_findall cpt_pattern block).
Proof.
  intros Hne.
  assert (Hn : sorted_set (re_findall cpt_pattern block) <> []).
  { intros E. apply Hne. now rewrite extract_cpt_codes_eq, E. }
  split; [assumption|]. rewrite extract_cpt_codes_eq.
  apply split_on_join; [assumption|].
  eapply Forall_impl; [|apply sorted_set_cpt_text]. apply cpt_text_no_comma.
Qed.

(** ** Patterns without choice

    A pattern made of characters, sequences and anchors has one way to
    match: where it matches at all, the matcher finds the match. *)

Lemma matchk_simple (r : regex) :
  simple r = true ->
  forall k st w nxt,
    Matches r (m_prev st) w nxt -> m_rest st = w ++ nxt ->
    matchk r k st = k (after st w nxt).
Proof.
  induction r as [|c|r1 IH1 r2 IH2|r1 IH1 r2 IH2|g r1 IH1|r1 IH1|r1 IH1| | |];
    intros Hs k st w nxt HM Hr; try discriminate.
  - apply Matches_Eps_inv in HM as ->. cbn [app] in Hr. rewrite matchk_Eps.
    now rewrite <- Hr, after_nil.
  - apply Matches_Chr_inv in HM as [a [-> Ha]].
    rewrite matchk_Chr with (a := a) (t := nxt) by assumption. now rewrite Ha.
  - simpl in Hs. apply andb_true_iff in Hs as [Hs1 Hs2].
    apply Matches_Seq_inv in HM as [w1 [w2 [-> [H1 H2]]]].
    rewrite matchk_Seq.
    rewrite (IH1 Hs1 _ st w1 (w2 ++ nxt)); [|assumption|now rewrite <- app_assoc in Hr].
    rewrite (IH2 Hs2 k _ w2 nxt); [|assumption|reflexivity].
    now rewrite after_after.
  - apply Matches_WordB_inv in HM as [-> Hb]. cbn [app] in Hr.
    rewrite matchk_WordB. unfold at_boundary. rewrite Hr, Hb.
    now rewrite <- Hr, after_nil.
  - inversion HM; subst. cbn [app] in Hr. rewrite matchk_Bol. unfold at_start.
    match goal with H : None = m_prev st |- _ => rewrite <- H end.
    now rewrite <- Hr, after_nil.
  - inversion HM as [| | | | | | | | | | |p0 nxt0 He]; subst. cbn [app] in Hr.
    rewrite matchk_Eol. unfold at_end.
    assert (E : after st [] nxt = st) by (now rewrite <- Hr, after_nil).
    rewrite E, Hr. destruct He as [->| ->]; [reflexivity|].
    now rewrite Ascii.eqb_refl.
Qed.

(** Where a pattern without choice matches, the attempt succeeds. *)
Lemma match_here_simple (r : regex) (p : option ascii) (w nxt : str) :
  simple r = true -> Matches r p w nxt ->
  match_here r false p (w ++ nxt) = Some (MState (last_of p w) nxt (rev w) None).
Proof.
  intros Hs HM. unfold match_here.
  rewrite (matchk_simple r Hs _ _ w nxt); [|exact HM|reflexivity].
  unfold after, accept. simpl. now rewrite app_nil_r.
Qed.

(** [re.search] with a pattern without choice finds the first place,
    from the left, where the pattern matches. *)
Lemma re_search_simple_first (r : regex) (s : str) (m : rmatch) :
  simple r = true -> re_search r s = Some m ->
  s = before m ++ group0 m ++ m_rest (m_end m)
  /\ Matches r (last_of None (before m)) (group0 m) (m_rest (m_end m))
  /\ forall pre1 w1 post1,
       s = pre1 ++ w1 ++ post1 -> Matches r (last_of None pre1) w1 post1 ->
       length (before m) <= length pre1.
Proof.
  intros Hs. unfold re_search.
  destruct (scan r false None s) as [[pre st]|] eqn:E; [|discriminate].
  intros H. injection H as <-. simpl.
  destruct (scan_decompose _ _ _ _ _ _ E) as [H1 [_ [H2 _]]].
  split; [assumption|]. split; [assumption|].
  intros pre1 w1 post1 Hs1 HM.
  destruct (Nat.le_gt_cases (length pre) (length pre1)) as [|Hlt]; [assumption|].
  destruct (scan_Some _ _ _ _ _ _ E) as [_ Hfirst].
  specialize (Hfirst pre1 (w1 ++ post1) Hs1 Hlt).
  replace (ma_at false pre1) with false in Hfirst by reflexivity.
  rewrite (match_here_simple r _ w1 post1 Hs HM) in Hfirst. discriminate.
Qed.

Lemma re_search_simple_None (r : regex) (s : str) :
  simple r = true -> re_search r s = None ->
  forall pre1 w1 post1,
    s = pre1 ++ w1 ++ post1 -> ~ Matches r (last_of None pre1) w1 post1.
Proof.
  intros Hs. unfold re_search.
  destruct (scan r false None s) as [[pre st]|] eqn:E; [discriminate|].
  intros _ pre1 w1 post1 Hs1 HM.
  assert (H := scan_None _ _ _ _ E pre1 (w1 ++ post1) Hs1).
  replace (ma_at false pre1) with false in H by reflexivity.
  rewrite (match_here_simple r _ w1 post1 Hs HM) in H. discriminate.
Qed.

(** ** The line after the account line *)

Lemma Matches_account_line_re (p : option ascii) (w nxt : str) :
  Matches account_line_re p w nxt ->
  exists ws ds rest,
    w = py "Account:" ++ ws ++ ds ++ rest
    /\ forallb is_space ws = true /\ length ds = 4 /\ forallb is_digit ds = true
    /\ In newline rest.
Proof.
  unfold account_line_re, chr. cbn [Cat]. intros H.
  apply Matches_Seq_inv in H as [wm [wa [-> [Hm H]]]].
  apply Matches_Seq_inv in H as [wt [wb [-> [_ H]]]].
  apply Matches_Seq_inv in H as [wn [wl [-> [Hn _]]]].
  apply Matches_marker_re in Hm as [ws [ds [-> [Hws [Hl Hd]]]]].
  apply Matches_Chr_inv in Hn as [a [-> Ha]]. apply Ascii.eqb_eq in Ha. subst a.
  exists ws, ds, (wt ++ [newline] ++ wl).
  split; [now rewrite <- !app_assoc|]. repeat split; try assumption.
  apply in_or_app. right. now left.
Qed.

(** Without a line feed after a marker the pattern of
    [extract_date_of_service] matches nowhere. *)
Lemma account_line_None (block : str) :
  ~ has_account_line block -> re_search account_line_re block = None.
Proof.
  intros H. unfold re_search.
  destruct (scan account_line_re false None block) as [[pre st]|] eqn:E; [|reflexivity].
  apply scan_decompose in E as [Hs [_ [HM _]]].
  apply Matches_account_line_re in HM as [ws [ds [rest [Hw [Hws [Hl [Hd Hn]]]]]]].
  exfalso. apply H. exists pre, ws, ds, (rest ++ m_rest st).
  split; [now rewrite Hs, Hw, <- !app_assoc|]. repeat split; try assumption.
  apply in_or_app. now left.
Qed.

Lemma fails_on_newline (r : regex) (k : mstate -> option mstate) :
  fails_on is_dot (matchk (Seq (Chr (Ascii.eqb newline)) r) k).
Proof.
  intros st a s H Hc. rewrite matchk_Seq.
  rewrite matchk_Chr with (a := a) (t := s) by assumption.
  unfold is_dot in Hc. apply negb_true_iff in Hc.
  rewrite Ascii.eqb_sym in Hc. now rewrite Hc.
Qed.

(** In a block that begins with a marker, group 1 of the pattern is the
    line after the line on which the marker ends. *)
Lemma account_line_here (ws ds tl line after_line : str) :
  forallb is_space ws = true -> length ds = 4 -> forallb is_digit ds = true ->
  forallb is_dot tl = true -> forallb is_dot line = true -> stops is_dot after_line ->
  option_map group_1
    (re_search account_line_re
       (py "Account:" ++ ws ++ ds ++ tl ++ newline :: line ++ after_line))
  = Some line.
Proof.
  intros Hws Hl Hd Htl Hline Hafter. unfold re_search.
  assert (E : exists st,
    match_here account_line_re false None
      (py "Account:" ++ ws ++ ds ++ tl ++ newline :: line ++ after_line) = Some st
    /\ m_grp st = Some line).
  { unfold match_here, account_line_re, chr, dot. cbn [Cat].
    rewrite matchk_Seq.
    rewrite matchk_marker_re with (ws := ws) (ds := ds)
                                  (rest := tl ++ newline :: line ++ after_line);
      [|reflexivity|assumption..].
    rewrite matchk_Seq.
    rewrite star_Chr_exclusive with (ws := tl) (t := newline :: line ++ after_line);
      [|apply fails_on_newline|reflexivity|assumption|reflexivity].
    rewrite after_after, matchk_Seq.
    rewrite matchk_Chr with (a := newline) (t := line ++ after_line) by reflexivity.
    rewrite Ascii.eqb_refl, after_after, matchk_Group.
    erewrite star_Chr_greedy_first with (ws := line) (t := after_line);
      [|reflexivity|assumption|assumption|].
    2:{ rewrite close_group_after. reflexivity. }
    eexists. split; reflexivity. }
  destruct E as [st [E Hg]]. rewrite (scan_first _ _ _ _ _ E). simpl.
  unfold group_1. simpl. now rewrite Hg.
Qed.

(** ** Dates *)

Lemma simple_date_pattern : simple date_pattern = true.
Proof. reflexivity. Qed.

Lemma Matches_date_pattern (p : option ascii) (w nxt : str) :
  Matches date_pattern p w nxt -> date_text w.
Proof.
  unfold date_pattern, chr, digit. cbn [Cat]. intros H.
  apply Matches_Seq_inv in H as [w0 [wa [-> [H0 H]]]].
  apply Matches_WordB_inv in H0 as [-> _].
  apply Matches_Seq_inv in H as [m [wb [-> [Hm H]]]].
  apply Matches_Seq_inv in H as [s1 [wc [-> [Hs1 H]]]].
  apply Matches_Seq_inv in H as [d [wd [-> [Hd H]]]].
  apply Matches_Seq_inv in H as [s2 [we [-> [Hs2 H]]]].
  apply Matches_Seq_inv in H as [y [wf [-> [Hy H]]]].
  apply Matches_WordB_inv in H as [-> _].
  apply Matches_Rep_Chr in Hm as [Hm1 Hm2].
  apply Matches_Rep_Chr in Hd as [Hd1 Hd2].
  apply Matches_Rep_Chr in Hy as [Hy1 Hy2].
  apply Matches_Chr_inv in Hs1 as [a [-> Ha]]. apply Ascii.eqb_eq in Ha. subst a.
  apply Matches_Chr_inv in Hs2 as [a [-> Ha]]. apply Ascii.eqb_eq in Ha. subst a.
  exists m, d, y. simpl. rewrite app_nil_r.
  repeat split; try assumption.
  rewrite !forallb_app, Hm2, Hd2, Hy2. reflexivity.
Qed.

(** [findall] and [search] agree on the first date. *)
Lemma first_date_findall (block : str) :
  match re_findall date_pattern block with d :: _ => d | [] => [] end
  = match first_date block with Some d => d | None => [] end.
Proof.
  unfold first_date. assert (H := re_findall_head date_pattern block).
  destruct (re_search date_pattern block) as [m|]; simpl.
  - destruct H as [ws ->]. reflexivity.
  - now rewrite H.
Qed.

Lemma space_prefix_unique (ws ws' x x' : str) :
  forallb is_space ws = true -> forallb is_space ws' = true ->
  stops is_space x -> stops is_space x' ->
  x <> [] -> x' <> [] ->
  ws ++ x = ws' ++ x' -> ws = ws' /\ x = x'.
Proof.
  revert ws'. induction ws as [|a ws IH]; intros [|b ws'] H1 H2 Hx Hx' Hn Hn' E;
    simpl in *.
  - now split.
  - subst x. simpl in Hx. apply andb_true_iff in H2 as [H2 _]. congruence.
  - subst x'. simpl in Hx'. apply andb_true_iff in H1 as [H1 _]. congruence.
  - injection E as -> E.
    apply andb_true_iff in H1 as [_ H1]. apply andb_true_iff in H2 as [_ H2].
    destruct (IH ws' H1 H2 Hx Hx' Hn Hn' E) as [-> ->]. now split.
Qed.

(** A block that begins with a marker, has no line feed after the digits
    of this marker and no other marker, has no account line. *)
Lemma no_account_line (ws ds rest : str) :
  forallb is_space ws = true -> length ds = 4 -> forallb is_digit ds = true ->
  ~ In newline rest ->
  (forall pre t, py "Account:" ++ ws ++ ds ++ rest = pre ++ t -> pre <> [] ->
                 ~ marker t) ->
  ~ has_account_line (py "Account:" ++ ws ++ ds ++ rest).
Proof.
  intros Hws Hl Hd Hn Hin [pre [ws' [ds' [rest' [E [Hws' [Hl' [Hd' Hn']]]]]]]].
  destruct pre as [|a pre].
  - cbn [app] in E. apply app_inv_head in E.
    assert (Hds : ds <> []) by (intros ->; discriminate).
    assert (Hds' : ds' <> []) by (intros ->; discriminate).
    destruct (space_prefix_unique ws ws' (ds ++ rest) (ds' ++ rest') Hws Hws')
      as [_ E2]; try assumption.
    + now apply stops_digits.
    + now apply stops_digits.
    + destruct ds; [contradiction | discriminate].
    + destruct ds'; [contradiction | discriminate].
    + assert (E3 : ds = ds' /\ rest = rest').
      { destruct ds as [|d1 [|d2 [|d3 [|d4 [|? ?]]]]]; try discriminate.
        destruct ds' as [|e1 [|e2 [|e3 [|e4 [|? ?]]]]]; try discriminate.
        simpl in E2. injection E2 as -> -> -> -> ->. now split. }
      destruct E3 as [_ ->]. contradiction.
  - apply (Hin (a :: pre) _ E); [discriminate|].
    exists ws', ds', rest'. auto.
Qed.

(** * More about strings, matches and blocks *)

(** ** Characters under a change of case *)

Ltac ascii_cases a :=
  destruct a as [[] [] [] [] [] [] [] []]; vm_compute;
  intros; try reflexivity; try discriminate; auto.

Lemma to_upper_space (a : ascii) : is_space (to_upper a) = is_space a.
Proof. ascii_cases a. Qed.

Lemma to_lower_space (a : ascii) : is_space (to_lower a) = is_space a.
Proof. ascii_cases a. Qed.

Lemma to_upper_idem (a : ascii) : to_upper (to_upper a) = to_upper a.
Proof. ascii_cases a. Qed.

Lemma to_upper_lower (a : ascii) : to_upper (to_lower a) = to_upper a.
Proof. ascii_cases a. Qed.

Lemma upper_class_fixed (a : ascii) :
  upper_name_class a = true -> to_upper a = a.
Proof. ascii_cases a. Qed.

Lemma upper_class_name_char (a : ascii) :
  upper_name_class a = true ->
  name_char (to_upper a) = true /\ name_char (to_lower a) = true.
Proof. ascii_cases a. Qed.

Lemma same_letter_refl (a : ascii) : same_letter a a.
Proof. now split. Qed.

Lemma same_letter_upper (a : ascii) : same_letter a (to_upper a).
Proof. split; [now rewrite to_upper_space | now rewrite to_upper_idem]. Qed.

Lemma same_letter_lower (a : ascii) : same_letter a (to_lower a).
Proof. split; [now rewrite to_lower_space | now rewrite to_upper_lower]. Qed.

(** ** [strip] *)

Lemma lstrip_stops (s : str) : stops is_space (lstrip s).
Proof.
  induction s as [|a s IH]; simpl; [exact I|].
  destruct (is_space a) eqn:E; [exact IH | exact E].
Qed.

Lemma lstrip_fix (s : str) : stops is_space s -> lstrip s = s.
Proof. destruct s as [|a s]; simpl; [reflexivity|]. now intros ->. Qed.

Lemma lstrip_snoc (s : str) (a : ascii) :
  is_space a = false -> lstrip (s ++ [a]) = lstrip s ++ [a].
Proof.
  intros Ha. induction s as [|b s IH]; simpl; [now rewrite Ha|].
  now destruct (is_space b).
Qed.

Lemma rstrip_cons (a : ascii) (s : str) :
  is_space a = false -> rstrip (a :: s) = a :: rstrip s.
Proof.
  intros Ha. unfold rstrip. simpl. rewrite lstrip_snoc by assumption.
  now rewrite rev_app_distr.
Qed.

Lemma rstrip_fix (s : str) : stops is_space (rev s) -> rstrip s = s.
Proof.
  intros H. unfold rstrip. rewrite lstrip_fix by assumption. apply rev_involutive.
Qed.

(** What [strip] returns is trimmed, and a trimmed text is returned as
    it is. *)
Lemma strip_trimmed (s : str) : trimmed (strip s).
Proof.
  unfold trimmed, strip. split.
  - assert (H := lstrip_stops s). destruct (lstrip s) as [|a t]; [exact I|].
    simpl in H. now rewrite rstrip_cons.
  - unfold rstrip. rewrite rev_involutive. apply lstrip_stops.
Qed.

Lemma strip_fix (s : str) : trimmed s -> strip s = s.
Proof.
  intros [H1 H2]. unfold strip. rewrite lstrip_fix by assumption.
  now apply rstrip_fix.
Qed.

(** [strip] takes white space away at both ends and nothing else. *)
Lemma lstrip_decomp (s : str) :
  exists ws, s = ws ++ lstrip s /\ forallb is_space ws = true.
Proof.
  induction s as [|a s [ws [IH1 IH2]]]; [now exists []|]. simpl.
  destruct (is_space a) eqn:E; [|now exists []].
  exists (a :: ws). simpl. rewrite E, IH2. split; [now f_equal | reflexivity].
Qed.

Lemma rstrip_decomp (s : str) :
  exists ws, s = rstrip s ++ ws /\ forallb is_space ws = true.
Proof.
  destruct (lstrip_decomp (rev s)) as [ws [H1 H2]].
  exists (rev ws). split; [|now rewrite forallb_rev].
  unfold rstrip. rewrite <- rev_app_distr, <- H1. now rewrite rev_involutive.
Qed.

Lemma strip_decomp (s : str) :
  exists ws1 ws2, s = ws1 ++ strip s ++ ws2
                  /\ forallb is_space ws1 = true /\ forallb is_space ws2 = true.
Proof.
  destruct (lstrip_decomp s) as [ws1 [H1 H2]].
  destruct (rstrip_decomp (lstrip s)) as [ws2 [H3 H4]].
  exists ws1, ws2. unfold strip. now rewrite <- H3.
Qed.

Lemma In_strip (a : ascii) (s : str) : In a (strip s) -> In a s.
Proof.
  intros H. destruct (strip_decomp s) as [ws1 [ws2 [E _]]]. rewrite E.
  apply in_or_app. right. apply in_or_app. now left.
Qed.

(** ** [split] on white space *)

Lemma split_ws_aux_spaces_r (ws : str) :
  forallb is_space ws = true ->
  forall s cur, split_ws_aux cur (s ++ ws) = split_ws_aux cur s.
Proof.
  intros Hws. induction s as [|a s IH]; intros cur.
  - simpl. revert cur. induction ws as [|b ws IHws]; intros cur; [reflexivity|].
    simpl in Hws. apply andb_true_iff in Hws as [Hb Hws]. simpl. rewrite Hb.
    specialize (IHws Hws []). simpl in IHws. rewrite IHws.
    now destruct cur.
  - simpl. destruct (is_space a); [|apply IH]. rewrite IH. reflexivity.
Qed.

Lemma split_ws_spaces_l (ws s : str) :
  forallb is_space ws = true -> split_ws (ws ++ s) = split_ws s.
Proof.
  unfold split_ws. induction ws as [|b ws IH]; intros H; [reflexivity|].
  simpl in H. apply andb_true_iff in H as [Hb H]. simpl. rewrite Hb. now apply IH.
Qed.

(** The tokens of a text are those of the text stripped. *)
Lemma split_ws_strip (s : str) : split_ws (strip s) = split_ws s.
Proof.
  destruct (strip_decomp s) as [ws1 [ws2 [E [H1 H2]]]].
  rewrite E at 2. rewrite split_ws_spaces_l by assumption.
  unfold split_ws. now rewrite split_ws_aux_spaces_r.
Qed.

(** A token is made of characters of the text. *)
Lemma split_ws_aux_In (s : str) :
  forall cur w a, In w (split_ws_aux cur s) -> In a w -> In a cur \/ In a s.
Proof.
  induction s as [|b s IH]; intros cur w a Hw Ha.
  - simpl in Hw. destruct cur; [contradiction|].
    destruct Hw as [<-|[]]. left. now apply in_rev.
  - simpl in Hw. destruct (is_space b).
    + destruct cur.
      * destruct (IH _ _ _ Hw Ha) as [[]|H]. right. now right.
      * destruct Hw as [<-|Hw]; [left; now apply in_rev|].
        destruct (IH _ _ _ Hw Ha) as [[]|H]. right. now right.
    + destruct (IH _ _ _ Hw Ha) as [[<-|H]|H].
      * right. now left.
      * now left.
      * right. now right.
Qed.

Lemma split_ws_In (s w : str) (a : ascii) :
  In w (split_ws s) -> In a w -> In a s.
Proof.
  intros Hw Ha. destruct (split_ws_aux_In _ _ _ _ Hw Ha) as [[]|H]. exact H.
Qed.

(** A token is not empty and holds no white space. *)
Lemma split_ws_aux_token (s : str) :
  forall cur w, forallb (fun a => negb (is_space a)) cur = true ->
    In w (split_ws_aux cur s) ->
    w <> [] /\ forallb (fun a => negb (is_space a)) w = true.
Proof.
  induction s as [|b s IH]; intros cur w Hc Hw.
  - simpl in Hw. destruct cur as [|c cur]; [contradiction|].
    destruct Hw as [<-|[]]. split; [|now rewrite forallb_rev].
    intros E. apply (f_equal (@rev ascii)) in E. rewrite rev_involutive in E.
    discriminate.
  - simpl in Hw. destruct (is_space b) eqn:Eb.
    + destruct cur as [|c cur]; [now apply (IH [])|].
      destruct Hw as [<-|Hw]; [|now apply (IH [])].
      split; [|now rewrite forallb_rev].
      intros E. apply (f_equal (@rev ascii)) in E. rewrite rev_involutive in E.
      discriminate.
    + apply (IH (b :: cur)); [|assumption]. simpl. now rewrite Eb.
Qed.

(** Texts that agree on where their white space is have their tokens at
    the same places. *)
Lemma Forall2_rev_str (R : ascii -> ascii -> Prop) (s t : str) :
  Forall2 R s t -> Forall2 R (rev s) (rev t).
Proof.
  induction 1 as [|a b s t Hab H IH]; simpl; [constructor|].
  apply Forall2_app; [assumption|]. now constructor.
Qed.

Lemma split_ws_aux_Forall2 (s t : str) :
  Forall2 same_letter s t ->
  forall cur cur', Forall2 same_letter cur cur' ->
    Forall2 (Forall2 same_letter) (split_ws_aux cur s) (split_ws_aux cur' t).
Proof.
  induction 1 as [|a b s t Hab H IH]; intros cur cur' Hc.
  - simpl. destruct Hc; constructor; [|constructor].
    apply Forall2_rev_str. now constructor.
  - simpl. destruct Hab as [Hs Hu]. rewrite <- Hs.
    destruct (is_space a) eqn:Ea.
    + destruct Hc as [|c c' cur cur' Hcc Hc].
      * apply IH. constructor.
      * constructor; [|apply IH; constructor].
        apply Forall2_rev_str. now constructor.
    + apply IH. constructor; [|assumption]. split; [congruence|assumption].
Qed.

Lemma split_ws_Forall2 (s t : str) :
  Forall2 same_letter s t ->
  Forall2 (Forall2 same_letter) (split_ws s) (split_ws t).
Proof. intros H. apply split_ws_aux_Forall2; [assumption|constructor]. Qed.

Lemma same_letter_upper_eq (w w' : str) :
  Forall2 same_letter w w' -> upper w = upper w'.
Proof.
  induction 1 as [|a b w w' [_ Hab] H IH]; simpl; [reflexivity|]. now f_equal.
Qed.

Lemma Forall2_In_r {A B} (R : A -> B -> Prop) (l : list A) (l' : list B) (y : B) :
  Forall2 R l l' -> In y l' -> exists x, In x l /\ R x y.
Proof.
  induction 1 as [|a b l l' Hab H IH]; intros Hy; [contradiction|].
  destruct Hy as [<-|Hy].
  - exists a. split; [now left | assumption].
  - destruct (IH Hy) as [x [Hx Hr]]. exists x. split; [now right | assumption].
Qed.

(** ** [title] *)

Lemma title_aux_same_letter (s : str) :
  forall f, Forall2 same_letter s (title_aux f s).
Proof.
  induction s as [|a s IH]; intros f; simpl; constructor; [|apply IH].
  destruct f; [apply same_letter_lower | apply same_letter_upper].
Qed.

Lemma title_same_letter (s : str) : Forall2 same_letter s (title s).
Proof. apply title_aux_same_letter. Qed.

Lemma title_trimmed (s : str) : trimmed s -> trimmed (title s).
Proof.
  assert (H := title_same_letter s). intros [H1 H2]. split.
  - destruct H as [|a b s t [Hs _] H]; [exact I|]. simpl in *. congruence.
  - apply Forall2_rev_str in H.
    destruct H as [|a b s' t [Hs _] H]; [exact I|]. simpl in *. congruence.
Qed.

Lemma title_nil_iff (s : str) : title s = [] <-> s = [].
Proof. destruct s; simpl; split; intros H; try reflexivity; discriminate. Qed.

Lemma title_aux_case (s : str) :
  forall f, Forall2 (fun a b => b = to_upper a \/ b = to_lower a) s (title_aux f s).
Proof.
  induction s as [|a s IH]; intros f; simpl; constructor; [|apply IH].
  destruct f; [now right | now left].
Qed.

(** ** The characters of a match *)

Lemma Matches_classes (P : ascii -> Prop) (r : regex) (p : option ascii) (w nxt : str) :
  Matches r p w nxt -> classes_in P r -> Forall P w.
Proof.
  induction 1; simpl; intros Hc;
    repeat match goal with
           | H : _ /\ _ |- _ => destruct H
           | |- Forall _ [] => constructor
           | |- Forall _ (_ ++ _) => apply Forall_app; split
           | |- Forall _ [_] => constructor; [|constructor]
           end; auto.
Qed.

Lemma upper_name_re_classes :
  classes_in (fun a => upper_name_class a = true) upper_name_re.
Proof. simpl. tauto. Qed.

Lemma mixed_name_char (a : ascii) :
  is_upper a = true \/ is_lower a = true \/ one_of (py " ,.") a = true ->
  name_char a = true.
Proof. ascii_cases a; intuition discriminate. Qed.

Lemma mixed_name_re_classes :
  classes_in (fun a => name_char a = true) mixed_name_re.
Proof.
  cbn -[Ascii.eqb is_upper is_lower name_char].
  repeat split; intros a H; apply mixed_name_char; auto;
    right; right; apply Ascii.eqb_eq in H; subst; reflexivity.
Qed.

(** An upper-case run is made of the characters of its class, and a
    match of the second tier of letters, spaces, a comma and periods. *)
Lemma upper_run_chars (block run : str) :
  In run (re_findall upper_name_re block) ->
  Forall (fun a => upper_name_class a = true) run.
Proof.
  intros H. apply re_findall_Matches in H as [pre [post [_ M]]].
  exact (Matches_classes _ _ _ _ _ M upper_name_re_classes).
Qed.

Lemma mixed_match_chars (block m : str) :
  In m (re_findall mixed_name_re block) -> Forall (fun a => name_char a = true) m.
Proof.
  intros H. apply re_findall_Matches in H as [pre [post [_ M]]].
  exact (Matches_classes _ _ _ _ _ M mixed_name_re_classes).
Qed.

Lemma Forall_strip (P : ascii -> Prop) (s : str) : Forall P s -> Forall P (strip s).
Proof.
  rewrite !Forall_forall. intros H a Ha. apply H. now apply In_strip.
Qed.

(** ** The candidates of [extract_patient_name] *)

Lemma first_longest_In (m : str) (xs : list str) : first_longest m xs -> In m xs.
Proof. intros [l1 [l2 [-> _]]]. apply in_or_app. right. now left. Qed.

Lemma max_by_len_In (xs : list str) (m : str) : max_by_len xs = Some m -> In m xs.
Proof. intros H. now apply first_longest_In, max_by_len_spec. Qed.

(** The three ways [extract_patient_name] returns. *)
Lemma extract_patient_name_cases (block : str) :
  (exists n, In n (clean_upper_of local_ignore_words block)
             /\ extract_patient_name block = title n)
  \/ (clean_upper_of local_ignore_words block = []
      /\ exists m, In m (mixed_clean_of local_ignore_words block)
                   /\ extract_patient_name block = strip m)
  \/ (clean_upper_of local_ignore_words block = []
      /\ mixed_clean_of local_ignore_words block = []
      /\ extract_patient_name block = []).
Proof.
  unfold extract_patient_name. cbv zeta.
  destruct (max_by_len (clean_upper_of local_ignore_words block)) as [n|] eqn:E1.
  - left. exists n. split; [now apply max_by_len_In | reflexivity].
  - right. apply max_by_len_None in E1.
    destruct (max_by_len (mixed_clean_of local_ignore_words block)) as [m|] eqn:E2.
    + left. split; [assumption|]. exists m. split; [now apply max_by_len_In | reflexivity].
    + right. apply max_by_len_None in E2. auto.
Qed.

(** ** Texts of two tokens and more *)

Lemma split_ws_aux_app_space (sp : ascii) (y : str) :
  is_space sp = true ->
  forall x cur, split_ws_aux cur (x ++ sp :: y) = split_ws_aux cur x ++ split_ws y.
Proof.
  intros Hsp. induction x as [|a x IH]; intros cur.
  - simpl. rewrite Hsp. now destruct cur.
  - simpl. destruct (is_space a); [|apply IH].
    destruct cur; rewrite IH; reflexivity.
Qed.

Lemma split_ws_aux_nonempty (s : str) :
  forall cur, cur <> [] -> split_ws_aux cur s <> [].
Proof.
  induction s as [|a s IH]; intros cur Hc.
  - simpl. now destruct cur.
  - simpl. destruct (is_space a); [now destruct cur|].
    apply IH. discriminate.
Qed.

Lemma split_ws_head (a : ascii) (s : str) :
  is_space a = false -> 1 <= length (split_ws (a :: s)).
Proof.
  intros Ha. unfold split_ws. simpl. rewrite Ha.
  assert (H := split_ws_aux_nonempty s [a]).
  destruct (split_ws_aux [a] s); [now elim H | simpl; lia].
Qed.

Lemma two_tokens (a b sp : ascii) (x y : str) :
  is_space a = false -> is_space b = false -> is_space sp = true ->
  2 <= length (split_ws ((a :: x) ++ sp :: b :: y)).
Proof.
  intros Ha Hb Hsp. unfold split_ws at 1.
  rewrite split_ws_aux_app_space by assumption. rewrite length_app.
  assert (H1 := split_ws_head a x Ha). assert (H2 := split_ws_head b y Hb).
  unfold split_ws in H1 at 1. lia.
Qed.

Lemma upper_not_space (a : ascii) : is_upper a = true -> is_space a = false.
Proof. ascii_cases a. Qed.

Lemma Matches_cap_word (p : option ascii) (w nxt : str) :
  Matches cap_word p w nxt -> exists a w', w = a :: w' /\ is_upper a = true.
Proof.
  unfold cap_word. intros H.
  apply Matches_Seq_inv in H as [w1 [w2 [-> [H1 _]]]].
  apply Matches_Chr_inv in H1 as [a [-> Ha]]. now exists a, w2.
Qed.

(** A match of the second tier has a capitalised word, then a comma and
    a space before another capitalised word. *)
Lemma Matches_mixed_name_re (p : option ascii) (w nxt : str) :
  Matches mixed_name_re p w nxt ->
  exists a x b y, w = (a :: x) ++ " "%char :: b :: y
                  /\ is_upper a = true /\ is_upper b = true.
Proof.
  unfold mixed_name_re. cbn [Cat]. intros H.
  apply Matches_Seq_inv in H as [w1 [r1 [-> [H1 H]]]].
  apply Matches_Seq_inv in H as [w2 [r2 [-> [_ H]]]].
  apply Matches_Seq_inv in H as [w3 [r3 [-> [H3 H]]]].
  apply Matches_Seq_inv in H as [w4 [w5 [-> [H4 _]]]].
  apply Matches_Lit in H3 as ->.
  apply Matches_cap_word in H1 as [a [x [-> Ha]]].
  apply Matches_cap_word in H4 as [b [y [-> Hb]]].
  exists a, (x ++ w2 ++ [","%char]), b, (y ++ w5).
  split; [|auto]. simpl. f_equal. rewrite <- !app_assoc. reflexivity.
Qed.

Lemma mixed_match_two_tokens (block m : str) :
  In m (re_findall mixed_name_re block) -> 2 <= length (split_ws m).
Proof.
  intros H. apply re_findall_Matches in H as [pre [post [_ M]]].
  apply Matches_mixed_name_re in M as [a [x [b [y [-> [Ha Hb]]]]]].
  apply two_tokens; [now apply upper_not_space | now apply upper_not_space | reflexivity].
Qed.

(** ** Where [account_pattern] matches *)

Lemma Matches_account_digits (p : option ascii) (w nxt : str) :
  Matches account_pattern p w nxt ->
  exists ws ds, w = py "Account:" ++ ws ++ ds
                /\ forallb is_space ws = true /\ forallb is_digit ds = true
                /\ (length ds = 4 \/ length ds = 5).
Proof.
  unfold account_pattern, space, digit, RepUpTo1, Opt. cbn [Cat]. intros H.
  apply Matches_Seq_inv in H as [w1 [r1 [-> [H1 H]]]].
  apply Matches_Seq_inv in H as [ws [r2 [-> [H2 H]]]].
  apply Matches_Group_inv in H.
  apply Matches_Seq_inv in H as [d4 [d5 [-> [H4 H5]]]].
  apply Matches_Lit in H1 as ->. apply Matches_Star_Chr in H2.
  apply Matches_Rep_Chr in H4 as [Hl Hd].
  exists ws, (d4 ++ d5). split; [reflexivity|]. split; [assumption|].
  rewrite forallb_app, length_app, Hd, Hl.
  apply Matches_Alt_inv in H5 as [H5|H5].
  - apply Matches_Chr_inv in H5 as [a [-> Ha]]. simpl. rewrite Ha. auto.
  - apply Matches_Eps_inv in H5 as ->. auto.
Qed.

(** A text on which [account_pattern] matches begins with [Account:],
    white space and the digits the pattern captures: five when five
    digits are there, four otherwise. *)
Lemma account_shape (p : option ascii) (t : str) :
  match_here account_pattern false p t <> None ->
  exists ws ds rest,
    t = py "Account:" ++ ws ++ ds ++ rest
    /\ forallb is_space ws = true /\ ds <> [] /\ account_digits ds rest.
Proof.
  intros H. destruct (match_here account_pattern false p t) as [st|] eqn:E;
    [clear H|contradiction].
  apply match_here_sound in E as [w [Ht [_ [_ [M _]]]]].
  apply Matches_account_digits in M as [ws [ds [-> [Hws [Hd Hl]]]]].
  remember (m_rest st) as rest eqn:Er. clear Er st.
  assert (Hne : ds <> []) by (intros ->; simpl in Hl; lia).
  destruct Hl as [Hl|Hl].
  - destruct rest as [|d rest].
    + exists ws, ds, []. rewrite Ht, <- !app_assoc.
      split; [reflexivity|]. split; [assumption|]. split; [assumption|].
      split; [assumption|]. right. split; [assumption | exact I].
    + destruct (is_digit d) eqn:Ed.
      * exists ws, (ds ++ [d]), rest. rewrite Ht, <- !app_assoc.
        split; [reflexivity|]. split; [assumption|].
        split; [now destruct ds|]. split.
        -- rewrite forallb_app, Hd. simpl. now rewrite Ed.
        -- left. rewrite length_app, Hl. reflexivity.
      * exists ws, ds, (d :: rest). rewrite Ht, <- !app_assoc.
        split; [reflexivity|]. split; [assumption|]. split; [assumption|].
        split; [assumption|]. right. split; [assumption | exact Ed].
  - exists ws, ds, rest. rewrite Ht, <- !app_assoc.
    split; [reflexivity|]. split; [assumption|]. split; [assumption|].
    split; [assumption|]. now left.
Qed.

Lemma account_here_inv (p : option ascii) (t : str) (st : mstate) :
  match_here account_pattern false p t = Some st ->
  exists ws ds rest,
    t = py "Account:" ++ ws ++ ds ++ rest
    /\ forallb is_space ws = true /\ ds <> [] /\ account_digits ds rest
    /\ m_grp st = Some ds.
Proof.
  intros H.
  destruct (account_shape p t) as [ws [ds [rest [Ht [Hws [Hne Hds]]]]]];
    [now rewrite H|].
  exists ws, ds, rest. repeat split; try assumption; try apply Hds.
  destruct (account_here p ws ds rest Hws Hne Hds) as [st0 [E [Hg _]]].
  rewrite <- Ht, H in E. injection E as <-. exact Hg.
Qed.

(** The first match of [account_pattern] in a block. *)
Lemma account_search_inv (block : str) (m : rmatch) :
  re_search account_pattern block = Some m ->
  exists ws ds rest,
    block = before m ++ py "Account:" ++ ws ++ ds ++ rest
    /\ forallb is_space ws = true /\ ds <> [] /\ account_digits ds rest
    /\ group_1 m = ds.
Proof.
  unfold re_search. intros H.
  destruct (scan account_pattern false None block) as [[pre st]|] eqn:E;
    [|discriminate].
  simpl in H. injection H as <-.
  destruct (scan_Some _ _ _ _ _ _ E) as [[t [Hs Hm]] _].
  apply account_here_inv in Hm as [ws [ds [rest [-> [Hws [Hne [Hds Hg]]]]]]].
  exists ws, ds, rest. repeat split; try assumption; try apply Hds.
  unfold group_1, to_rmatch. simpl. now rewrite Hg.
Qed.

Lemma account_digits_length (ds rest : str) :
  account_digits ds rest -> length ds = 4 \/ length ds = 5.
Proof. intros [_ [H|[H _]]]; auto. Qed.

Lemma account_digits_marker (ws ds rest : str) :
  forallb is_space ws = true -> account_digits ds rest ->
  marker (py "Account:" ++ ws ++ ds ++ rest).
Proof.
  intros Hws [Hd [Hl|[Hl _]]]; [now apply marker_five_digits|].
  now exists ws, ds, rest.
Qed.

(** In the text before the first marker [account_pattern] finds nothing,
    and in a later block it matches at the start. *)
Lemma first_block_no_account (full_text first : str) (rest_blocks : list str) :
  blocks_of full_text = first :: rest_blocks ->
  re_search account_pattern first = None.
Proof.
  intros Hb.
  destruct (blocks_of_inv full_text) as [b0 [bs [Hb' [_ [H0 _]]]]].
  rewrite Hb in Hb'. injection Hb' as <- <-.
  destruct (re_search account_pattern first) as [m|] eqn:E; [|reflexivity].
  apply account_search_inv in E as [ws [ds [rest [Hs [Hws [_ [Hds _]]]]]]].
  exfalso. apply (H0 _ _ Hs); [discriminate|].
  apply marker_app. now apply account_digits_marker.
Qed.

Lemma later_block_account (full_text first block : str) (rest_blocks : list str)
    (m : rmatch) :
  blocks_of full_text = first :: rest_blocks -> In block rest_blocks ->
  re_search account_pattern block = Some m ->
  before m = [].
Proof.
  intros Hb Hin E.
  destruct (blocks_of_inv full_text) as [b0 [bs [Hb' [_ [_ Hg]]]]].
  rewrite Hb in Hb'. injection Hb' as <- <-.
  apply account_search_inv in E as [ws [ds [rest [Hs [Hws [_ [Hds _]]]]]]].
  destruct (before m) as [|a pre] eqn:Ep; [reflexivity|]. exfalso.
  apply (good_blocks_inside _ Hg _ Hin _ _ Hs); [discriminate|].
  now apply account_digits_marker.
Qed.

(** ** The records of the blocks *)

Lemma parse_block_no_account (block : str) :
  re_search account_pattern block = None -> parse_block block = None.
Proof. intros H. unfold parse_block. rewrite H. now destruct (is_blank block). Qed.

Lemma parse_blocks_cons (block : str) (blocks : list str) :
  parse_blocks (block :: blocks) = record_of block ++ parse_blocks blocks.
Proof. now rewrite !parse_blocks_flat_map. Qed.

Lemma parse_blocks_length (blocks : list str) :
  length (parse_blocks blocks) <= length blocks.
Proof.
  induction blocks as [|b bs IH]; [apply le_n|].
  rewrite parse_blocks_cons, length_app. unfold record_of.
  destruct (parse_block b); simpl; lia.
Qed.

Lemma parse_blocks_In (blocks : list str) (r : record) :
  In r (parse_blocks blocks) <->
  exists block, In block blocks /\ parse_block block = Some r.
Proof.
  rewrite parse_blocks_flat_map, in_flat_map. unfold record_of.
  split; intros [b [Hb H]]; exists b; (split; [assumption|]).
  - destruct (parse_block b) as [r'|]; [|contradiction].
    destruct H as [<-|[]]. reflexivity.
  - rewrite H. now left.
Qed.

Lemma subseq_length {A} (l1 l2 : list A) : subseq l1 l2 -> length l1 <= length l2.
Proof. induction 1; simpl; lia. Qed.

Lemma drop_duplicates_length (rows : list record) :
  length (drop_duplicates rows) <= length rows.
Proof. apply subseq_length, drop_duplicates_seen_subseq. Qed.

Lemma drop_duplicates_In (rows : list record) (r : record) :
  In r (drop_duplicates rows) -> In r rows.
Proof. intros H. now apply drop_duplicates_seen_In in H. Qed.

(** The table is read from the blocks after the first. *)
Lemma table_of_later_blocks (full_text first : str) (rest_blocks : list str) :
  blocks_of full_text = first :: rest_blocks ->
  parse_block first = None
  /\ table_of full_text = drop_duplicates (parse_blocks rest_blocks).
Proof.
  intros Hb.
  assert (H : parse_block first = None).
  { apply parse_block_no_account. now apply (first_block_no_account _ _ _ Hb). }
  split; [exact H|].
  unfold table_of. rewrite Hb, parse_blocks_cons. unfold record_of. now rewrite H.
Qed.

(** ** More on [drop_duplicates] *)

Lemma drop_duplicates_seen_keys (rows : list record) :
  forall seen k,
    In k (keys (drop_duplicates_seen seen rows)) <-> In k (keys rows) /\ ~ In k seen.
Proof.
  induction rows as [|r rows IH]; intros seen k; simpl; [tauto|].
  destruct (str_in (account_number r) seen) eqn:E.
  - apply str_in_In in E. rewrite IH. split.
    + intros [H1 H2]. auto.
    + intros [[<-|H1] H2]; [contradiction | auto].
  - apply str_in_not_In in E. simpl. rewrite IH. simpl. split.
    + intros [<-|[H1 H2]]; auto.
    + intros [[H|H1] H2]; [now left|].
      destruct (str_eqb (account_number r) k) eqn:Ek.
      * apply str_eqb_eq in Ek. now left.
      * apply str_eqb_neq in Ek. right. split; [assumption|].
        intros [H|H]; contradiction.
Qed.

Lemma drop_duplicates_seen_fix (rows : list record) :
  forall seen,
    NoDup (keys rows) -> (forall k, In k (keys rows) -> ~ In k seen) ->
    drop_duplicates_seen seen rows = rows.
Proof.
  induction rows as [|r rows IH]; intros seen Hnd Hs; simpl; [reflexivity|].
  simpl in Hnd. inversion Hnd as [|? ? Hr Hnd']; subst.
  assert (E : str_in (account_number r) seen = false).
  { apply str_in_not_In, Hs. now left. }
  rewrite E. f_equal. apply IH; [assumption|].
  intros k Hk [<-|H]; [contradiction|]. apply (Hs k); [now right | assumption].
Qed.

Lemma drop_duplicates_fix (rows : list record) :
  NoDup (keys rows) -> drop_duplicates rows = rows.
Proof. intros H. apply drop_duplicates_seen_fix; [assumption|]. intros k _ []. Qed.

Lemma drop_duplicates_nil_iff (rows : list record) :
  drop_duplicates rows = [] <-> rows = [].
Proof.
  split; [|now intros ->].
  destruct rows as [|r rows]; [reflexivity|]. unfold drop_duplicates. simpl.
  replace (str_in (account_number r) []) with false by reflexivity. discriminate.
Qed.

(** ** The text of the pages *)

Lemma is_blank_app (s t : str) : is_blank (s ++ t) = is_blank s && is_blank t.
Proof.
  apply eq_true_iff_eq. rewrite andb_true_iff, !is_blank_iff, forallb_app.
  apply andb_true_iff.
Qed.

Lemma fold_add_page (pages : list (option str)) :
  forall full_text,
    fold_left add_page pages full_text = full_text ++ fold_left add_page pages [].
Proof.
  induction pages as [|txt pages IH]; intros full_text; simpl.
  - now rewrite app_nil_r.
  - rewrite IH. rewrite (IH (add_page [] txt)). rewrite app_assoc. f_equal.
    unfold add_page. destruct txt as [t|]; [|now rewrite app_nil_r].
    destruct (is_empty t); [now rewrite app_nil_r | reflexivity].
Qed.

Lemma read_pages_cons (txt : option str) (pages : list (option str)) :
  read_pages (txt :: pages) = add_page [] txt ++ read_pages pages.
Proof. unfold read_pages. simpl. apply fold_add_page. Qed.

Lemma add_page_blank (txt : option str) :
  is_blank (add_page [] txt) = true <-> blank_page txt.
Proof.
  unfold add_page, blank_page. destruct txt as [t|]; [|now split].
  destruct t as [|a t]; [now split|]. cbn [is_empty].
  rewrite app_nil_l, is_blank_iff, forallb_app, andb_true_iff.
  split; [now intros [H _] | now intros H].
Qed.

Lemma read_pages_blank (pages : list (option str)) :
  is_blank (read_pages pages) = true <-> Forall blank_page pages.
Proof.
  induction pages as [|txt pages IH]; [split; [constructor | reflexivity]|].
  rewrite read_pages_cons, is_blank_app, andb_true_iff, add_page_blank, IH.
  split; [intros [H1 H2]; now constructor | intros H; now inversion H].
Qed.

(** ** Patterns between word boundaries *)

Lemma Matches_boundary_first (r : regex) (p : option ascii) (w nxt : str) :
  Matches (Seq WordB r) p w nxt ->
  xorb (word_opt p) (word_opt (hd_error (w ++ nxt))) = true.
Proof.
  intros H. apply Matches_Seq_inv in H as [w1 [w2 [-> [H1 _]]]].
  now apply Matches_WordB_inv in H1 as [-> H1].
Qed.

Lemma Matches_boundary_last (r : regex) :
  ends_in_boundary r = true ->
  forall p w nxt, Matches r p w nxt ->
    xorb (word_opt (last_of p w)) (word_opt (hd_error nxt)) = true.
Proof.
  induction r; try discriminate; simpl; intros Hr p w nxt H.
  - apply Matches_Seq_inv in H as [w1 [w2 [-> [_ H2]]]].
    rewrite last_of_app. now apply IHr2.
  - now apply Matches_WordB_inv in H as [-> H].
Qed.

Lemma last_of_snoc (p : option ascii) (w : str) (a : ascii) :
  last_of p (w ++ [a]) = Some a.
Proof. rewrite last_of_app. reflexivity. Qed.

Lemma last_of_nonempty (p q : option ascii) (w : str) :
  w <> [] -> last_of p w = last_of q w.
Proof.
  destruct w as [|a w]; [contradiction|]. intros _. now rewrite !last_of_cons.
Qed.

(** A text made of word characters, read to its end, leaves a word
    character before the position. *)
Lemma last_of_word (w : str) :
  w <> [] -> forallb is_word w = true ->
  forall p, word_opt (last_of p w) = true.
Proof.
  induction w as [|a w IH]; [contradiction|]. intros _ H p.
  simpl in H. apply andb_true_iff in H as [Ha Hw]. rewrite last_of_cons.
  destruct w as [|b w]; [exact Ha|]. apply IH; [discriminate | assumption].
Qed.

Lemma alnum_is_word (a : ascii) : is_alnum a = true -> is_word a = true.
Proof. ascii_cases a. Qed.

Lemma digits_are_words (ds : str) :
  forallb is_digit ds = true -> forallb is_word ds = true.
Proof.
  rewrite !forallb_forall. intros H a Ha. now apply digit_is_word, H.
Qed.

Lemma cpt_text_ends (w : str) :
  cpt_text w ->
  (forall nxt, word_opt (hd_error (w ++ nxt)) = true)
  /\ (forall p, word_opt (last_of p w) = true).
Proof.
  intros [ds [Hl [Hd Hw]]].
  destruct ds as [|d1 ds]; [discriminate|].
  assert (H1 : is_word d1 = true).
  { simpl in Hd. apply andb_true_iff in Hd as [Hd _]. now apply digit_is_word. }
  split.
  - intros nxt. destruct Hw as [->|[x [y [-> _]]]]; exact H1.
  - intros p. destruct Hw as [->|[x [y [-> [_ Hy]]]]].
    + apply last_of_word; [discriminate | now apply digits_are_words].
    + change ["-"%char; x; y] with (["-"%char; x] ++ [y]).
      rewrite app_assoc, last_of_snoc. now apply alnum_is_word.
Qed.

Lemma date_text_ends (w : str) :
  date_text w ->
  (forall nxt, word_opt (hd_error (w ++ nxt)) = true)
  /\ (forall p, word_opt (last_of p w) = true).
Proof.
  intros [m [d [y [-> [Hm [Hd [Hy H]]]]]]].
  rewrite !forallb_app in H. apply andb_true_iff in H as [H1 H].
  apply andb_true_iff in H as [_ H3].
  split.
  - intros nxt. destruct m as [|m1 m]; [discriminate|]. simpl in H1.
    apply andb_true_iff in H1 as [H1 _]. now apply digit_is_word.
  - intros p.
    change (m ++ "/"%char :: d ++ "/"%char :: y)
      with (m ++ ("/"%char :: d) ++ "/"%char :: y).
    rewrite app_assoc. change ("/"%char :: y) with (["/"%char] ++ y).
    rewrite app_assoc, last_of_app.
    apply last_of_word; [now destruct y | now apply digits_are_words].
Qed.

Lemma xorb_true_l_false (b c : bool) : xorb b c = true -> c = true -> b = false.
Proof. now destruct b, c. Qed.

Lemma xorb_true_r_false (b c : bool) : xorb b c = true -> b = true -> c = false.
Proof. now destruct b, c. Qed.

(** What [cpt_pattern] and [date_pattern] match stands as a whole word. *)
Lemma Matches_cpt_whole (p : option ascii) (w nxt : str) :
  Matches cpt_pattern p w nxt ->
  word_opt p = false /\ word_opt (hd_error nxt) = false.
Proof.
  intros H. destruct (cpt_text_ends w (Matches_cpt_pattern _ _ _ H)) as [H1 H2].
  split.
  - apply Matches_boundary_first in H. exact (xorb_true_l_false _ _ H (H1 nxt)).
  - apply Matches_boundary_last in H; [|reflexivity].
    exact (xorb_true_r_false _ _ H (H2 p)).
Qed.

Lemma Matches_date_whole (p : option ascii) (w nxt : str) :
  Matches date_pattern p w nxt ->
  word_opt p = false /\ word_opt (hd_error nxt) = false.
Proof.
  intros H. destruct (date_text_ends w (Matches_date_pattern _ _ _ H)) as [H1 H2].
  split.
  - apply Matches_boundary_first in H. exact (xorb_true_l_false _ _ H (H1 nxt)).
  - apply Matches_boundary_last in H; [|reflexivity].
    exact (xorb_true_r_false _ _ H (H2 p)).
Qed.

Lemma findall_cpt_whole (block c : str) :
  In c (re_findall cpt_pattern block) -> whole_word_in block c.
Proof.
  intros H. apply re_findall_Matches in H as [pre [post [Hs M]]].
  exists pre, post. split; [assumption|]. now apply Matches_cpt_whole in M.
Qed.

Lemma findall_date_whole (block d : str) :
  In d (re_findall date_pattern block) -> date_text d /\ whole_word_in block d.
Proof.
  intros H. apply re_findall_Matches in H as [pre [post [Hs M]]].
  split; [now apply Matches_date_pattern in M|].
  exists pre, post. split; [assumption|]. now apply Matches_date_whole in M.
Qed.

Lemma search_date_whole (line : str) (dm : rmatch) :
  re_search date_pattern line = Some dm ->
  date_text (group0 dm) /\ whole_word_in line (group0 dm).
Proof.
  intros H. apply findall_date_whole.
  assert (Hh := re_findall_head date_pattern line). rewrite H in Hh.
  destruct Hh as [ws ->]. now left.
Qed.

(** ** The line after the account line, in any block *)

Lemma is_dot_false (a : ascii) : is_dot a = false -> a = newline.
Proof.
  unfold is_dot. intros H. apply negb_false_iff in H. now apply Ascii.eqb_eq in H.
Qed.

Lemma split_at_newline (s : str) :
  In newline s ->
  exists tl s', s = tl ++ newline :: s' /\ forallb is_dot tl = true.
Proof.
  induction s as [|a s IH]; [contradiction|]. intros H.
  destruct (is_dot a) eqn:E.
  - destruct H as [H|H]; [subst a; discriminate E|].
    destruct (IH H) as [tl [s' [-> Ht]]]. exists (a :: tl), s'.
    simpl. rewrite E. auto.
  - apply is_dot_false in E as ->. now exists [], s.
Qed.

Lemma span_dot (s : str) :
  exists line after_line,
    s = line ++ after_line /\ forallb is_dot line = true /\ stops is_dot after_line.
Proof.
  induction s as [|a s [line [after_line [-> [H1 H2]]]]].
  - exists [], []. repeat split.
  - destruct (is_dot a) eqn:E.
    + exists (a :: line), after_line. simpl. rewrite E. auto.
    + exists [], (a :: line ++ after_line). simpl. auto.
Qed.

(** At a marker whose line ends further on, group 1 of the pattern of
    [extract_date_of_service] is the next line, whatever stands before. *)
Lemma account_line_match_here (p : option ascii) (ws ds tl line after_line : str) :
  forallb is_space ws = true -> length ds = 4 -> forallb is_digit ds = true ->
  forallb is_dot tl = true -> forallb is_dot line = true -> stops is_dot after_line ->
  exists st,
    match_here account_line_re false p
      (py "Account:" ++ ws ++ ds ++ tl ++ newline :: line ++ after_line) = Some st
    /\ m_grp st = Some line.
Proof.
  intros Hws Hl Hd Htl Hline Hafter.
  unfold match_here, account_line_re, chr, dot. cbn [Cat].
  rewrite matchk_Seq.
  rewrite matchk_marker_re with (ws := ws) (ds := ds)
                                (rest := tl ++ newline :: line ++ after_line);
    [|reflexivity|assumption..].
  rewrite matchk_Seq.
  rewrite star_Chr_exclusive with (ws := tl) (t := newline :: line ++ after_line);
    [|apply fails_on_newline|reflexivity|assumption|reflexivity].
  rewrite after_after, matchk_Seq.
  rewrite matchk_Chr with (a := newline) (t := line ++ after_line) by reflexivity.
  rewrite Ascii.eqb_refl, after_after, matchk_Group.
  erewrite star_Chr_greedy_first with (ws := line) (t := after_line);
    [|reflexivity|assumption|assumption|].
  2:{ rewrite close_group_after. reflexivity. }
  eexists. split; reflexivity.
Qed.

(** Group 1 of the first match of that pattern is a whole line of the
    block: a line feed stands before it, and the end of the block or a
    line feed after it. *)
Lemma account_line_group (block : str) (m : rmatch) :
  re_search account_line_re block = Some m ->
  exists pre after_line,
    block = pre ++ newline :: group_1 m ++ after_line
    /\ stops is_dot after_line.
Proof.
  unfold re_search. intros H.
  destruct (scan account_line_re false None block) as [[pre st]|] eqn:E;
    [|discriminate].
  simpl in H. injection H as <-.
  destruct (scan_Some _ _ _ _ _ _ E) as [[t [Hs Hm]] _].
  replace (ma_at false pre) with false in Hm by reflexivity.
  destruct (match_here_sound _ _ _ _ _ Hm) as [w [Ht [_ [_ [M _]]]]].
  apply Matches_account_line_re in M as [ws [ds [rest [-> [Hws [Hl [Hd Hn]]]]]]].
  destruct (split_at_newline (rest ++ m_rest st)) as [tl [s' [Hr Htl]]];
    [apply in_or_app; now left|].
  destruct (span_dot s') as [line [after_line [-> [Hline Hafter]]]].
  assert (Ht' : t = py "Account:" ++ ws ++ ds ++ tl ++ newline :: line ++ after_line).
  { rewrite Ht, <- !app_assoc, Hr. reflexivity. }
  destruct (account_line_match_here (last_of None pre) ws ds tl line after_line)
    as [st0 [E0 Hg]]; try assumption.
  rewrite <- Ht', Hm in E0. injection E0 as <-.
  assert (Hb : block
               = (pre ++ py "Account:" ++ ws ++ ds ++ tl)
                   ++ newline :: line ++ after_line).
  { rewrite Hs, Ht', <- !app_assoc. reflexivity. }
  exists (pre ++ py "Account:" ++ ws ++ ds ++ tl), after_line.
  unfold group_1, to_rmatch. cbn [group1 snd]. rewrite Hg. now split.
Qed.

Lemma whole_word_in_line (pre line after_line d : str) :
  stops is_dot after_line -> whole_word_in line d ->
  whole_word_in (pre ++ newline :: line ++ after_line) d.
Proof.
  intros Ha [pre1 [post1 [-> [H1 H2]]]].
  exists (pre ++ newline :: pre1), (post1 ++ after_line).
  split; [|split].
  - rewrite <- !app_assoc. simpl. rewrite <- ?app_assoc. reflexivity.
  - rewrite last_of_app, last_of_cons.
    destruct pre1 as [|a pre1]; [reflexivity|].
    rewrite last_of_cons. now rewrite last_of_cons in H1.
  - destruct post1 as [|c post1]; [|exact H2]. simpl.
    destruct after_line as [|c after_line]; [reflexivity|]. simpl in Ha.
    apply is_dot_false in Ha as ->. reflexivity.
Qed.

(** ** Blocks without a word character *)

Lemma wordless_In (block : str) (a : ascii) :
  wordless block = true -> In a block -> is_word a = false.
Proof.
  unfold wordless. rewrite forallb_forall. intros H Ha.
  apply H in Ha. now apply negb_true_iff in Ha.
Qed.

Lemma blank_wordless (block : str) : is_blank block = true -> wordless block = true.
Proof.
  rewrite is_blank_iff. unfold wordless. rewrite !forallb_forall.
  intros H a Ha. apply negb_true_iff. now apply space_not_word, H.
Qed.

Lemma last_of_word_In (pre : str) :
  forall p, word_opt (last_of p pre) = true ->
            word_opt p = true \/ exists a, In a pre /\ is_word a = true.
Proof.
  induction pre as [|a pre IH]; intros p H; [now left|].
  rewrite last_of_cons in H. right.
  destruct (IH _ H) as [Ha|[b [Hb Hw]]].
  - exists a. split; [now left | exact Ha].
  - exists b. split; [now right | exact Hw].
Qed.

(** A pattern that cannot match without a word character in its match
    or just before it finds nothing in a block that has none. *)
Lemma search_wordless (r : regex) (block : str) :
  (forall p w nxt, Matches r p w nxt ->
     word_opt p = true \/ exists a, In a w /\ is_word a = true) ->
  wordless block = true -> re_search r block = None.
Proof.
  intros Hr Hb. unfold re_search.
  destruct (scan r false None block) as [[pre st]|] eqn:E; [|reflexivity].
  apply scan_decompose in E as [Hs [_ [M _]]]. exfalso.
  assert (Hw : exists a, In a block /\ is_word a = true).
  { destruct (Hr _ _ _ M) as [H|[a [Ha Hw]]].
    - apply last_of_word_In in H as [H|[a [Ha Hw]]]; [discriminate|].
      exists a. split; [|exact Hw]. rewrite Hs. apply in_or_app. now left.
    - exists a. split; [|exact Hw]. rewrite Hs.
      apply in_or_app. right. apply in_or_app. now left. }
  destruct Hw as [a [Ha Hw]]. rewrite (wordless_In _ _ Hb Ha) in Hw. discriminate.
Qed.

Lemma findall_wordless (r : regex) (block : str) :
  (forall p w nxt, Matches r p w nxt ->
     word_opt p = true \/ exists a, In a w /\ is_word a = true) ->
  wordless block = true -> re_findall r block = [].
Proof.
  intros Hr Hb. assert (H := re_findall_head r block).
  now rewrite (search_wordless r block Hr Hb) in H.
Qed.

Lemma head_word (w : str) :
  word_opt (hd_error (w ++ [])) = true -> exists a, In a w /\ is_word a = true.
Proof.
  destruct w as [|a w]; [discriminate|]. intros H. exists a. split; [now left | exact H].
Qed.

Lemma account_pattern_needs_word (p : option ascii) (w nxt : str) :
  Matches account_pattern p w nxt ->
  word_opt p = true \/ exists a, In a w /\ is_word a = true.
Proof.
  intros H. apply Matches_account_pattern in H as [w' ->]. right.
  exists "A"%char. split; [now left | reflexivity].
Qed.

Lemma account_line_re_needs_word (p : option ascii) (w nxt : str) :
  Matches account_line_re p w nxt ->
  word_opt p = true \/ exists a, In a w /\ is_word a = true.
Proof.
  intros H. apply Matches_account_line_re in H as [ws [ds [rest [-> _]]]]. right.
  exists "A"%char. split; [now left | reflexivity].
Qed.

Lemma date_pattern_needs_word (p : option ascii) (w nxt : str) :
  Matches date_pattern p w nxt ->
  word_opt p = true \/ exists a, In a w /\ is_word a = true.
Proof.
  intros H. right. apply head_word.
  now apply (date_text_ends w (Matches_date_pattern _ _ _ H)).
Qed.

Lemma cpt_pattern_needs_word (p : option ascii) (w nxt : str) :
  Matches cpt_pattern p w nxt ->
  word_opt p = true \/ exists a, In a w /\ is_word a = true.
Proof.
  intros H. right. apply head_word.
  now apply (cpt_text_ends w (Matches_cpt_pattern _ _ _ H)).
Qed.

Lemma upper_name_re_needs_word (p : option ascii) (w nxt : str) :
  Matches upper_name_re p w nxt ->
  word_opt p = true \/ exists a, In a w /\ is_word a = true.
Proof.
  intros H. assert (Hb := Matches_boundary_first _ _ _ _ H).
  destruct (word_opt p); [now left|]. right. simpl in Hb.
  unfold upper_name_re, RepAtLeast in H. cbn [Cat] in H.
  apply Matches_Seq_inv in H as [w0 [w1 [-> [H0 H]]]].
  apply Matches_WordB_inv in H0 as [-> _].
  apply Matches_Seq_inv in H as [w2 [w3 [-> [H _]]]].
  apply Matches_Seq_inv in H as [w4 [w5 [-> [H _]]]].
  apply Matches_Rep_Chr in H as [Hl _].
  destruct w4 as [|a w4]; [discriminate|].
  exists a. split; [now left | exact Hb].
Qed.

Lemma upper_is_word (a : ascii) : is_upper a = true -> is_word a = true.
Proof. ascii_cases a. Qed.

Lemma mixed_name_re_needs_word (p : option ascii) (w nxt : str) :
  Matches mixed_name_re p w nxt ->
  word_opt p = true \/ exists a, In a w /\ is_word a = true.
Proof.
  intros H. apply Matches_mixed_name_re in H as [a [x [b [y [-> [Ha _]]]]]].
  right. exists a. split; [now left | now apply upper_is_word].
Qed.

(** ** The blocks are the text *)

Lemma concat_blocks_of (full_text : str) : concat (blocks_of full_text) = full_text.
Proof.
  destruct (blocks_of_inv full_text) as [first [rest_blocks [-> [H _]]]]. exact H.
Qed.

Lemma blank_text_blank_blocks (full_text block : str) :
  is_blank full_text = true -> In block (blocks_of full_text) ->
  is_blank block = true.
Proof.
  rewrite !is_blank_iff, !forallb_forall. intros H Hb a Ha. apply H.
  rewrite <- concat_blocks_of. apply in_concat. now exists block.
Qed.

Lemma table_of_nil_iff (full_text : str) :
  table_of full_text = [] <->
  forall block, In block (blocks_of full_text) -> parse_block block = None.
Proof.
  unfold table_of. rewrite drop_duplicates_nil_iff. split.
  - intros H block Hb. destruct (parse_block block) as [r|] eqn:E; [|reflexivity].
    assert (Hr : In r (parse_blocks (blocks_of full_text))).
    { apply parse_blocks_In. now exists block. }
    rewrite H in Hr. contradiction.
  - intros H. destruct (parse_blocks (blocks_of full_text)) as [|r rs] eqn:E;
      [reflexivity|].
    assert (Hr : In r (parse_blocks (blocks_of full_text))) by (rewrite E; now left).
    apply parse_blocks_In in Hr as [block [Hb Hp]]. rewrite (H _ Hb) in Hp.
    discriminate.
Qed.

(** ** Splitting a text made of blocks *)

Lemma concat_markers (bs : list str) :
  Forall marker bs -> concat bs = [] \/ marker (concat bs).
Proof.
  intros H. destruct H as [|b bs Hb H]; [now left|]. right. simpl.
  now apply marker_app.
Qed.

(** Blocks that begin with a marker and hold no other one are good
    blocks, whatever follows them. *)
Lemma good_blocks_intro (bs : list str) :
  Forall marker bs ->
  (forall b, In b bs -> forall pre t, b = pre ++ t -> pre <> [] -> ~ marker t) ->
  good_blocks bs.
Proof.
  induction 1 as [|b bs Hb H IH]; intros Hin; [exact I|].
  simpl. split; [now apply marker_nonempty|].
  split; [now apply marker_app|]. split.
  - intros pre t E Hpre Ht Hm.
    apply (Hin b (or_introl eq_refl) pre t E Hpre).
    exact (marker_fit t (concat bs) Ht Hm (concat_markers bs H)).
  - apply IH. intros b' Hb'. apply Hin. now right.
Qed.

Lemma boundary_here_advance (p : option ascii) (t : str) :
  match_here boundary_pattern true p t = None.
Proof.
  destruct (match_here boundary_pattern true p t) as [st|] eqn:E; [|reflexivity].
  apply boundary_here_Some in E as [E _]. discriminate.
Qed.

Lemma boundary_here_ma (ma : bool) (pre : str) (p : option ascii) (t : str) :
  (ma_at ma pre = false -> ~ marker t) ->
  match_here boundary_pattern (ma_at ma pre) p t = None.
Proof.
  intros H. destruct (ma_at ma pre); [apply boundary_here_advance|].
  now apply boundary_here_None, H.
Qed.

(** The split of a text put together from a first piece that holds no
    marker and good blocks gives these pieces back. *)
Lemma split_from_blocks (bs : list str) :
  good_blocks bs ->
  forall b0 ma p,
    (forall pre t, b0 = pre ++ t -> t <> [] -> ma_at ma pre = false ->
                   ~ marker (t ++ concat bs)) ->
    (ma = true -> bs <> [] -> b0 <> []) ->
    split_from boundary_pattern ma p (b0 ++ concat bs) = b0 :: bs.
Proof.
  induction bs as [|b bs IH]; intros Hg b0 ma p H0 Hne.
  - simpl concat. rewrite split_from_eq, scan_skip.
    + cbn [scan]. rewrite boundary_here_ma.
      * cbn [option_map]. now rewrite app_nil_r.
      * intros _. apply not_marker_nil.
    + intros pre1 a pre2 E. apply boundary_here_ma. intros Hma.
      apply (H0 pre1 (a :: pre2) E); [discriminate | assumption].
  - destruct Hg as [Hb [Hm [Hi Hg]]]. rewrite split_from_eq, scan_skip.
    + assert (Hma : ma_at ma b0 = false).
      { unfold ma_at. destruct ma; [|reflexivity].
        destruct b0; [|reflexivity]. exfalso. now apply Hne. }
      rewrite Hma. simpl concat.
      rewrite (scan_first _ _ _ _ _ (boundary_here_marker (last_of p b0) _ Hm)).
      cbn [option_map prepend fst snd m_acc m_prev m_rest is_empty].
      rewrite app_nil_r. f_equal. apply IH; [assumption| |intros _ _; assumption].
      intros pre t E Ht Hpre. apply (Hi pre t E); [|assumption].
      intros ->. discriminate.
    + intros pre1 a pre2 E. apply boundary_here_ma. intros Hma.
      rewrite app_comm_cons. apply (H0 pre1 (a :: pre2) E); [discriminate | assumption].
Qed.

(** ** Building a match *)

Lemma Matches_Seq_intro (r1 r2 : regex) (p : option ascii) (w w1 w2 nxt : str) :
  w = w1 ++ w2 ->
  Matches r1 p w1 (w2 ++ nxt) -> Matches r2 (last_of p w1) w2 nxt ->
  Matches (Seq r1 r2) p w nxt.
Proof. intros ->. apply MSeq. Qed.

Lemma Matches_Rep_Chr_intro (c : ascii -> bool) (n : nat) :
  forall w p nxt,
    length w = n -> forallb c w = true -> Matches (Rep n (Chr c)) p w nxt.
Proof.
  induction n as [|n IH]; intros w p nxt Hl Hc.
  - destruct w; [apply MEps | discriminate].
  - destruct w as [|a w]; [discriminate|]. simpl in Hc, Hl.
    apply andb_true_iff in Hc as [Ha Hc]. cbn [Rep].
    apply Matches_Seq_intro with (w1 := [a]) (w2 := w); [reflexivity| |].
    + now apply MChr.
    + apply IH; [lia | assumption].
Qed.

Lemma Matches_chr_intro (a : ascii) (p : option ascii) (nxt : str) :
  Matches (chr a) p [a] nxt.
Proof. apply MChr. apply Ascii.eqb_refl. Qed.

Lemma alnum_ignorecase (a : ascii) :
  is_alnum a = true -> ignorecase (fun a => is_upper a || is_digit a) a = true.
Proof. ascii_cases a. Qed.

(** A text of the shape of a code that stands as a whole word is
    matched by [cpt_pattern], and so is a date by [date_pattern]. *)
Lemma Matches_cpt_intro (p : option ascii) (w nxt : str) :
  cpt_text w -> word_opt p = false -> word_opt (hd_error nxt) = false ->
  Matches cpt_pattern p w nxt.
Proof.
  intros Hw Hp Hn. destruct (cpt_text_ends w Hw) as [Hhd Hlast].
  destruct Hw as [ds [Hl [Hd Hw]]].
  unfold cpt_pattern, Opt, chr, digit. cbn [Cat].
  apply Matches_Seq_intro with (w1 := []) (w2 := w); [reflexivity| |].
  { apply MWordB. now rewrite Hp, Hhd. }
  rewrite last_of_nil.
  destruct Hw as [->|[x [y [-> [Hx Hy]]]]].
  - apply Matches_Seq_intro with (w1 := ds) (w2 := []); [now rewrite app_nil_r| |].
    { now apply Matches_Rep_Chr_intro. }
    apply Matches_Seq_intro with (w1 := []) (w2 := []); [reflexivity| |].
    { apply MAltR, MEps. }
    rewrite last_of_nil. apply MWordB. now rewrite Hlast, Hn.
  - apply Matches_Seq_intro with (w1 := ds) (w2 := ["-"%char; x; y]); [reflexivity| |].
    { now apply Matches_Rep_Chr_intro. }
    apply Matches_Seq_intro with (w1 := ["-"%char; x; y]) (w2 := []); [reflexivity| |].
    { apply MAltL.
      apply Matches_Seq_intro with (w1 := ["-"%char]) (w2 := [x; y]); [reflexivity| |].
      - apply Matches_chr_intro.
      - apply Matches_Rep_Chr_intro; [reflexivity|]. simpl.
        now rewrite !alnum_ignorecase. }
    rewrite <- last_of_app. apply MWordB. now rewrite Hlast, Hn.
Qed.

Lemma Matches_date_intro (p : option ascii) (w nxt : str) :
  date_text w -> word_opt p = false -> word_opt (hd_error nxt) = false ->
  Matches date_pattern p w nxt.
Proof.
  intros Hw Hp Hn. destruct (date_text_ends w Hw) as [Hhd Hlast].
  destruct Hw as [m [d [y [Hw [Hm [Hd [Hy H]]]]]]].
  rewrite !forallb_app in H. apply andb_true_iff in H as [H1 H].
  apply andb_true_iff in H as [H2 H3].
  unfold date_pattern, digit. cbn [Cat].
  apply Matches_Seq_intro with (w1 := []) (w2 := w); [reflexivity| |].
  { apply MWordB. now rewrite Hp, Hhd. }
  rewrite last_of_nil. subst w.
  apply Matches_Seq_intro with (w1 := m) (w2 := "/"%char :: d ++ "/"%char :: y);
    [reflexivity| |].
  { now apply Matches_Rep_Chr_intro. }
  apply Matches_Seq_intro with (w1 := ["/"%char]) (w2 := d ++ "/"%char :: y);
    [reflexivity| |].
  { apply Matches_chr_intro. }
  apply Matches_Seq_intro with (w1 := d) (w2 := "/"%char :: y); [reflexivity| |].
  { now apply Matches_Rep_Chr_intro. }
  apply Matches_Seq_intro with (w1 := ["/"%char]) (w2 := y); [reflexivity| |].
  { apply Matches_chr_intro. }
  apply Matches_Seq_intro with (w1 := y) (w2 := []); [now rewrite app_nil_r| |].
  { now apply Matches_Rep_Chr_intro. }
  apply MWordB. rewrite last_of_word; [now rewrite Hn|now destruct y|].
  now apply digits_are_words.
Qed.

(** ** When a search finds nothing *)

Lemma findall_nil_iff (r : regex) (s : str) :
  re_findall r s = [] <->
  forall pre w post, s = pre ++ w ++ post -> ~ Matches r (last_of None pre) w post.
Proof.
  split.
  - intros H pre w post Hs M. assert (T := re_findall_tiling r s). rewrite H in T.
    inversion T as [ma p s' Hno|]; subst.
    apply (Hno pre (w ++ post) eq_refl). exists w, post.
    split; [reflexivity|]. split; [assumption|]. discriminate.
  - intros H. destruct (re_findall r s) as [|w ws] eqn:E; [reflexivity|].
    assert (Hw : In w (re_findall r s)) by (rewrite E; now left).
    apply re_findall_Matches in Hw as [pre [post [Hs M]]]. now apply H in M.
Qed.

Lemma findall_cpt_nil_iff (block : str) :
  re_findall cpt_pattern block = [] <->
  forall c, cpt_text c -> ~ whole_word_in block c.
Proof.
  rewrite findall_nil_iff. split.
  - intros H c Hc [pre [post [Hs [Hp Hn]]]].
    apply (H pre c post Hs). now apply Matches_cpt_intro.
  - intros H pre w post Hs M. apply (H w); [now apply Matches_cpt_pattern in M|].
    exists pre, post. split; [assumption|]. now apply Matches_cpt_whole in M.
Qed.

Lemma findall_date_nil_iff (block : str) :
  re_findall date_pattern block = [] <->
  forall d, date_text d -> ~ whole_word_in block d.
Proof.
  rewrite findall_nil_iff. split.
  - intros H d Hd [pre [post [Hs [Hp Hn]]]].
    apply (H pre d post Hs). now apply Matches_date_intro.
  - intros H pre w post Hs M. apply (H w); [now apply Matches_date_pattern in M|].
    exists pre, post. split; [assumption|]. now apply Matches_date_whole in M.
Qed.

(** [account_pattern] finds an account number exactly where a marker
    begins. *)
Lemma marker_account_digits (t : str) :
  marker t ->
  exists ws ds rest,
    t = py "Account:" ++ ws ++ ds ++ rest
    /\ forallb is_space ws = true /\ ds <> [] /\ account_digits ds rest.
Proof.
  intros [ws [ds [rest [-> [Hws [Hl Hd]]]]]].
  assert (Hne : ds <> []) by (intros ->; discriminate).
  destruct rest as [|d rest].
  - exists ws, ds, []. split; [reflexivity|]. split; [assumption|].
    split; [assumption|]. split; [assumption|]. right. split; [assumption | exact I].
  - destruct (is_digit d) eqn:Ed.
    + exists ws, (ds ++ [d]), rest. rewrite <- !app_assoc.
      split; [reflexivity|]. split; [assumption|]. split; [now destruct ds|].
      split; [rewrite forallb_app, Hd; simpl; now rewrite Ed|].
      left. rewrite length_app, Hl. reflexivity.
    + exists ws, ds, (d :: rest). split; [reflexivity|]. split; [assumption|].
      split; [assumption|]. split; [assumption|]. right. split; [assumption | exact Ed].
Qed.

Lemma account_search_None_iff (block : str) :
  re_search account_pattern block = None <->
  forall pre t, block = pre ++ t -> ~ marker t.
Proof.
  split.
  - unfold re_search. intros H pre t Hs Hm.
    destruct (scan account_pattern false None block) as [x|] eqn:E; [discriminate|].
    assert (Hn := scan_None _ _ _ _ E pre t Hs).
    replace (ma_at false pre) with false in Hn by reflexivity.
    apply marker_account_digits in Hm as [ws [ds [rest [-> [Hws [Hne Hds]]]]]].
    destruct (account_here (last_of None pre) ws ds rest Hws Hne Hds) as [st [E' _]].
    rewrite E' in Hn. discriminate.
  - intros H. destruct (re_search account_pattern block) as [m|] eqn:E; [|reflexivity].
    apply account_search_inv in E as [ws [ds [rest [Hs [Hws [_ [Hds _]]]]]]].
    exfalso. apply (H _ _ Hs). now apply account_digits_marker.
Qed.

(** ** The three ways [extract_date_of_service] returns *)

Lemma date_of_service_cases (block : str) :
  (extract_date_of_service block = [] /\ re_findall date_pattern block = [])
  \/ (date_text (extract_date_of_service block)
      /\ whole_word_in block (extract_date_of_service block)).
Proof.
  assert (Hfall : (match re_findall date_pattern block with d :: _ => d | [] => [] end = []
                   /\ re_findall date_pattern block = [])
                  \/ (date_text match re_findall date_pattern block with
                                | d :: _ => d | [] => [] end
                      /\ whole_word_in block
                           match re_findall date_pattern block with
                           | d :: _ => d | [] => [] end)).
  { destruct (re_findall date_pattern block) as [|d ds] eqn:E; [now left|].
    right. apply findall_date_whole. rewrite E. now left. }
  unfold extract_date_of_service, date_after_account_line.
  destruct (re_search account_line_re block) as [m|] eqn:E; [|exact Hfall].
  cbv zeta.
  destruct (re_search date_pattern (group_1 m)) as [dm|] eqn:Ed; [|exact Hfall].
  right. apply search_date_whole in Ed as [H1 H2]. split; [exact H1|].
  apply account_line_group in E as [pre [after_line [Hb Ha]]].
  rewrite Hb at 1. now apply whole_word_in_line.
Qed.

Lemma blocks_of_joined (first : str) (rest_blocks : list str) :
  (forall pre t, first = pre ++ t -> ~ marker t) ->
  Forall marker rest_blocks ->
  (forall b, In b rest_blocks ->
     forall pre t, b = pre ++ t -> pre <> [] -> ~ marker t) ->
  blocks_of (first ++ concat rest_blocks) = first :: rest_blocks.
Proof.
  intros Hfirst Hm Hin. unfold blocks_of. rewrite re_split_eq.
  apply split_from_blocks; [now apply good_blocks_intro| |discriminate].
  intros pre t E Ht _ Hmt. apply (Hfirst pre t E).
  exact (marker_fit t _ Ht Hmt (concat_markers _ Hm)).
Qed.

Lemma table_of_joined (first : str) (rest_blocks : list str) :
  (forall pre t, first = pre ++ t -> ~ marker t) ->
  Forall marker rest_blocks ->
  (forall b, In b rest_blocks ->
     forall pre t, b = pre ++ t -> pre <> [] -> ~ marker t) ->
  table_of (first ++ concat rest_blocks) = drop_duplicates (parse_blocks rest_blocks).
Proof.
  intros Hfirst Hm Hin.
  now apply (table_of_later_blocks _ _ _ (blocks_of_joined _ _ Hfirst Hm Hin)).
Qed.

(** ** Five digits and what follows them *)

(** Five digits that stand as a word and are followed by a modifier are
    read with it. *)
Lemma cpt_here_modifier (ma : bool) (p : option ascii) (ds rest' : str) (x y : ascii) :
  word_opt p = false -> length ds = 5 -> forallb is_digit ds = true ->
  is_alnum x = true -> is_alnum y = true -> ends_word rest' ->
  match_here cpt_pattern ma p (ds ++ "-"%char :: x :: y :: rest')
  = Some (MState (last_of p (ds ++ ["-"%char; x; y])) rest'
            (rev (ds ++ ["-"%char; x; y])) None).
Proof.
  intros Hp Hl Hd Hx Hy Hrest.
  assert (H1 : word_opt (hd_error (ds ++ "-"%char :: x :: y :: rest')) = true).
  { destruct ds as [|d1 ds]; [discriminate|]. simpl in Hd.
    apply andb_true_iff in Hd as [Hd _]. now apply digit_is_word. }
  unfold match_here, cpt_pattern, digit, Opt, chr. cbn [Cat].
  rewrite matchk_Seq, matchk_WordB.
  assert (B0 : at_boundary (MState p (ds ++ "-"%char :: x :: y :: rest') [] None) = true).
  { unfold at_boundary. cbn [m_prev m_rest]. now rewrite Hp, H1. }
  rewrite B0, matchk_Seq.
  rewrite matchk_Rep_Chr with (ds := ds) (t := "-"%char :: x :: y :: rest');
    [|reflexivity|assumption|assumption].
  rewrite matchk_Seq, matchk_Alt, matchk_Seq.
  rewrite matchk_Chr with (a := "-"%char) (t := x :: y :: rest') by reflexivity.
  rewrite Ascii.eqb_refl, after_after.
  rewrite matchk_Rep_Chr with (ds := [x; y]) (t := rest');
    [|reflexivity|reflexivity|simpl; now rewrite !alnum_ignorecase].
  rewrite after_after, matchk_WordB.
  assert (B1 : at_boundary
                 (after (MState p (ds ++ "-"%char :: x :: y :: rest') [] None)
                    ((ds ++ ["-"%char]) ++ [x; y]) rest') = true).
  { unfold at_boundary, after. cbn [m_prev m_rest].
    change ((ds ++ ["-"%char]) ++ [x; y]) with ((ds ++ ["-"%char]) ++ [x] ++ [y]).
    rewrite !app_assoc, last_of_snoc. cbn [word_opt].
    rewrite (alnum_is_word _ Hy).
    destruct rest' as [|a rest']; [reflexivity|]. simpl in Hrest. simpl.
    now rewrite Hrest. }
  rewrite B1. unfold accept, after. cbn [m_acc].
  replace (is_empty (rev ((ds ++ ["-"%char]) ++ [x; y]) ++ [])) with false.
  - rewrite andb_false_r. cbn [or_else]. rewrite app_nil_r, <- !app_assoc.
    reflexivity.
  - rewrite app_nil_r, rev_app_distr. reflexivity.
Qed.

(** What [cpt_pattern] reads at five digits that stand as a word is the
    five digits, or the five digits and a modifier that follows them. *)
Lemma cpt_here_cases (ma : bool) (p : option ascii) (ds rest : str) (st : mstate) :
  length ds = 5 ->
  match_here cpt_pattern ma p (ds ++ rest) = Some st ->
  (rev (m_acc st) = ds /\ m_rest st = rest)
  \/ (modifier_follows rest
      /\ exists x y, rev (m_acc st) = ds ++ ["-"%char; x; y]).
Proof.
  intros Hl H. apply match_here_sound in H as [w [Hs [Hacc [_ [M _]]]]].
  rewrite Hacc, rev_involutive.
  assert (Hw := Matches_cpt_pattern _ _ _ M).
  destruct (Matches_cpt_whole _ _ _ M) as [_ Hend].
  destruct Hw as [ds' [Hl' [Hd' Hw]]].
  assert (E : ds' = ds /\ (w = ds \/ exists x y, w = ds ++ ["-"%char; x; y]
                                               /\ is_alnum x = true /\ is_alnum y = true)).
  { destruct Hw as [->|[x [y [-> [Hx Hy]]]]].
    - apply app_eq_app in Hs as [l [[H1 H2]|[H1 H2]]].
      + assert (l = []) by (apply (f_equal (@length ascii)) in H1;
                            rewrite length_app in H1; destruct l; [reflexivity|simpl in H1; lia]).
        subst l. rewrite app_nil_r in H1. subst. auto.
      + assert (l = []) by (apply (f_equal (@length ascii)) in H1;
                            rewrite length_app in H1; destruct l; [reflexivity|simpl in H1; lia]).
        subst l. rewrite app_nil_r in H1. subst. auto.
    - rewrite <- app_assoc in Hs. apply app_eq_app in Hs as [l [[H1 H2]|[H1 H2]]].
      + assert (l = []) by (apply (f_equal (@length ascii)) in H1;
                            rewrite length_app in H1; destruct l; [reflexivity|simpl in H1; lia]).
        subst l. rewrite app_nil_r in H1. subst. split; [reflexivity|]. right. eauto.
      + assert (l = []) by (apply (f_equal (@length ascii)) in H1;
                            rewrite length_app in H1; destruct l; [reflexivity|simpl in H1; lia]).
        subst l. rewrite app_nil_r in H1. subst. split; [reflexivity|]. right. eauto. }
  destruct E as [-> [->|[x [y [-> [Hx Hy]]]]]].
  - left. split; [reflexivity|]. now apply app_inv_head in Hs.
  - right. rewrite <- app_assoc in Hs. apply app_inv_head in Hs. cbn [app] in Hs.
    split; [|now exists x, y].
    exists x, y, (m_rest st). split; [assumption|]. split; [assumption|].
    split; [assumption|]. unfold ends_word. destruct (m_rest st); [exact I | exact Hend].
Qed.

(** In a block that begins with a marker of five digits standing as a
    word, the first CPT code is read at these digits: it is the account
    number unless a modifier follows, and the account number with the
    modifier when one does. *)
Lemma cpt_first_at_account (ws ds rest : str) :
  forallb is_space ws = true -> length ds = 5 -> forallb is_digit ds = true ->
  ends_word rest ->
  (~ modifier_follows rest ->
   exists cs, re_findall cpt_pattern (py "Account:" ++ ws ++ ds ++ rest) = ds :: cs)
  /\ (forall x y rest',
        rest = "-"%char :: x :: y :: rest' ->
        is_alnum x = true -> is_alnum y = true -> ends_word rest' ->
        exists cs, re_findall cpt_pattern (py "Account:" ++ ws ++ ds ++ rest)
                   = (ds ++ ["-"%char; x; y]) :: cs).
Proof.
  intros Hws Hl Hd Hrest.
  assert (Hhead := re_findall_head cpt_pattern (py "Account:" ++ ws ++ ds ++ rest)).
  unfold re_search in Hhead.
  rewrite app_assoc, scan_cpt_skip in Hhead by now apply account_prefix_no_digit.
  rewrite <- app_assoc in Hhead.
  split.
  - intros Hno.
    destruct (cpt_here_digits (ma_at false (py "Account:" ++ ws))
                (last_of None (py "Account:" ++ ws)) ds rest
                (account_prefix_last ws Hws) Hl Hd Hrest) as [Hsome _].
    destruct (match_here cpt_pattern (ma_at false (py "Account:" ++ ws))
                (last_of None (py "Account:" ++ ws)) (ds ++ rest)) as [st|] eqn:E;
      [|contradiction].
    rewrite (scan_first _ _ _ _ _ E) in Hhead. cbn in Hhead.
    destruct (cpt_here_cases _ _ _ _ _ Hl E) as [[Hw _]|[Hm _]]; [|contradiction].
    now rewrite Hw in Hhead.
  - intros x y rest' -> Hx Hy Hr.
    rewrite (scan_first _ _ _ _ _
               (cpt_here_modifier (ma_at false (py "Account:" ++ ws))
                  (last_of None (py "Account:" ++ ws)) ds rest' x y
                  (account_prefix_last ws Hws) Hl Hd Hx Hy Hr)) in Hhead.
    cbn in Hhead. now rewrite rev_involutive in Hhead.
Qed.

(** ** The length of a title, and of the longest candidate *)

Lemma title_length (s : str) : length (title s) = length s.
Proof. symmetry. apply (Forall2_length (title_same_letter s)). Qed.

Lemma first_longest_longest (m : str) (xs : list str) :
  first_longest m xs -> forall x, In x xs -> length x <= length m.
Proof.
  intros [l1 [l2 [-> [H1 H2]]]] x Hx. apply in_app_or in Hx as [Hx|[<-|Hx]].
  - apply Nat.lt_le_incl. now apply H1.
  - apply le_n.
  - now apply H2.
Qed.

(** ** White space and letters above ASCII

    The no-break space U+00A0 is white space for [\s] and for [strip],
    and the letters and numbers of Latin-1 are word characters for
    [\b]. *)

Example split_at_no_break_space :
  blocks_of (py "Account: 1111 99213 Account:" ++ nbsp :: py "2222 99214")
  = [[]; py "Account: 1111 99213 "; py "Account:" ++ nbsp :: py "2222 99214"]
  /\ keys (table_of (py "Account: 1111 99213 Account:" ++ nbsp :: py "2222 99214"))
     = [py "1111"; py "2222"].
Proof. vm_compute. split; reflexivity. Qed.

Example account_line_after_no_break_space :
  extract_date_of_service
    (py "Account:" ++ nbsp :: py "1234 01/01/2001" ++ newline :: py "02/02/2002")
  = py "02/02/2002".
Proof. vm_compute. reflexivity. Qed.

Example no_text_in_no_break_space : run [nbsp; newline] = NoTextFound.
Proof. vm_compute. reflexivity. Qed.

Example no_code_after_a_letter :
  re_findall cpt_pattern (e_acute :: py "12345") = []
  /\ re_findall date_pattern (e_acute :: py "01/02/2020") = []
  /\ re_findall cpt_pattern (py "Account: 12345" ++ one_half :: py " DOE JOHN") = [].
Proof. vm_compute. repeat split. Qed.

Example run_between_two_numbers :
  extract_patient_name (one_half :: py " , . " ++ [one_half]) = py ", .".
Proof. vm_compute. reflexivity. Qed.

(** * The properties of the specification *)

(** ** Deduplication *)

(** C1.  No two records of the final table have the same account number.
    The table is the list of the records read in block order, some left
    out and the others in their order: a record is kept exactly when no
    earlier record has its account number, so the first occurrences stay.
    When an earlier and a later block both give a record with the same
    account number, the earlier being the first to do so, the table holds
    the record of the earlier block, with its four fields, and any record
    of the table with that account number is this one. *)
Theorem C1_first_occurrence_kept (full_text : str) :
  NoDup (keys (table_of full_text))
  /\ subseq (table_of full_text) (parse_blocks (blocks_of full_text))
  /\ (forall rows r,
        drop_duplicates (rows ++ [r]) =
        if str_in (account_number r) (keys rows)
        then drop_duplicates rows else drop_duplicates rows ++ [r])
  /\ (forall r, In r (table_of full_text) ->
        exists l1 l2, parse_blocks (blocks_of full_text) = l1 ++ r :: l2
                      /\ ~ In (account_number r) (keys l1))
  /\ (forall bs1 b1 bs2 b2 bs3 r1 r2,
        blocks_of full_text = bs1 ++ b1 :: bs2 ++ b2 :: bs3 ->
        parse_block b1 = Some r1 -> parse_block b2 = Some r2 ->
        account_number r1 = account_number r2 ->
        ~ In (account_number r1) (keys (parse_blocks bs1)) ->
        In r1 (table_of full_text)
        /\ forall r, In r (table_of full_text) ->
                     account_number r = account_number r2 -> r = r1).
Proof.
  split; [apply drop_duplicates_seen_NoDup|].
  split; [apply drop_duplicates_seen_subseq|].
  split; [apply drop_duplicates_snoc|].
  split; [intros r H; eapply drop_duplicates_seen_is_first; exact H|].
  intros bs1 b1 bs2 b2 bs3 r1 r2 Hb H1 H2 Hk Hfirst.
  assert (Hrows : parse_blocks (blocks_of full_text)
                  = parse_blocks bs1 ++ r1 :: parse_blocks (bs2 ++ b2 :: bs3)).
  { rewrite Hb, parse_blocks_app. f_equal.
    change (b1 :: bs2 ++ b2 :: bs3) with ([b1] ++ (bs2 ++ b2 :: bs3)).
    rewrite parse_blocks_app. rewrite (parse_blocks_flat_map [b1]). simpl.
    unfold record_of. now rewrite H1. }
  split.
  - unfold table_of, drop_duplicates. rewrite Hrows.
    apply drop_duplicates_seen_first. now rewrite app_nil_r.
  - intros r Hr Hkr. unfold table_of, drop_duplicates in Hr.
    apply drop_duplicates_seen_is_first in Hr as [l1 [l2 [E Hn]]].
    symmetry.
    eapply (first_occurrence_unique _ _ _ _ _ _ _ Hrows E); try assumption.
    congruence.
Qed.

(** A text in two blocks with the account number 5001: the record of
    the first block is the one of the table. *)
Lemma C1_first_occurrence_kept_witness :
  In (Record_ (py "5001") [] [] (py "99213"))
     (table_of (py "Account: 5001 99213 Account: 5001 99214"))
  /\ forall r, In r (table_of (py "Account: 5001 99213 Account: 5001 99214")) ->
               account_number r = py "5001" ->
               r = Record_ (py "5001") [] [] (py "99213").
Proof.
  apply (proj2 (proj2 (proj2 (proj2
           (C1_first_occurrence_kept (py "Account: 5001 99213 Account: 5001 99214")))))
           [[]] (py "Account: 5001 99213 ") [] (py "Account: 5001 99214") []
           (Record_ (py "5001") [] [] (py "99213"))
           (Record_ (py "5001") [] [] (py "99214"))).
  - vm_compute. reflexivity.
  - vm_compute. reflexivity.
  - vm_compute. reflexivity.
  - reflexivity.
  - vm_compute. intros H. exact H.
Defined.

(** ** Blocks without a record *)

(** C2.  A block in which [account_pattern] matches but for which
    [extract_cpt_codes] returns the empty string gives no record; the
    loop goes on, and the records of the other blocks are those it would
    have read without this block. *)
Theorem C2_no_cpt_codes_no_record (block : str) :
  re_search account_pattern block <> None ->
  extract_cpt_codes block = [] ->
  parse_block block = None
  /\ forall bs1 bs2,
       parse_blocks (bs1 ++ block :: bs2) = parse_blocks bs1 ++ parse_blocks bs2.
Proof.
  intros _ Hc.
  assert (H : parse_block block = None).
  { unfold parse_block. destruct (is_blank block); [reflexivity|].
    destruct (re_search account_pattern block); [|reflexivity].
    now rewrite Hc. }
  split; [exact H|]. intros bs1 bs2.
  change (block :: bs2) with ([block] ++ bs2).
  rewrite !parse_blocks_app, (parse_blocks_flat_map [block]). simpl.
  unfold record_of. now rewrite H.
Qed.

(** A block with an account number, a name and a date, and no code. *)
Lemma C2_no_cpt_codes_no_record_witness :
  parse_block (py "Account: 1234 DOE JOHN 01/02/2020") = None
  /\ forall bs1 bs2,
       parse_blocks (bs1 ++ py "Account: 1234 DOE JOHN 01/02/2020" :: bs2)
       = parse_blocks bs1 ++ parse_blocks bs2.
Proof.
  apply (C2_no_cpt_codes_no_record (py "Account: 1234 DOE JOHN 01/02/2020")).
  - vm_compute. discriminate.
  - vm_compute. reflexivity.
Defined.

(** C3.  As stated the claim fails: the block below has an account
    number, a patient name and a date of service but no CPT code, and no
    record is made of it, so the absence of the CPT codes alone prevents
    the record. *)
Lemma C3_counterexample :
  option_map group_1
    (re_search account_pattern (py "Account: 1234 DOE JOHN 01/02/2020")) = Some (py "1234")
  /\ extract_patient_name (py "Account: 1234 DOE JOHN 01/02/2020") = py "Doe John"
  /\ extract_date_of_service (py "Account: 1234 DOE JOHN 01/02/2020") = py "01/02/2020"
  /\ extract_cpt_codes (py "Account: 1234 DOE JOHN 01/02/2020") = []
  /\ parse_block (py "Account: 1234 DOE JOHN 01/02/2020") = None.
Proof. vm_compute. repeat split. Qed.

(** C3, amended.  A block gives a record exactly when the account-number
    pattern is found in it and [extract_cpt_codes] is not empty: without
    the account number the block is skipped, and so it is without CPT
    codes; the patient name and the date of service are taken as they
    come, empty or not, and never prevent the record. *)
Theorem C3_fatal_fields (block : str) :
  (re_search account_pattern block = None -> parse_block block = None)
  /\ (extract_cpt_codes block = [] -> parse_block block = None)
  /\ (forall m, re_search account_pattern block = Some m ->
                extract_cpt_codes block <> [] ->
                parse_block block =
                Some (Record_ (group_1 m) (extract_patient_name block)
                        (extract_date_of_service block) (extract_cpt_codes block))).
Proof.
  split; [|split].
  - intros H. unfold parse_block. rewrite H. now destruct (is_blank block).
  - intros H. unfold parse_block. rewrite H.
    destruct (is_blank block); [reflexivity|].
    now destruct (re_search account_pattern block).
  - apply parse_block_intro.
Qed.

(** A block with an account number and a CPT code, without a name and
    without a date: the record is made, its name and date empty. *)
Lemma C3_fatal_fields_witness :
  parse_block (py "Account: 1234 99213") =
  Some (Record_ (py "1234") [] [] (py "99213")).
Proof.
  destruct (re_search account_pattern (py "Account: 1234 99213")) as [m|] eqn:E;
    [|vm_compute in E; discriminate].
  rewrite (proj2 (proj2 (C3_fatal_fields (py "Account: 1234 99213"))) m E).
  - vm_compute in E. injection E as <-. vm_compute. reflexivity.
  - vm_compute. discriminate.
Defined.

(** ** Texts without a marker *)

(** C8.  For every text that holds no [Account:] the table is empty.
    When such a text is not blank the script shows the warning "No valid
    account data"; when it is empty or holds white space only, the script
    stops earlier, on "No text found", which is the other condition, the
    one the claim sets apart. *)
Theorem C8_no_marker_no_data (full_text : str) :
  contains (py "Account:") full_text = false ->
  table_of full_text = []
  /\ (is_blank full_text = false -> run full_text = NoValidData [])
  /\ (is_blank full_text = true -> run full_text = NoTextFound)
  /\ NoTextFound <> NoValidData [].
Proof.
  intros H. assert (Ht := no_account_table full_text H).
  split; [exact Ht|]. unfold run. rewrite Ht.
  split; [|split]; try (intros ->; reflexivity). discriminate.
Qed.

(** A text with a date and no marker. *)
Lemma C8_no_marker_no_data_witness :
  run (py "Statement of 01/02/2020, nothing due") = NoValidData [].
Proof.
  apply (C8_no_marker_no_data (py "Statement of 01/02/2020, nothing due")).
  - vm_compute. reflexivity.
  - vm_compute. reflexivity.
Defined.

(** ** The segmentation *)

(** C7.  The split consumes nothing: the blocks, put end to end, are the
    text.  Every block after the first begins with a marker ([Account:],
    white space if any, four digits), and no marker begins anywhere else:
    not in the first block, which is the text before the first marker and
    is kept (empty when the text begins with a marker), and not further
    inside a later block; so the text is cut at every marker.  A marker
    followed by a fifth digit is a marker all the same, and
    [account_pattern] reads the five digits of such a block. *)
Theorem C7_segmentation (full_text : str) :
  exists first rest_blocks,
    blocks_of full_text = first :: rest_blocks
    /\ concat (blocks_of full_text) = full_text
    /\ Forall marker rest_blocks
    /\ (forall pre t, first = pre ++ t -> ~ marker t)
    /\ (forall b, In b rest_blocks ->
          forall pre t, b = pre ++ t -> pre <> [] -> ~ marker t)
    /\ (forall pre t, full_text = pre ++ t -> marker t ->
          exists bs1 bs2, blocks_of full_text = bs1 ++ bs2 /\ bs1 <> []
                          /\ concat bs1 = pre /\ concat bs2 = t)
    /\ (forall ws ds rest,
          forallb is_space ws = true -> length ds = 5 ->
          forallb is_digit ds = true ->
          marker (py "Account:" ++ ws ++ ds ++ rest)
          /\ option_map group_1
               (re_search account_pattern (py "Account:" ++ ws ++ ds ++ rest))
             = Some ds).
Proof.
  destruct (blocks_of_inv full_text) as [b0 [bs [Hb [Hc [H0 Hg]]]]].
  exists b0, bs. split; [exact Hb|]. split; [now rewrite Hb|].
  split; [now apply good_blocks_markers|]. split; [|split; [|split]].
  - intros pre t Hp Hm. apply (H0 pre t Hp).
    + now apply marker_nonempty.
    + now apply marker_app.
  - now apply good_blocks_inside.
  - intros pre t. apply blocks_of_boundary.
  - intros ws ds rest Hws Hl Hd. split; [now apply marker_five_digits|].
    apply account_number_at_marker; [assumption| |].
    + intros ->. discriminate.
    + split; [assumption | now left].
Qed.

(** A text with a preamble and two accounts, the first with five digits:
    the place where the first marker begins is the start of a block. *)
Lemma C7_segmentation_witness :
  exists bs1 bs2,
    blocks_of (py "Page 1 Account: 12345 99213 Account:6789 99214") = bs1 ++ bs2
    /\ bs1 <> [] /\ concat bs1 = py "Page 1 "
    /\ concat bs2 = py "Account: 12345 99213 Account:6789 99214".
Proof.
  destruct (C7_segmentation (py "Page 1 Account: 12345 99213 Account:6789 99214"))
    as [first [rest_blocks [_ [_ [_ [_ [_ [H _]]]]]]]].
  apply (H (py "Page 1 ") (py "Account: 12345 99213 Account:6789 99214")).
  - reflexivity.
  - exists (py " "), (py "1234"), (py "5 99213 Account:6789 99214").
    repeat split.
Defined.

(** ** The patient name *)




(** ** The ignore list *)

(** C10.  As stated the claim fails on a run of one token: in the block
    [YES] the run [YES] has the token [YES] and no token of the local
    ignore list, and it is discarded all the same, for it has fewer than
    two tokens. *)
Lemma C10_counterexample :
  re_findall upper_name_re (py "YES") = [py "YES"]
  /\ split_ws (py "YES") = [py "YES"]
  /\ existsb (fun w => str_in w local_ignore_words) (split_ws (py "YES")) = false
  /\ clean_upper_of local_ignore_words (py "YES") = []
  /\ extract_patient_name (py "YES") = [].
Proof. vm_compute. repeat split. Qed.

(** C10, amended.  [extract_patient_name] reads its own ignore list,
    which has GENESISC, NOT, USE, BCBS and FBU and has neither YES nor NO;
    the module-level list, which has YES and NO, is not read.  So an
    upper-case run of a block whose tokens include YES or NO and no word
    of the local list is not discarded for its words, as it would be with
    the module-level list, and when it has at least two tokens it is a
    candidate of the first tier: [extract_patient_name] then returns a
    name of the first tier, in title case, that is at least as long as
    the run stripped, and so not empty. *)
Theorem C10_local_ignore_list (block run : str) :
  In run (re_findall upper_name_re block) ->
  In (py "YES") (split_ws run) \/ In (py "NO") (split_ws run) ->
  no_ignored_token local_ignore_words run ->
  (Forall (fun w => In w local_ignore_words)
     [py "GENESISC"; py "NOT"; py "USE"; py "BCBS"; py "FBU"]
   /\ ~ In (py "YES") local_ignore_words /\ ~ In (py "NO") local_ignore_words
   /\ In (py "YES") ignore_words /\ In (py "NO") ignore_words)
  /\ keep_upper ignore_words run = false
  /\ (2 <= length (split_ws run) ->
      keep_upper local_ignore_words run = true
      /\ exists n, first_longest n (clean_upper_of local_ignore_words block)
                   /\ extract_patient_name block = title n
                   /\ length (strip run) <= length (extract_patient_name block)
                   /\ extract_patient_name block <> []).
Proof.
  intros Hrun Hyn Hloc. split; [|split].
  - split; [repeat (apply Forall_cons; [apply str_in_In; reflexivity|]);
            apply Forall_nil|].
    repeat split; try (apply str_in_not_In; reflexivity);
      apply str_in_In; reflexivity.
  - unfold keep_upper. apply andb_false_iff. left. apply negb_false_iff.
    apply existsb_exists. destruct Hyn as [H|H]; eexists; (split; [exact H|]);
      reflexivity.
  - intros H2. split; [now apply keep_upper_iff|].
    assert (Hin : In (strip run) (clean_upper_of local_ignore_words block)).
    { apply clean_upper_of_In. exists run. auto. }
    unfold extract_patient_name. cbv zeta.
    destruct (max_by_len (clean_upper_of local_ignore_words block)) as [n|] eqn:E.
    + apply max_by_len_spec in E. exists n. split; [exact E|].
      split; [reflexivity|].
      assert (Hlen : length (strip run) <= length (title n)).
      { rewrite title_length. exact (first_longest_longest _ _ E _ Hin). }
      split; [exact Hlen|]. intros Hnil. rewrite Hnil in Hlen.
      assert (Hs : strip run = []) by (destruct (strip run); [reflexivity | simpl in Hlen; lia]).
      rewrite <- split_ws_strip, Hs in H2. simpl in H2. lia.
    + apply max_by_len_None in E. rewrite E in Hin. contradiction.
Qed.

(** The block [NO SHOW]: its run is kept, and it is the name. *)
Lemma C10_local_ignore_list_witness :
  keep_upper local_ignore_words (py "NO SHOW") = true
  /\ exists n, first_longest n (clean_upper_of local_ignore_words (py "NO SHOW"))
               /\ extract_patient_name (py "NO SHOW") = title n
               /\ length (strip (py "NO SHOW")) <= length (extract_patient_name (py "NO SHOW"))
               /\ extract_patient_name (py "NO SHOW") <> [].
Proof.
  apply (proj2 (proj2
           (C10_local_ignore_list (py "NO SHOW") (py "NO SHOW")
              ltac:(vm_compute; left; reflexivity)
              ltac:(right; vm_compute; left; reflexivity)
              ltac:(intros w Hw; apply str_in_not_In;
                    vm_compute in Hw; destruct Hw as [<-|[<-|[]]]; reflexivity)))).
  vm_compute. apply le_n.
Defined.

(** ** Account numbers of five digits *)

(** C9.  As stated the claim fails.  In the block below the marker is
    followed by six digits: [account_pattern] reads the first five as the
    account number, a string that matches the pattern of a CPT code, but
    in the block these digits do not end at a word boundary, so
    [cpt_pattern] finds no code and the block gives no record. *)
Lemma C9_counterexample :
  option_map group_1
    (re_search account_pattern (py "Account: 123456 DOE JOHN 01/02/2020"))
  = Some (py "12345")
  /\ matches_cpt_shape (py "12345") = true
  /\ re_findall cpt_pattern (py "Account: 123456 DOE JOHN 01/02/2020") = []
  /\ extract_cpt_codes (py "Account: 123456 DOE JOHN 01/02/2020") = []
  /\ parse_block (py "Account: 123456 DOE JOHN 01/02/2020") = None.
Proof. vm_compute. repeat split. Qed.

(** C9, amended.  Take a block that begins with its marker and whose
    account number has five digits, followed by the end of the block or
    by a character that is no word character.  The account number matches
    the pattern of a CPT code, [extract_cpt_codes] is not empty for the
    block, and the block gives a record with this account number: the
    rule on blocks without CPT code never excludes it.  The account
    number is itself one of the codes, unless a modifier follows it: a
    hyphen, two letters or digits, and then the end of the block or a
    character that is no word character; the code read there is then the
    account number with this modifier. *)
Theorem C9_five_digit_account (ws ds rest : str) :
  forallb is_space ws = true -> length ds = 5 -> forallb is_digit ds = true ->
  ends_word rest ->
  option_map group_1 (re_search account_pattern (py "Account:" ++ ws ++ ds ++ rest))
  = Some ds
  /\ matches_cpt_shape ds = true
  /\ extract_cpt_codes (py "Account:" ++ ws ++ ds ++ rest) <> []
  /\ (exists r, parse_block (py "Account:" ++ ws ++ ds ++ rest) = Some r
                /\ account_number r = ds)
  /\ (~ modifier_follows rest ->
      In ds (re_findall cpt_pattern (py "Account:" ++ ws ++ ds ++ rest))
      /\ In ds (split_on (py ", ")
                  (extract_cpt_codes (py "Account:" ++ ws ++ ds ++ rest))))
  /\ (forall x y rest',
        rest = "-"%char :: x :: y :: rest' ->
        is_alnum x = true -> is_alnum y = true -> ends_word rest' ->
        In (ds ++ ["-"%char; x; y])
           (split_on (py ", ")
              (extract_cpt_codes (py "Account:" ++ ws ++ ds ++ rest)))).
Proof.
  intros Hws Hl Hd Hrest.
  assert (Hacc : option_map group_1
                   (re_search account_pattern (py "Account:" ++ ws ++ ds ++ rest))
                 = Some ds).
  { apply account_number_at_marker; [assumption| |split; [assumption|now left]].
    intros ->. discriminate. }
  destruct (cpt_search_at_account ws ds rest Hws Hl Hd Hrest) as [[m0 Hm0] _].
  destruct (cpt_first_at_account ws ds rest Hws Hl Hd Hrest) as [Hplain Hmod].
  assert (Hne : extract_cpt_codes (py "Account:" ++ ws ++ ds ++ rest) <> []).
  { intros E. apply extract_cpt_codes_nil in E.
    assert (Hh := re_findall_head cpt_pattern (py "Account:" ++ ws ++ ds ++ rest)).
    rewrite Hm0 in Hh. destruct Hh as [cs Hh]. rewrite E in Hh. discriminate. }
  split; [exact Hacc|]. split; [|split; [exact Hne|split; [|split]]].
  - apply cpt_text_shape. exists ds. auto.
  - destruct (re_search account_pattern (py "Account:" ++ ws ++ ds ++ rest))
      as [m|] eqn:Em; [|discriminate].
    simpl in Hacc. injection Hacc as Hg.
    eexists. split; [apply (parse_block_intro _ m Em Hne)|]. exact Hg.
  - intros Hno. destruct (Hplain Hno) as [cs Hcs].
    assert (Hin : In ds (re_findall cpt_pattern (py "Account:" ++ ws ++ ds ++ rest)))
      by (rewrite Hcs; now left).
    split; [exact Hin|].
    destruct (extract_cpt_codes_split _ Hne) as [_ ->]. now apply In_sorted_set.
  - intros x y rest' Hr Hx Hy Hw. destruct (Hmod x y rest' Hr Hx Hy Hw) as [cs Hcs].
    destruct (extract_cpt_codes_split _ Hne) as [_ ->]. apply In_sorted_set.
    rewrite Hcs. now left.
Qed.

(** The account number 12345 followed by a hyphen and three letters: no
    modifier follows, and the account number is one of the codes. *)
Lemma C9_five_digit_account_witness :
  In (py "12345")
     (split_on (py ", ") (extract_cpt_codes (py "Account: 12345-ABC 99213"))).
Proof.
  apply (proj1 (proj2 (proj2 (proj2 (proj2
           (C9_five_digit_account (py " ") (py "12345") (py "-ABC 99213")
              eq_refl eq_refl eq_refl eq_refl)))))).
  intros [x [y [rest' [E [_ [_ H]]]]]]. injection E as <- <- <-. discriminate H.
Defined.

(** ** The date of service *)



(** * What else the script guarantees *)

(** ** The patient name *)

(** X1.  Whatever the block, the name [extract_patient_name] returns is
    made of letters, spaces, commas, periods, apostrophes and hyphens:
    it holds no digit, no line feed and no other sign. *)
Theorem patient_name_characters (block : str) :
  forallb name_char (extract_patient_name block) = true.
Proof.
  apply forallb_forall. apply Forall_forall.
  destruct (extract_patient_name_cases block)
    as [[n [Hn ->]]|[[_ [m [Hm ->]]]|[_ [_ ->]]]]; [| |constructor].
  - apply clean_upper_of_In in Hn as [run [Hrun [_ [_ ->]]]].
    assert (H := Forall_strip _ _ (upper_run_chars _ _ Hrun)).
    assert (T := title_aux_case (strip run) false). fold (title (strip run)) in T.
    revert H. induction T as [|a b s t Hab T IH]; intros H; [constructor|].
    inversion H as [|? ? Ha Hs]; subst.
    constructor; [|now apply IH].
    destruct (upper_class_name_char a Ha) as [H1 H2].
    destruct Hab as [->| ->]; assumption.
  - apply mixed_clean_of_In in Hm as [Hm _].
    apply Forall_strip. now apply mixed_match_chars in Hm.
Qed.

(** X2.  The name returned neither begins nor ends with white space:
    stripping it again changes nothing. *)
Theorem patient_name_trimmed (block : str) :
  strip (extract_patient_name block) = extract_patient_name block.
Proof.
  apply strip_fix.
  destruct (extract_patient_name_cases block)
    as [[n [Hn ->]]|[[_ [m [Hm ->]]]|[_ [_ ->]]]].
  - apply clean_upper_of_In in Hn as [run [_ [_ [_ ->]]]].
    apply title_trimmed, strip_trimmed.
  - apply strip_trimmed.
  - split; exact I.
Qed.

(** X3.  No word of the name returned is, in upper case, a word of the
    ignore list of [extract_patient_name], in whichever tier the name was
    found. *)
Theorem patient_name_no_ignored_word (block : str) :
  Forall (fun w => ~ In (upper w) local_ignore_words)
    (split_ws (extract_patient_name block)).
Proof.
  apply Forall_forall. intros w' Hw'.
  destruct (extract_patient_name_cases block)
    as [[n [Hn E]]|[[_ [m [Hm E]]]|[_ [_ E]]]]; rewrite E in Hw'.
  - apply clean_upper_of_In in Hn as [run [Hrun [Hign [_ ->]]]].
    assert (T := split_ws_Forall2 _ _ (title_same_letter (strip run))).
    destruct (Forall2_In_r _ _ _ _ T Hw') as [w [Hw Hww]].
    rewrite <- (same_letter_upper_eq _ _ Hww).
    rewrite split_ws_strip in Hw.
    assert (Hfix : upper w = w).
    { unfold upper. rewrite <- (map_id w) at 2. apply map_ext_in.
      intros a Ha. apply upper_class_fixed.
      assert (Hc := upper_run_chars _ _ Hrun). rewrite Forall_forall in Hc.
      apply Hc. exact (split_ws_In _ _ _ Hw Ha). }
    rewrite Hfix. now apply Hign.
  - apply mixed_clean_of_In in Hm as [_ Hign].
    rewrite split_ws_strip in Hw'. now apply Hign.
  - contradiction.
Qed.

(** X4.  The name returned is empty exactly when neither tier has a
    candidate, and a name that is not empty has at least two words. *)
Theorem patient_name_empty_or_two_words (block : str) :
  (extract_patient_name block = [] <->
   clean_upper_of local_ignore_words block = []
   /\ mixed_clean_of local_ignore_words block = [])
  /\ (extract_patient_name block = []
      \/ 2 <= length (split_ws (extract_patient_name block))).
Proof.
  assert (Hlen : forall s, 2 <= length (split_ws s) -> s <> []).
  { intros s H ->. simpl in H. lia. }
  destruct (extract_patient_name_cases block)
    as [[n [Hn E]]|[[Hu [m [Hm E]]]|[Hu [Hmx E]]]]; rewrite E.
  - assert (H2 : 2 <= length (split_ws (title n))).
    { assert (Hn' := Hn). apply clean_upper_of_In in Hn' as [run [_ [_ [H2 ->]]]].
      assert (L := Forall2_length (split_ws_Forall2 _ _ (title_same_letter (strip run)))).
      rewrite split_ws_strip in L.
      exact (Nat.le_trans _ _ _ H2 (Nat.eq_le_incl _ _ L)). }
    split; [|now right]. split.
    + intros H. now apply Hlen in H2.
    + intros [H _]. rewrite H in Hn. contradiction.
  - assert (H2 : 2 <= length (split_ws (strip m))).
    { apply mixed_clean_of_In in Hm as [Hm' _].
      rewrite split_ws_strip. now apply mixed_match_two_tokens in Hm'. }
    split; [|now right]. split.
    + intros H. now apply Hlen in H2.
    + intros [_ H]. rewrite H in Hm. contradiction.
  - split; [|now left]. split; auto.
Qed.

(** ** The account number *)

(** X5.  Every account number of the table is a string of four or five
    digits. *)
Theorem account_numbers_four_or_five_digits (full_text : str) :
  Forall (fun r => forallb is_digit (account_number r) = true
                   /\ 4 <= length (account_number r) <= 5)
    (table_of full_text).
Proof.
  apply Forall_forall. intros r Hr.
  apply table_of_In in Hr as [block [_ Hb]].
  apply parse_block_Some in Hb as [m [Hm [_ ->]]]. cbn [account_number].
  apply account_search_inv in Hm as [ws [ds [rest [_ [_ [_ [Hds ->]]]]]]].
  split; [apply Hds|]. apply account_digits_length in Hds. lia.
Qed.

(** X6.  The text before the first marker never gives a record, whatever
    it holds, so the table is read from the later blocks alone and has at
    most one record for each of them. *)
Theorem text_before_first_marker_gives_no_record (full_text : str) :
  exists first rest_blocks,
    blocks_of full_text = first :: rest_blocks
    /\ parse_block first = None
    /\ table_of full_text = drop_duplicates (parse_blocks rest_blocks)
    /\ length (table_of full_text) <= length rest_blocks.
Proof.
  destruct (blocks_of_inv full_text) as [first [rest_blocks [Hb _]]].
  exists first, rest_blocks. split; [exact Hb|].
  destruct (table_of_later_blocks _ _ _ Hb) as [H1 H2].
  split; [exact H1|]. split; [exact H2|]. rewrite H2.
  eapply Nat.le_trans; [apply drop_duplicates_length | apply parse_blocks_length].
Qed.

(** X7.  A record of the table comes from a block after the first, and
    the block begins with [Account:], white space if any, and the account
    number of the record: the digits that follow, five of them when five
    are there and four when the fifth character is no digit. *)
Theorem record_account_at_block_start (full_text : str) (r : record) :
  In r (table_of full_text) ->
  exists block ws rest,
    In block (tl (blocks_of full_text))
    /\ parse_block block = Some r
    /\ block = py "Account:" ++ ws ++ account_number r ++ rest
    /\ forallb is_space ws = true
    /\ account_digits (account_number r) rest.
Proof.
  intros Hr.
  destruct (blocks_of_inv full_text) as [first [rest_blocks [Hb _]]].
  destruct (table_of_later_blocks _ _ _ Hb) as [_ Ht].
  rewrite Ht in Hr. apply drop_duplicates_In, parse_blocks_In in Hr as [block [Hin Hp]].
  exists block. rewrite Hb. cbn [tl].
  destruct (parse_block_Some _ _ Hp) as [m [Hm [_ Hrec]]].
  assert (Hpre := later_block_account _ _ _ _ _ Hb Hin Hm).
  apply account_search_inv in Hm as [ws [ds [rest [Hs [Hws [_ [Hds Hg]]]]]]].
  rewrite Hpre in Hs. simpl in Hs.
  assert (Ha : account_number r = ds) by (rewrite Hrec; exact Hg).
  exists ws, rest. rewrite Ha. auto.
Qed.

(** The account number 12345 is read whole, and 1234 before a letter. *)
Lemma record_account_at_block_start_witness :
  exists block ws rest,
    In block (tl (blocks_of (py "Account: 12345 99213 Account:1234X 99214")))
    /\ parse_block block = Some (Record_ (py "1234") [] [] (py "99214"))
    /\ block = py "Account:" ++ ws ++ py "1234" ++ rest
    /\ forallb is_space ws = true
    /\ account_digits (py "1234") rest.
Proof.
  apply (record_account_at_block_start
           (py "Account: 12345 99213 Account:1234X 99214")
           (Record_ (py "1234") [] [] (py "99214"))).
  vm_compute. right. left. reflexivity.
Defined.

(** ** Deduplication *)

(** X8.  [drop_duplicates] loses no account number: the account numbers
    of its result are those of the rows it is given.  Rows whose account
    numbers are all different come back unchanged, in their order, and
    so does a table that has been deduplicated once. *)
Theorem drop_duplicates_keeps_account_numbers (rows : list record) :
  (forall k, In k (keys (drop_duplicates rows)) <-> In k (keys rows))
  /\ (NoDup (keys rows) -> drop_duplicates rows = rows)
  /\ drop_duplicates (drop_duplicates rows) = drop_duplicates rows.
Proof.
  split; [|split].
  - intros k. unfold drop_duplicates. rewrite drop_duplicates_seen_keys.
    simpl. tauto.
  - apply drop_duplicates_fix.
  - apply drop_duplicates_fix, drop_duplicates_seen_NoDup.
Qed.

(** Two rows with the account numbers 5001 and 5002. *)
Lemma drop_duplicates_keeps_account_numbers_witness :
  drop_duplicates [Record_ (py "5001") [] [] (py "99213");
                   Record_ (py "5002") [] [] (py "99213")]
  = [Record_ (py "5001") [] [] (py "99213");
     Record_ (py "5002") [] [] (py "99213")].
Proof.
  apply (proj1 (proj2 (drop_duplicates_keeps_account_numbers
           [Record_ (py "5001") [] [] (py "99213");
            Record_ (py "5002") [] [] (py "99213")]))).
  vm_compute. repeat constructor; simpl; intuition discriminate.
Defined.

(** ** CPT codes *)

(** X9.  The string of CPT codes depends on which codes the block holds,
    not on their order nor on how often each occurs: two blocks in which
    the same codes are found give the same string. *)
Theorem cpt_codes_depend_on_the_set (block1 block2 : str) :
  (forall c, In c (re_findall cpt_pattern block1)
             <-> In c (re_findall cpt_pattern block2)) ->
  extract_cpt_codes block1 = extract_cpt_codes block2.
Proof.
  intros H. rewrite !extract_cpt_codes_eq. f_equal.
  apply sorted_unique; try apply sorted_set_sorted.
  intros c. rewrite !In_sorted_set. apply H.
Qed.

(** The codes 99213 and 99214, in two orders and one of them twice. *)
Lemma cpt_codes_depend_on_the_set_witness :
  extract_cpt_codes (py "99214 99213 x 99214") = extract_cpt_codes (py "99213, 99214").
Proof.
  apply (cpt_codes_depend_on_the_set (py "99214 99213 x 99214") (py "99213, 99214")).
  vm_compute. intros c. tauto.
Defined.

(** ** The pages *)

(** X10.  The script stops on "No text found" exactly when every page of
    the document has no text or white space only; the line feed the loop
    puts after each page does not count as text. *)
Theorem no_text_found_iff_blank_pages (pages : list (option str)) :
  run (read_pages pages) = NoTextFound <-> Forall blank_page pages.
Proof.
  rewrite <- read_pages_blank. unfold run.
  destruct (is_blank (read_pages pages)); [now split|].
  split; [|discriminate].
  now destruct (is_empty_table (table_of (read_pages pages))).
Qed.

(** ** Dates and codes are whole words of the block *)

(** X11.  Whatever the block, the date [extract_date_of_service] returns
    is empty or a text of the block of the shape dd/dd/dddd that stands
    there as a whole word: no letter, digit or underscore touches it on
    either side. *)
Theorem date_of_service_is_a_date_of_the_block (block : str) :
  extract_date_of_service block = []
  \/ (date_text (extract_date_of_service block)
      /\ whole_word_in block (extract_date_of_service block)).
Proof.
  destruct (date_of_service_cases block) as [[H _]|H]; [now left | now right].
Qed.

(** X12.  Every CPT code of a record stands in the block of the record
    as a whole word: it is no part of a longer number or word. *)
Theorem cpt_codes_are_whole_words (block : str) (r : record) :
  parse_block block = Some r ->
  Forall (whole_word_in block) (split_on (py ", ") (cpt_codes r)).
Proof.
  intros H. apply parse_block_Some in H as [m [_ [Hne ->]]]. cbn [cpt_codes].
  destruct (extract_cpt_codes_split block Hne) as [_ ->].
  apply Forall_forall. intros c Hc. apply findall_cpt_whole.
  now apply In_sorted_set.
Qed.

(** A block with two codes, a number of six digits and five digits
    followed by a letter. *)
Lemma cpt_codes_are_whole_words_witness :
  Forall (whole_word_in (py "Account: 1234 99213 199214 99215-25 99216x"))
    [py "99213"; py "99215-25"].
Proof.
  apply (cpt_codes_are_whole_words (py "Account: 1234 99213 199214 99215-25 99216x")
           (Record_ (py "1234") [] [] (py "99213, 99215-25"))).
  vm_compute. reflexivity.
Defined.

(** ** Blocks without a letter or a digit *)

(** X13.  In a block that holds no letter, no digit and no underscore, as
    is an empty block or one of white space only, nothing is found: no
    account number, and the three extractors return the empty string. *)
Theorem extractors_on_a_block_without_words (block : str) :
  (is_blank block = true -> wordless block = true)
  /\ (wordless block = true ->
      re_search account_pattern block = None
      /\ extract_patient_name block = []
      /\ extract_date_of_service block = []
      /\ extract_cpt_codes block = []).
Proof.
  split; [apply blank_wordless|]. intros H.
  split; [exact (search_wordless _ _ account_pattern_needs_word H)|].
  split; [|split].
  - unfold extract_patient_name, clean_upper_of, mixed_clean_of.
    rewrite (findall_wordless _ _ upper_name_re_needs_word H).
    rewrite (findall_wordless _ _ mixed_name_re_needs_word H). reflexivity.
  - unfold extract_date_of_service, date_after_account_line.
    rewrite (search_wordless _ _ account_line_re_needs_word H).
    rewrite (findall_wordless _ _ date_pattern_needs_word H). reflexivity.
  - unfold extract_cpt_codes.
    rewrite (findall_wordless _ _ cpt_pattern_needs_word H). reflexivity.
Qed.

(** A block of punctuation in the shape of a date. *)
Lemma extractors_on_a_block_without_words_witness :
  re_search account_pattern (py " --/--/---- , . : ") = None
  /\ extract_patient_name (py " --/--/---- , . : ") = []
  /\ extract_date_of_service (py " --/--/---- , . : ") = []
  /\ extract_cpt_codes (py " --/--/---- , . : ") = [].
Proof.
  apply (proj2 (extractors_on_a_block_without_words (py " --/--/---- , . : "))).
  vm_compute. reflexivity.
Defined.

(** ** The outcome of the script *)

(** X14.  The script shows the table exactly when some block of the text
    has an account number and at least one CPT code; the table then has a
    record.  When the text is not blank and no block has both, it shows
    the warning over the empty table. *)
Theorem table_shown_iff_a_block_has_account_and_codes (full_text : str) :
  ((exists block, In block (blocks_of full_text)
                  /\ re_search account_pattern block <> None
                  /\ extract_cpt_codes block <> [])
   <-> run full_text = Extracted (table_of full_text))
  /\ (run full_text = Extracted (table_of full_text) -> table_of full_text <> [])
  /\ (run full_text = NoValidData []
      <-> is_blank full_text = false
          /\ forall block, In block (blocks_of full_text) ->
               re_search account_pattern block = None
               \/ extract_cpt_codes block = []).
Proof.
  assert (Hnone : forall block, parse_block block = None <->
            re_search account_pattern block = None \/ extract_cpt_codes block = []).
  { intros block. split.
    - intros H. destruct (re_search account_pattern block) as [m|] eqn:Em; [|now left].
      right. destruct (extract_cpt_codes block) as [|c cs] eqn:Ec; [reflexivity|].
      rewrite (parse_block_intro block m Em) in H; [discriminate|].
      rewrite Ec. discriminate.
    - intros [H|H]; [now apply parse_block_no_account|].
      unfold parse_block. rewrite H. destruct (is_blank block); [reflexivity|].
      now destruct (re_search account_pattern block). }
  assert (Hrun : run full_text = Extracted (table_of full_text) <->
                 is_blank full_text = false /\ table_of full_text <> []).
  { unfold run. destruct (is_blank full_text); [split; [discriminate|now intros [? _]]|].
    destruct (table_of full_text); simpl; split; try discriminate; auto.
    - now intros [_ H].
    - intros _. split; [reflexivity | discriminate]. }
  split; [|split].
  - rewrite Hrun. split.
    + intros [block [Hin [Ha Hc]]].
      assert (Hp : parse_block block <> None).
      { rewrite Hnone. intros [H|H]; contradiction. }
      split.
      * destruct (is_blank full_text) eqn:Eb; [|reflexivity]. exfalso.
        assert (Hbb := blank_text_blank_blocks _ _ Eb Hin).
        destruct (re_search account_pattern block) as [m|] eqn:Em; [|now apply Ha].
        apply account_match_not_blank in Em. congruence.
      * intros Ht. rewrite table_of_nil_iff in Ht. now apply Hp, Ht.
    + intros [_ Ht].
      destruct (table_of full_text) as [|r rs] eqn:E; [contradiction|].
      assert (Hr : In r (table_of full_text)) by (rewrite E; now left).
      apply table_of_In in Hr as [block [Hin Hp]]. exists block.
      apply parse_block_Some in Hp as [m [Hm [Hc _]]].
      split; [assumption|]. split; [now rewrite Hm | assumption].
  - intros H. now apply Hrun in H.
  - unfold run. destruct (is_blank full_text); [split; [discriminate|now intros [? _]]|].
    destruct (table_of full_text) as [|r rs] eqn:E; simpl.
    + split; [|reflexivity]. intros _. split; [reflexivity|].
      intros block Hin. apply Hnone. now apply (proj1 (table_of_nil_iff full_text)).
    + split; [discriminate|]. intros [_ H]. exfalso.
      assert (Ht : table_of full_text = []).
      { apply table_of_nil_iff. intros block Hin. now apply Hnone, H. }
      rewrite E in Ht. discriminate.
Qed.

(** A text with a page header and one account. *)
Lemma table_shown_iff_a_block_has_account_and_codes_witness :
  table_of (py "Statement Account: 1234 DOE JOHN 99213") <> [].
Proof.
  apply (proj1 (proj2 (table_shown_iff_a_block_has_account_and_codes
                         (py "Statement Account: 1234 DOE JOHN 99213")))).
  vm_compute. reflexivity.
Defined.

(** ** Putting blocks together and splitting them again *)

(** X15.  Take a first piece of text in which no marker begins, and after
    it blocks that each begin with a marker and hold no other one.  The
    split of the pieces put end to end gives them back, so the table of
    that text is read from these blocks, one after the other. *)
Theorem split_of_joined_blocks (first : str) (rest_blocks : list str) :
  (forall pre t, first = pre ++ t -> ~ marker t) ->
  Forall marker rest_blocks ->
  (forall b, In b rest_blocks ->
     forall pre t, b = pre ++ t -> pre <> [] -> ~ marker t) ->
  blocks_of (first ++ concat rest_blocks) = first :: rest_blocks
  /\ table_of (first ++ concat rest_blocks)
     = drop_duplicates (parse_blocks rest_blocks).
Proof.
  intros Hfirst Hm Hin.
  split; [now apply blocks_of_joined | now apply table_of_joined].
Qed.

(** A header and two accounts. *)
Lemma split_of_joined_blocks_witness :
  blocks_of (py "Statement " ++ concat [py "Account: 5001 99213 "; py "Account:5002 99214"])
  = [py "Statement "; py "Account: 5001 99213 "; py "Account:5002 99214"]
  /\ table_of (py "Statement " ++ concat [py "Account: 5001 99213 "; py "Account:5002 99214"])
     = drop_duplicates (parse_blocks [py "Account: 5001 99213 "; py "Account:5002 99214"]).
Proof.
  assert (Hno : forall s, contains (py "Account:") s = false ->
                          forall pre t, s = pre ++ t -> ~ marker t).
  { intros s Hs pre t E [ws [ds [rest [Ht _]]]]. subst.
    now rewrite contains_app in Hs. }
  apply (split_of_joined_blocks (py "Statement ")
           [py "Account: 5001 99213 "; py "Account:5002 99214"]).
  - apply Hno. vm_compute. reflexivity.
  - repeat constructor.
    + exists (py " "), (py "5001"), (py " 99213 "). repeat split.
    + exists [], (py "5002"), (py " 99214"). repeat split.
  - intros b [<-|[<-|[]]] pre t E Hpre.
    + destruct pre as [|a pre]; [contradiction|]. injection E as _ E.
      apply (Hno (py "ccount: 5001 99213 ")) with (pre := pre);
        [vm_compute; reflexivity | exact E].
    + destruct pre as [|a pre]; [contradiction|]. injection E as _ E.
      apply (Hno (py "ccount:5002 99214")) with (pre := pre);
        [vm_compute; reflexivity | exact E].
Defined.

(** ** Which blocks give a record, and which a date *)

(** X16.  A block gives a record exactly when a marker begins somewhere
    in it and some text of the shape of a CPT code, five digits or five
    digits, a hyphen and two letters or digits, stands in it as a whole
    word. *)
Theorem block_gives_record_iff (block : str) :
  (exists r, parse_block block = Some r) <->
  (exists pre t, block = pre ++ t /\ marker t)
  /\ (exists c, cpt_text c /\ whole_word_in block c).
Proof.
  split.
  - intros [r H]. apply parse_block_Some in H as [m [Hm [Hc _]]]. split.
    + apply account_search_inv in Hm as [ws [ds [rest [Hs [Hws [_ [Hds _]]]]]]].
      exists (before m), (py "Account:" ++ ws ++ ds ++ rest).
      split; [assumption | now apply account_digits_marker].
    + destruct (re_findall cpt_pattern block) as [|c cs] eqn:E.
      * now apply extract_cpt_codes_nil in E.
      * assert (Hin : In c (re_findall cpt_pattern block)) by (rewrite E; now left).
        exists c. split; [now apply re_findall_cpt_text in Hin|].
        now apply findall_cpt_whole.
  - intros [[pre [t [Hs Hm]]] [c [Hc Hw]]].
    destruct (re_search account_pattern block) as [m|] eqn:Em.
    + eexists. apply (parse_block_intro block m Em).
      rewrite extract_cpt_codes_nil, findall_cpt_nil_iff. intros H.
      now apply (H c).
    + exfalso. rewrite account_search_None_iff in Em. now apply (Em pre t).
Qed.

(** X17.  The date returned is empty exactly when no text of the shape
    dd/dd/dddd stands in the block as a whole word. *)
Theorem date_of_service_empty_iff (block : str) :
  extract_date_of_service block = [] <->
  forall d, date_text d -> ~ whole_word_in block d.
Proof.
  destruct (date_of_service_cases block) as [[H1 H2]|[H1 H2]].
  - split; [|now intros _]. intros _. now apply findall_date_nil_iff.
  - split.
    + intros E. rewrite E in H1. destruct H1 as [m [d [y [Hw [Hm _]]]]].
      destruct m; discriminate.
    + intros H. now apply H in H2.
Qed.

(** ** A document that grows *)

(** X18.  Take a text made of a first piece without marker and blocks
    that each begin with a marker and hold no other one, and put one more
    such block at its end.  The records already in the table stay as they
    are, in their places; the new block adds its record at the end when
    it has one and no earlier block gave a record with its account
    number, and adds nothing otherwise. *)
Theorem one_more_block_at_the_end (first block : str) (rest_blocks : list str) :
  (forall pre t, first = pre ++ t -> ~ marker t) ->
  Forall marker (rest_blocks ++ [block]) ->
  (forall b, In b (rest_blocks ++ [block]) ->
     forall pre t, b = pre ++ t -> pre <> [] -> ~ marker t) ->
  table_of (first ++ concat (rest_blocks ++ [block]))
  = match parse_block block with
    | Some r =>
        if str_in (account_number r) (keys (parse_blocks rest_blocks))
        then table_of (first ++ concat rest_blocks)
        else table_of (first ++ concat rest_blocks) ++ [r]
    | None => table_of (first ++ concat rest_blocks)
    end.
Proof.
  intros Hfirst Hm Hin.
  rewrite (table_of_joined first (rest_blocks ++ [block]) Hfirst Hm Hin).
  rewrite (table_of_joined first rest_blocks Hfirst).
  - rewrite parse_blocks_app, (parse_blocks_cons block []).
    unfold record_of. destruct (parse_block block) as [r|]; simpl.
    + apply drop_duplicates_snoc.
    + now rewrite app_nil_r.
  - apply Forall_app in Hm. apply Hm.
  - intros b Hb. apply Hin. apply in_or_app. now left.
Qed.

(** One account, then the same account again with another code: the
    table keeps its one record. *)
Lemma one_more_block_at_the_end_witness :
  table_of ([] ++ concat ([py "Account: 5001 99213 "] ++ [py "Account: 5001 99214"]))
  = table_of ([] ++ concat [py "Account: 5001 99213 "]).
Proof.
  assert (Hno : forall s, contains (py "Account:") s = false ->
                          forall pre t, s = pre ++ t -> ~ marker t).
  { intros s Hs pre t E [ws [ds [rest [Ht _]]]]. subst.
    now rewrite contains_app in Hs. }
  rewrite (one_more_block_at_the_end [] (py "Account: 5001 99214")
             [py "Account: 5001 99213 "]).
  - vm_compute. reflexivity.
  - apply Hno. vm_compute. reflexivity.
  - repeat constructor.
    + exists (py " "), (py "5001"), (py " 99213 "). repeat split.
    + exists (py " "), (py "5001"), (py " 99214"). repeat split.
  - intros b [<-|[<-|[]]] pre t E Hpre.
    + destruct pre as [|a pre]; [contradiction|]. injection E as _ E.
      apply (Hno (py "ccount: 5001 99213 ")) with (pre := pre);
        [vm_compute; reflexivity | exact E].
    + destruct pre as [|a pre]; [contradiction|]. injection E as _ E.
      apply (Hno (py "ccount: 5001 99214")) with (pre := pre);
        [vm_compute; reflexivity | exact E].
Defined.

(** ** The CPT codes of a text of characters below U+0100 *)

(** X19.  On a block of text whose characters are below U+0100,
    [extract_cpt_codes] joins with a comma and a space the codes found by
    [findall] with [cpt_pattern], each once and in ascending order.  The
    strings of [findall] are all the matches of the pattern in the block
    that do not overlap, read from the left, each of them a text of the
    block that the pattern matches where it stands.  The list of the codes
    has these strings for elements, it is strictly ascending, so without
    repetition, and each code matches the pattern of five digits with an
    optional hyphen and two ASCII letters or digits.  When the result is
    not empty, splitting it on the separator gives these codes back, and
    there is at least one.  So it is for the codes of every record of the
    table of such a text. *)
Theorem cpt_codes_of_latin1_text :
  (forall block,
     extract_cpt_codes block
     = join (py ", ") (sorted_set (re_findall cpt_pattern block))
     /\ (forall c, In c (sorted_set (re_findall cpt_pattern block)) <->
                   In c (re_findall cpt_pattern block))
     /\ tiling cpt_pattern false None block (re_findall cpt_pattern block)
     /\ (forall c, In c (re_findall cpt_pattern block) ->
           exists pre post, block = pre ++ c ++ post
                            /\ Matches cpt_pattern (last_of None pre) c post)
     /\ StronglySorted str_lt (sorted_set (re_findall cpt_pattern block))
     /\ NoDup (sorted_set (re_findall cpt_pattern block))
     /\ Forall (fun c => matches_cpt_shape c = true)
          (sorted_set (re_findall cpt_pattern block))
     /\ (extract_cpt_codes block <> [] ->
         sorted_set (re_findall cpt_pattern block) <> []
         /\ split_on (py ", ") (extract_cpt_codes block)
            = sorted_set (re_findall cpt_pattern block)))
  /\ (forall full_text r,
        In r (table_of full_text) ->
        split_on (py ", ") (cpt_codes r) <> []
        /\ Forall (fun c => matches_cpt_shape c = true) (split_on (py ", ") (cpt_codes r))
        /\ StronglySorted str_lt (split_on (py ", ") (cpt_codes r))
        /\ NoDup (split_on (py ", ") (cpt_codes r))).
Proof.
  split.
  - intros block. split; [apply extract_cpt_codes_eq|].
    split; [intros c; apply In_sorted_set|].
    split; [apply re_findall_tiling|].
    split; [intros c; apply re_findall_Matches|].
    split; [apply sorted_set_sorted|].
    split; [apply sorted_NoDup, sorted_set_sorted|].
    split; [|apply extract_cpt_codes_split].
    eapply Forall_impl; [|apply sorted_set_cpt_text]. apply cpt_text_shape.
  - intros full_text r Hr.
    apply table_of_In in Hr as [block [_ Hb]].
    apply parse_block_Some in Hb as [m [_ [Hne ->]]]. cbn [cpt_codes].
    destruct (extract_cpt_codes_split block Hne) as [Hn ->].
    split; [assumption|].
    split; [eapply Forall_impl; [|apply sorted_set_cpt_text]; apply cpt_text_shape|].
    split; [apply sorted_set_sorted | apply sorted_NoDup, sorted_set_sorted].
Qed.

(** A block that reads one code twice and another with a modifier. *)
Lemma cpt_codes_of_latin1_text_witness :
  split_on (py ", ") (extract_cpt_codes (py "Account: 1234 99213 90000-3d 99213"))
  = [py "90000-3d"; py "99213"].
Proof.
  destruct (proj2 (proj2 (proj2 (proj2 (proj2 (proj2 (proj2
             (proj1 cpt_codes_of_latin1_text (py "Account: 1234 99213 90000-3d 99213"))))))))
             ltac:(vm_compute; discriminate)) as [_ H].
  rewrite H. vm_compute. reflexivity.
Defined.

